(** * emg3d: a shallow embedding of the multigrid solver and its data model

    The development follows the Python sources:
    - [emg3d/maps.py]    : the registered property maps ([Module Maps]),
                           their dicts ([Module MapsDict]) and the volume
                           averaging ([Module VolumeAverage]);
    - [emg3d/fields.py]  : the [Field] container and its Laplace parameter
                           ([Module Fields]), and the views [fx], [fy],
                           [fz] of a field ([Module FieldViews]);
    - [emg3d/solver.py]  : [MGParameters], [smoothing], [restriction],
                           [prolongation], [multigrid] and [solver]
                           ([Module Solver]).

    Numbers.  The maps and the Laplace parameter need [ln], [exp] and [PI];
    they are stated over the real numbers [R].  The solver only adds,
    subtracts, conjugates and compares; it is stated over the rationals [Q]
    (complex values are pairs of rationals), so every definition of the
    solver evaluates. *)

From Stdlib Require Import String.
From Stdlib Require Import List ZArith QArith Qabs Lia Bool Arith.
From Stdlib Require Import Reals Lra.
From Stdlib Require Import Morphisms.
From Stdlib Require Import DecimalPos Psatz.
From AAC_tactics Require Import AAC.
Import ListNotations.

Close Scope Q_scope.

(* ====================================================================== *)
(** * maps.py *)
(* ====================================================================== *)

Module Maps.
Local Open Scope R_scope.
Local Open Scope string_scope.

(** numpy's elementwise functions on one value. *)
Definition np_log (x : R) : R := ln x.
Definition np_log10 (x : R) : R := ln x / ln 10.
Definition np_exp (x : R) : R := exp x.
(** Python's [10**x]. *)
Definition pow10 (x : R) : R := Rpower 10 x.

(** [class BaseMap]: the interface of a map.  [derivative_chain] updates
    [gradient] in place; here it returns the new gradient. *)
Record BaseMap : Type := mkMap {
  name : string;
  description : string;
  forward : R -> R;               (* conductivity -> mapped *)
  backward : R -> R;              (* mapped -> conductivity *)
  derivative_chain : R -> R -> R  (* gradient, mapped -> gradient *)
}.

Definition MapConductivity : BaseMap :=
  {| name := "Conductivity";
     description := "conductivity";
     forward := fun conductivity => conductivity;
     backward := fun mapped => mapped;
     derivative_chain := fun gradient _ => gradient |}.

Definition MapLgConductivity : BaseMap :=
  {| name := "LgConductivity";
     description := "log_10(conductivity)";
     forward := fun conductivity => np_log10 conductivity;
     backward := fun mapped => pow10 mapped;
     derivative_chain := fun gradient mapped =>
       gradient * (pow10 mapped * np_log 10) |}.

Definition MapLnConductivity : BaseMap :=
  {| name := "LnConductivity";
     description := "log_e(conductivity)";
     forward := fun conductivity => np_log conductivity;
     backward := fun mapped => np_exp mapped;
     derivative_chain := fun gradient mapped => gradient * np_exp mapped |}.

Definition MapResistivity : BaseMap :=
  {| name := "Resistivity";
     description := "resistivity";
     forward := fun conductivity => 1 / conductivity;
     backward := fun mapped => 1 / mapped;
     derivative_chain := fun gradient mapped =>
       gradient * - ((1 / mapped) * (1 / mapped)) |}.

Definition MapLgResistivity : BaseMap :=
  {| name := "LgResistivity";
     description := "log_10(resistivity)";
     forward := fun conductivity => np_log10 (1 / conductivity);
     backward := fun mapped => pow10 (- mapped);
     derivative_chain := fun gradient mapped =>
       gradient * (- pow10 (- mapped) * np_log 10) |}.

Definition MapLnResistivity : BaseMap :=
  {| name := "LnResistivity";
     description := "log_e(resistivity)";
     forward := fun conductivity => np_log (1 / conductivity);
     backward := fun mapped => np_exp (- mapped);
     derivative_chain := fun gradient mapped =>
       gradient * - np_exp (- mapped) |}.

(** [MAPLIST], filled by the [@register_map] decorator: class name -> map. *)
Definition MAPLIST : list (string * BaseMap) :=
  [ ("MapConductivity", MapConductivity);
    ("MapLgConductivity", MapLgConductivity);
    ("MapLnConductivity", MapLnConductivity);
    ("MapResistivity", MapResistivity);
    ("MapLgResistivity", MapLgResistivity);
    ("MapLnResistivity", MapLnResistivity) ].

End Maps.

(* ====================================================================== *)
(** * fields.py *)
(* ====================================================================== *)

Module Fields.
Local Open Scope R_scope.
Local Open Scope string_scope.

(** Complex numbers over the reals, as pairs (real part, imaginary part). *)
Definition C : Type := (R * R)%type.
Definition Cmul (a b : C) : C :=
  (fst a * fst b - snd a * snd b, fst a * snd b + snd a * fst b).
Definition Copp (a : C) : C := (- fst a, - snd a).
Definition Cscale (a : C) (x : R) : C := Cmul a (x, 0).

Inductive dtype : Type := complex128 | float64 | other_dtype (n : string).

(** A numpy array: its dtype and its entries.  A real array keeps imaginary
    parts zero. *)
Record ndarray : Type := { nd_dtype : dtype; nd_data : list C }.

Definition cast (dt : dtype) (z : C) : C :=
  match dt with complex128 => z | _ => (fst z, 0) end.
Definition np_zeros (n : nat) (dt : dtype) : ndarray :=
  {| nd_dtype := dt; nd_data := repeat (0, 0) n |}.
Definition np_asarray (d : ndarray) (dt : dtype) : ndarray :=
  {| nd_dtype := dt; nd_data := map (cast dt) (nd_data d) |}.

(** The part of [meshes.TensorMesh] that [Field.__init__] reads. *)
Record TensorMesh : Type := { n_edges : nat }.

Inductive exn : Type := ValueError (msg : string).

Record Field : Type := {
  _field : ndarray;
  grid : TensorMesh;
  _frequency : option R
}.

(** [Field.__init__(self, grid, data=None, frequency=None, dtype=None)]. *)
Definition Field_init (grid : TensorMesh) (data : option ndarray)
    (frequency : option R) (dt : option dtype) : exn + Field :=
  let dt' : exn + dtype :=
    match frequency with
    | Some f =>                         (* Frequency is top priority. *)
        if Rlt_dec 0 f then inr complex128
        else if Rlt_dec f 0 then inr float64
        else inl (ValueError
          "`frequency` must be f>0 (frequency domain) or f<0 (Laplace domain). Provided: {frequency} Hz.")
    | None =>
        match data with
        | Some d => inr (nd_dtype d)    (* Data is second priority. *)
        | None => match dt with
                  | None => inr complex128   (* Default. *)
                  | Some t => inr t
                  end
        end
    end in
  match dt' with
  | inl e => inl e
  | inr t =>
      inr {| _field := match data with
                       | None => np_zeros (n_edges grid) t
                       | Some d => np_asarray d t
                       end;
             grid := grid;
             _frequency := frequency |}
  end.

(** A zero-dimensional array as [np.array(x)] builds it. *)
Inductive scalar : Type := Real (x : R) | Complex (z : C).

(** [Field.sval]; the cache [_sval] only stores what is computed here. *)
Definition sval (F : Field) : option scalar :=
  match _frequency F with
  | Some f =>
      if Rlt_dec f 0 then Some (Real f)          (* Laplace domain; s. *)
      else Some (Complex (Cscale (Cscale (Copp (0, 2)) PI) f))
  | None => None
  end.

(** [Field.frequency]. *)
Definition frequency (F : Field) : option R :=
  match _frequency F with None => None | Some f => Some (Rabs f) end.

End Fields.

(* ====================================================================== *)
(** * solver.py *)
(* ====================================================================== *)

Module Solver.
Local Open Scope string_scope.
Local Open Scope list_scope.
Local Open Scope nat_scope.

(** ** Numbers and arrays *)

(** Complex values with rational parts. *)
Definition C : Type := (Q * Q)%type.
Definition c0 : C := (0%Q, 0%Q).
Definition Cadd (a b : C) : C := ((fst a + fst b)%Q, (snd a + snd b)%Q).
Definition Csub (a b : C) : C := ((fst a - fst b)%Q, (snd a - snd b)%Q).
Definition conjugate (a : C) : C := (fst a, (- snd a)%Q).

(** A three-dimensional numpy array: its shape and its entries, the first
    index running fastest (the order of the field views, order='F'). *)
Record Arr3 : Type := { shape : nat * nat * nat; flat : list C }.

Definition get (a : Arr3) (i j k : nat) : C :=
  let '(nx, ny, _) := shape a in nth (i + nx * (j + ny * k)) (flat a) c0.

Definition mk (nx ny nz : nat) (f : nat -> nat -> nat -> C) : Arr3 :=
  {| shape := (nx, ny, nz);
     flat := map (fun n => f (n mod nx) ((n / nx) mod ny) (n / (nx * ny)))
                 (seq 0 (nx * ny * nz)) |}.

(** The array holds as many entries as its shape says. *)
Definition wf (a : Arr3) : Prop :=
  let '(nx, ny, nz) := shape a in length (flat a) = nx * ny * nz.

Definition np_zeros (sh : nat * nat * nat) : Arr3 :=
  let '(nx, ny, nz) := sh in mk nx ny nz (fun _ _ _ => c0).

Definition amap (f : C -> C) (a : Arr3) : Arr3 :=
  {| shape := shape a; flat := map f (flat a) |}.

(** [a + b] for two arrays of one shape (the only use in the source). *)
Definition arr_add (a b : Arr3) : Arr3 :=
  let '(nx, ny, nz) := shape a in
  mk nx ny nz (fun i j k => Cadd (get a i j k) (get b i j k)).

Definition arr_sub (a b : Arr3) : Arr3 :=
  let '(nx, ny, nz) := shape a in
  mk nx ny nz (fun i j k => Csub (get a i j k) (get b i j k)).

(** An in-place kernel writes values into [target]; the array keeps its
    shape. *)
Definition inplace (target values : Arr3) : Arr3 :=
  let '(nx, ny, nz) := shape target in mk nx ny nz (get values).

(** [np.sum(a)]. *)
Definition asum (a : Arr3) : C := fold_right Cadd c0 (flat a).

(** The three slices the source uses along one axis:
    [:] , [:-1:2] and [1::2]. *)
Inductive slice : Type := sl_all | sl_even | sl_odd.

(** Number of entries a slice selects from an axis of [n] entries:
    [len(range(n)[:-1:2]) = len(range(n)[1::2]) = n // 2]. *)
Definition slice_len (s : slice) (n : nat) : nat :=
  match s with sl_all => n | sl_even => n / 2 | sl_odd => n / 2 end.

Definition slice_idx (s : slice) (i : nat) : nat :=
  match s with sl_all => i | sl_even => 2 * i | sl_odd => 2 * i + 1 end.

(** [a[sx, sy, sz]]. *)
Definition take (a : Arr3) (sx sy sz : slice) : Arr3 :=
  let '(nx, ny, nz) := shape a in
  mk (slice_len sx nx) (slice_len sy ny) (slice_len sz nz)
     (fun i j k => get a (slice_idx sx i) (slice_idx sy j) (slice_idx sz k)).

Definition inb (x : nat) (l : list nat) : bool := existsb (Nat.eqb x) l.

(** [l[::2]], [l[::r]] for the two steps the source uses (1 and 2), and
    [np.diff(l)]. *)
Fixpoint every_second (l : list Q) : list Q :=
  match l with
  | [] => []
  | x :: t => x :: match t with [] => [] | _ :: t' => every_second t' end
  end.

Definition stride (r : nat) (l : list Q) : list Q :=
  if r =? 1 then l else every_second l.

Fixpoint np_diff (l : list Q) : list Q :=
  match l with
  | x :: ((y :: _) as t) => (y - x)%Q :: np_diff t
  | _ => []
  end.

(** ** The mesh, the model and the field

    [utils.py] of this version is not among the sources; the three classes
    are modelled by what [solver.py] reads from them and what the
    specification says of them. *)

(** Modelled from the spec: [utils.TensorMesh], three width arrays and an
    origin; node coordinates, cell centres and counts are derived. *)
Record TensorMesh : Type := {
  hx : list Q; hy : list Q; hz : list Q;
  x0 : Q * Q * Q
}.

Definition nCx (g : TensorMesh) : nat := length (hx g).
Definition nCy (g : TensorMesh) : nat := length (hy g).
Definition nCz (g : TensorMesh) : nat := length (hz g).
Definition nNx (g : TensorMesh) : nat := nCx g + 1.
Definition nNy (g : TensorMesh) : nat := nCy g + 1.
Definition nNz (g : TensorMesh) : nat := nCz g + 1.
Definition vnC (g : TensorMesh) : nat * nat * nat := (nCx g, nCy g, nCz g).
Definition vnEx (g : TensorMesh) : nat * nat * nat := (nCx g, nNy g, nNz g).
Definition vnEy (g : TensorMesh) : nat * nat * nat := (nNx g, nCy g, nNz g).
Definition vnEz (g : TensorMesh) : nat * nat * nat := (nNx g, nNy g, nCz g).

Fixpoint nodes (o : Q) (h : list Q) : list Q :=
  match h with
  | [] => [o]
  | w :: t => o :: nodes (o + w)%Q t
  end.

Fixpoint centres (o : Q) (h : list Q) : list Q :=
  match h with
  | [] => []
  | w :: t => (o + w / 2)%Q :: centres (o + w)%Q t
  end.

Definition vectorNx (g : TensorMesh) : list Q := nodes (fst (fst (x0 g))) (hx g).
Definition vectorNy (g : TensorMesh) : list Q := nodes (snd (fst (x0 g))) (hy g).
Definition vectorNz (g : TensorMesh) : list Q := nodes (snd (x0 g)) (hz g).
Definition vectorCCx (g : TensorMesh) : list Q := centres (fst (fst (x0 g))) (hx g).
Definition vectorCCy (g : TensorMesh) : list Q := centres (snd (fst (x0 g))) (hy g).
Definition vectorCCz (g : TensorMesh) : list Q := centres (snd (x0 g)) (hz g).

(** Modelled from the spec: [utils.Model], the per-cell coefficients the
    solver reads.  [case]: 0 isotropic, 1 HTI, 2 VTI, 3 tri-axial. *)
Record Model : Type := {
  case : nat;
  freq : Q;
  eta_x : Arr3; eta_y : Arr3; eta_z : Arr3;
  v_mu_r : Arr3
}.

(** Modelled from the spec: [utils.Field], three edge-oriented components
    with shapes [vnEx], [vnEy], [vnEz]; [field] is their concatenation. *)
Record Field : Type := { fx : Arr3; fy : Arr3; fz : Arr3 }.

(** [utils.Field(grid)]: complex zeros. *)
Definition Field_zeros (g : TensorMesh) : Field :=
  {| fx := np_zeros (vnEx g); fy := np_zeros (vnEy g); fz := np_zeros (vnEz g) |}.

Definition inplace_field (target values : Field) : Field :=
  {| fx := inplace (fx target) (fx values);
     fy := inplace (fy target) (fy values);
     fz := inplace (fz target) (fz values) |}.

(** [utils.Field(grid, x)]: the values of [x] seen with the shapes of
    [grid]. *)
Definition Field_of (g : TensorMesh) (x : Field) : Field :=
  inplace_field (Field_zeros g) x.

(** [f.field.conjugate()] written back into [f.field]. *)
Definition field_conjugate (f : Field) : Field :=
  {| fx := amap conjugate (fx f);
     fy := amap conjugate (fy f);
     fz := amap conjugate (fz f) |}.

(** [a - b] on fields. *)
Definition Field_sub (a b : Field) : Field :=
  {| fx := arr_sub (fx a) (fx b);
     fy := arr_sub (fy a) (fy b);
     fz := arr_sub (fz a) (fz b) |}.

(** First or last index of an axis of [n] entries (Python's [0] and [-1]). *)
Definition outer (n i : nat) : bool := (i =? 0) || (i =? n - 1).

(** Whether entry [(i, j, k)] of an array of shape [sh] lies on an outer
    plane of one of the axes flagged in [ax]. *)
Definition on_outer (ax : bool * bool * bool) (sh : nat * nat * nat)
    (i j k : nat) : bool :=
  let '(nx, ny, nz) := sh in
  let '(bx, by_, bz) := ax in
  (bx && outer nx i) || (by_ && outer ny j) || (bz && outer nz k).

(** Entries of [a] on the outer planes of the axes flagged in [ax] are set
    to zero; the others are kept. *)
Definition zero_outer (ax : bool * bool * bool) (a : Arr3) : Arr3 :=
  let '(nx, ny, nz) := shape a in
  mk nx ny nz (fun i j k =>
    if on_outer ax (nx, ny, nz) i j k then c0 else get a i j k).

(** [values] are written into [target], except on the outer planes of the
    axes flagged in [ax], where [target] keeps its entries. *)
Definition keep_outer (ax : bool * bool * bool) (target values : Arr3) : Arr3 :=
  let '(nx, ny, nz) := shape target in
  mk nx ny nz (fun i j k =>
    if on_outer ax (nx, ny, nz) i j k then get target i j k
    else get values i j k).

(** The axes across which an x-, y- or z-edge on an outer face is
    tangential to that face. *)
Definition tangential_x : bool * bool * bool := (false, true, true).
Definition tangential_y : bool * bool * bool := (true, false, true).
Definition tangential_z : bool * bool * bool := (true, true, false).

(** Modelled from the spec: [Field.ensure_pec], which zeroes all tangential
    edges on the six outer faces: x-edges on the y- and z-faces, y-edges on
    the x- and z-faces, z-edges on the x- and y-faces. *)
Definition ensure_pec (f : Field) : Field :=
  {| fx := zero_outer tangential_x (fx f);
     fy := zero_outer tangential_y (fy f);
     fz := zero_outer tangential_z (fz f) |}.

(** Modelled from the spec: what the smoothers and the operator of
    [njitted] write.  The code of [njitted] is not among the sources; the
    specification says that "tangential components on outermost faces are
    never updated by the smoother" and that the operator leaves them zero
    in the zero-initialised field it fills.  So the values a kernel
    computes reach every edge of [target] but the tangential edges on the
    six outer faces. *)
Definition write_inner (target values : Field) : Field :=
  {| fx := keep_outer tangential_x (fx target) (fx values);
     fy := keep_outer tangential_y (fy target) (fy values);
     fz := keep_outer tangential_z (fz target) (fz values) |}.

(** ** [MGParameters] *)

(** A Python value that is [True], [False] or an integer. *)
Inductive flag : Type := PyTrue | PyFalse | PyInt (n : Z).

Inductive exn : Type := ValueError (msg : string) | IndexError.

Definition result (A : Type) : Type := (exn + A)%type.
Definition ok {A : Type} (a : A) : result A := inr a.
Definition raise {A : Type} (e : exn) : result A := inl e.
Definition bind {A B : Type} (m : result A) (f : A -> result B) : result B :=
  match m with inl e => inl e | inr a => f a end.
Notation "x <- m ;; k" := (bind m (fun x => k))
  (at level 61, m at next level, right associativity).

(** The arguments of the dataclass. *)
Record Params : Type := {
  p_verb : Z;
  p_cycle : option string;
  p_sslsolver : flag + string;      (* True, False, or a name *)
  p_linerelaxation : flag;
  p_semicoarsening : flag;
  p_vnC : nat * nat * nat;
  p_tol : Q;
  p_maxit : Z;
  p_nu_init : Z;
  p_nu_pre : Z;
  p_nu_coarse : Z;
  p_nu_post : Z;
  p_clevel : Z
}.

(** What [__post_init__] fixes once and for all. *)
Record Config : Type := {
  verb : Z;
  cycle : option string;
  sslsolver : option string;        (* [None] stands for [False] *)
  linerelaxation : bool;
  semicoarsening : bool;
  tol : Q;
  maxit : Z;
  nu_init : Z;
  nu_pre : Z;
  nu_coarse : Z;
  nu_post : Z;
  clevel : list nat;                (* indexed by rdir, four entries *)
  cycmax : Z;
  ssl_maxit : Z;
  pclevel : nat * (nat * nat * nat) * (nat * nat * nat) * bool
}.

(** The instance [var]: the configuration and the attributes the solver
    writes.  [rcycle] and [lcycle] hold an [itertools.cycle] (the list,
    rotated to its next element) or [None] for [False]. *)
Record Var : Type := {
  cfg : Config;
  vnC_ : nat * nat * nat;
  v_level_all : option (list nat);
  v_first_cycle : bool;
  v_it : Z;
  v_ssl_it : Z;
  v_l2 : Q;
  v_rcycle : option (list nat);
  v_lcycle : option (list nat);
  v_rdir : nat;
  v_ldir : nat
}.

Definition set_level_all (x : option (list nat)) (v : Var) : Var :=
  {| cfg := cfg v; vnC_ := vnC_ v; v_level_all := x;
     v_first_cycle := v_first_cycle v; v_it := v_it v; v_ssl_it := v_ssl_it v;
     v_l2 := v_l2 v; v_rcycle := v_rcycle v; v_lcycle := v_lcycle v;
     v_rdir := v_rdir v; v_ldir := v_ldir v |}.
Definition set_first_cycle (x : bool) (v : Var) : Var :=
  {| cfg := cfg v; vnC_ := vnC_ v; v_level_all := v_level_all v;
     v_first_cycle := x; v_it := v_it v; v_ssl_it := v_ssl_it v;
     v_l2 := v_l2 v; v_rcycle := v_rcycle v; v_lcycle := v_lcycle v;
     v_rdir := v_rdir v; v_ldir := v_ldir v |}.
Definition set_it (x : Z) (v : Var) : Var :=
  {| cfg := cfg v; vnC_ := vnC_ v; v_level_all := v_level_all v;
     v_first_cycle := v_first_cycle v; v_it := x; v_ssl_it := v_ssl_it v;
     v_l2 := v_l2 v; v_rcycle := v_rcycle v; v_lcycle := v_lcycle v;
     v_rdir := v_rdir v; v_ldir := v_ldir v |}.
Definition set_ssl_it (x : Z) (v : Var) : Var :=
  {| cfg := cfg v; vnC_ := vnC_ v; v_level_all := v_level_all v;
     v_first_cycle := v_first_cycle v; v_it := v_it v; v_ssl_it := x;
     v_l2 := v_l2 v; v_rcycle := v_rcycle v; v_lcycle := v_lcycle v;
     v_rdir := v_rdir v; v_ldir := v_ldir v |}.
Definition set_l2 (x : Q) (v : Var) : Var :=
  {| cfg := cfg v; vnC_ := vnC_ v; v_level_all := v_level_all v;
     v_first_cycle := v_first_cycle v; v_it := v_it v; v_ssl_it := v_ssl_it v;
     v_l2 := x; v_rcycle := v_rcycle v; v_lcycle := v_lcycle v;
     v_rdir := v_rdir v; v_ldir := v_ldir v |}.
Definition set_rdir (x : nat) (c : option (list nat)) (v : Var) : Var :=
  {| cfg := cfg v; vnC_ := vnC_ v; v_level_all := v_level_all v;
     v_first_cycle := v_first_cycle v; v_it := v_it v; v_ssl_it := v_ssl_it v;
     v_l2 := v_l2 v; v_rcycle := c; v_lcycle := v_lcycle v;
     v_rdir := x; v_ldir := v_ldir v |}.
Definition set_ldir (x : nat) (c : option (list nat)) (v : Var) : Var :=
  {| cfg := cfg v; vnC_ := vnC_ v; v_level_all := v_level_all v;
     v_first_cycle := v_first_cycle v; v_it := v_it v; v_ssl_it := v_ssl_it v;
     v_l2 := v_l2 v; v_rcycle := v_rcycle v; v_lcycle := c;
     v_rdir := v_rdir v; v_ldir := x |}.

(** [next(c)] on an [itertools.cycle]: the element and the advanced cycle. *)
Definition next (c : list nat) : nat * list nat :=
  match c with
  | [] => (0, [])
  | x :: t => (x, t ++ [x])
  end.

(** [[int(x) for x in str(abs(n))]]. *)
Fixpoint uint_digits (u : Decimal.uint) : list nat :=
  match u with
  | Decimal.Nil => []
  | Decimal.D0 u => 0 :: uint_digits u
  | Decimal.D1 u => 1 :: uint_digits u
  | Decimal.D2 u => 2 :: uint_digits u
  | Decimal.D3 u => 3 :: uint_digits u
  | Decimal.D4 u => 4 :: uint_digits u
  | Decimal.D5 u => 5 :: uint_digits u
  | Decimal.D6 u => 6 :: uint_digits u
  | Decimal.D7 u => 7 :: uint_digits u
  | Decimal.D8 u => 8 :: uint_digits u
  | Decimal.D9 u => 9 :: uint_digits u
  end.
Definition str_digits (n : Z) : list nat := uint_digits (N.to_uint (Z.abs_N n)).

(** Sections 1 and 2 of [__post_init__]: the values [rcycle] (or [lcycle])
    of the local array, whether it cycles, for a flag whose admissible
    digits are [0..top] and whose [True] stands for [dflt]. *)
Definition directions (what : string) (top : nat) (dflt : list nat) (x : flag)
  : result (list nat * bool) :=
  match x with
  | PyTrue => ok (dflt, true)
  | PyFalse => ok ([0], false)
  | PyInt n =>
      if (0 <=? n)%Z && (n <=? Z.of_nat top)%Z then ok ([Z.to_nat n], false)
      else
        let c := str_digits n in
        if existsb (fun d => top <? d) c then raise (ValueError what)
        else ok (c, true)
  end.

(** The [while] loop of [max_level] for one dimension: how often [n] can be
    halved while it is even and bigger than two.  [n] steps are enough. *)
Fixpoint halvings_loop (steps n c : nat) : nat :=
  match steps with
  | O => c
  | S steps' =>
      if (n mod 2 =? 0) && (2 <? n) then halvings_loop steps' (n / 2) (c + 1)
      else c
  end.
Definition halvings (n : nat) : nat := halvings_loop n n 0.

Definition max3 (a b c : nat) : nat := Nat.max (Nat.max a b) c.

(** The property [max_level]: the per-direction levels, the four entries
    of [clevel] and the record [pclevel]. *)
Definition max_level (vnC : nat * nat * nat) (olevel : Z)
  : result (list nat * (nat * (nat * nat * nat) * (nat * nat * nat) * bool)) :=
  let '(n0, n1, n2) := vnC in
  let restrict_to (c : nat) : nat :=
    if (-1 <? olevel)%Z && (olevel <? Z.of_nat c)%Z then Z.to_nat olevel else c in
  let c0 := restrict_to (halvings n0) in
  let c1 := restrict_to (halvings n1) in
  let c2 := restrict_to (halvings n2) in
  let clevel := [max3 c0 c1 c2; Nat.max c1 c2; Nat.max c0 c2; Nat.max c0 c1] in
  let sx := n0 / 2 ^ c0 in
  let sy := n1 / 2 ^ c1 in
  let sz := n2 / 2 ^ c2 in
  let message :=
    if (-1 <? olevel)%Z
    then (105 <? sx * sy * sz) || ((7 <? sx) || (7 <? sy) || (7 <? sz))
    else false in
  if (n0 <? 2) || (n1 <? 2) || (n2 <? 2) then raise (ValueError "nCx/nCy/nCz")
  else ok (clevel, (sx * sy * sz, (sx, sy, sz), (c0, c1, c2), message)).

Definition solvers : list string :=
  ["bicgstab"; "cgs"; "gmres"; "lgmres"; "gcrotmk"].

Definition str_in (s : string) (l : list string) : bool :=
  existsb (String.eqb s) l.

(** [MGParameters(...)]: the dataclass fields and [__post_init__]. *)
Definition MGParameters (p : Params) : result Var :=
  (* 1. semicoarsening *)
  r <- directions "semicoarsening" 3 [1; 2; 3] (p_semicoarsening p) ;;
  let '(rcycle, rcycles) := r in
  let '(rdir, rcyc) :=
    if rcycles then (fst (next rcycle), Some (snd (next rcycle)))
    else (nth 0 rcycle 0, None) in
  (* 2. linerelaxation *)
  l <- directions "linerelaxation" 7 [4; 5; 6] (p_linerelaxation p) ;;
  let '(lcycle, lcycles) := l in
  let '(ldir, lcyc) :=
    if lcycles then (fst (next lcycle), Some (snd (next lcycle)))
    else (nth 0 lcycle 0, None) in
  (* 3. sslsolver and cycle *)
  ssl <- match p_sslsolver p with
         | inl PyTrue => ok (Some "bicgstab")
         | inl PyFalse => ok None
         | inl (PyInt _) => raise (ValueError "sslsolver!r")
         | inr s => if str_in s solvers then ok (Some s)
                    else raise (ValueError "sslsolver!r")
         end ;;
  _ <- match p_cycle p with
       | None => ok tt
       | Some c => if str_in c ["F"; "V"; "W"] then ok tt
                   else raise (ValueError "cycle")
       end ;;
  let cycmax := match p_cycle p with
                | Some c => if str_in c ["F"; "W"] then 2%Z else 1%Z
                | None => 1%Z
                end in
  _ <- match ssl, p_cycle p with
       | None, None => raise (ValueError "cycle/sslsolver")
       | _, _ => ok tt
       end ;;
  let ssl_maxit := match ssl with Some _ => p_maxit p | None => 0%Z end in
  let maxit := match ssl, p_cycle p with
               | Some _, Some _ =>
                   Z.of_nat (Nat.max (length rcycle) (length lcycle))
               | _, _ => p_maxit p
               end in
  (* 4. Check max coarsening level *)
  m <- max_level (p_vnC p) (p_clevel p) ;;
  ok {| cfg := {| verb := p_verb p; cycle := p_cycle p; sslsolver := ssl;
                  linerelaxation := negb (ldir =? 0);
                  semicoarsening := negb (rdir =? 0);
                  tol := p_tol p; maxit := maxit;
                  nu_init := p_nu_init p; nu_pre := p_nu_pre p;
                  nu_coarse := p_nu_coarse p; nu_post := p_nu_post p;
                  clevel := fst m; cycmax := cycmax; ssl_maxit := ssl_maxit;
                  pclevel := snd m |};
        vnC_ := p_vnC p;
        v_level_all := None; v_first_cycle := true;
        v_it := 0%Z; v_ssl_it := 0%Z; v_l2 := 0%Q;
        v_rcycle := rcyc; v_lcycle := lcyc;
        v_rdir := rdir; v_ldir := ldir |}.

(** ** Calls, state and the numerical kernels *)

Inductive gs_kind : Type := GS | GSx | GSy | GSz.

(** What a run does, in order: the kernel calls of [smoothing], the entries
    of [multigrid], the grid transfers, the Krylov call, and the messages
    printed with a fixed text.  (Formatted log lines, which only display
    values of [var], are left out.) *)
Inductive event : Type :=
  | EvGaussSeidel (kind : gs_kind) (vnC : nat * nat * nat) (nu : Z)
  | EvMultigrid (level : nat) (vnC : nat * nat * nat) (new_cycmax cycmax : Z)
  | EvRestriction (level : nat) (vnC : nat * nat * nat) (rdir : nat)
  | EvProlongation (level : nat) (rdir : nat)
  | EvKrylov (solver : string) (maxiter : Z) (preconditioned : bool)
  | EvPrint (msg : string).

Record St : Type := { var : Var; log : list event }.

Definition emit (e : list event) (s : St) : St :=
  {| var := var s; log := log s ++ e |}.
Definition upd (f : Var -> Var) (s : St) : St :=
  {| var := f (var s); log := log s |}.

Inductive status : Type := Done | OutOfFuel | Raised (e : exn).

(** What a solver of [scipy.sparse.linalg] does with the operators it is
    given: it returns [(x, info)], or asks for [A v], for [M b] or calls
    the callback, and goes on with the answer. *)
Inductive KrylovRun : Type :=
  | KReturn (x : Field) (info : Z)
  | KMatvec (v : Field) (k : Field -> KrylovRun)
  | KPrecond (b : Field) (k : Field -> KrylovRun)
  | KCallback (x : Field + Q) (k : KrylovRun).

Definition weights : Type := (list Q * list Q * list Q)%type.

(** The functions of [njitted], numpy and scipy that [solver.py] calls, and
    the constructor of [utils.Model].  In-place kernels return the values
    they compute; [inplace] and [write_inner] put them into the target.  [krylov] is
    [getattr(ssl, name)]: from [b], [x0], [tol], [maxiter] and whether a
    preconditioner [M] is given, it decides which calls of [A], [M] and the
    callback it makes ([KrylovRun]), and returns a new array and its flag;
    it works on a copy of [x0]. *)
Record Kernels : Type := {
  amat_x : Field -> Field -> Arr3 -> Arr3 -> Arr3 -> Arr3 ->
           list Q -> list Q -> list Q -> Field;
  gauss_seidel : Field -> Field -> Arr3 -> Arr3 -> Arr3 -> Arr3 ->
           list Q -> list Q -> list Q -> Z -> Field;
  gauss_seidel_x : Field -> Field -> Arr3 -> Arr3 -> Arr3 -> Arr3 ->
           list Q -> list Q -> list Q -> Z -> Field;
  gauss_seidel_y : Field -> Field -> Arr3 -> Arr3 -> Arr3 -> Arr3 ->
           list Q -> list Q -> list Q -> Z -> Field;
  gauss_seidel_z : Field -> Field -> Arr3 -> Arr3 -> Arr3 -> Arr3 ->
           list Q -> list Q -> list Q -> Z -> Field;
  restrict_weights : list Q -> list Q -> list Q ->
           list Q -> list Q -> list Q -> weights;
  restrict : Field -> Field -> weights -> weights -> weights -> nat -> Field;
  RegularGridInterpolator :
           list Q -> list Q -> (nat -> nat -> C) ->
           list Q -> list Q -> nat -> nat -> C;
  norm : Field -> Q;
  utils_Model : TensorMesh -> Q -> option Q -> option Q -> Q -> Model;
  krylov : string -> Field -> Field -> Q -> Z -> bool -> KrylovRun
}.

Definition Qltb (x y : Q) : bool := negb (Qle_bool y x).

Section WithKernels.
Variable K : Kernels.

(** ** [residual] *)
Definition residual (grid : TensorMesh) (model : Model) (sfield efield : Field)
  : Field :=
  let rfield := Field_zeros grid in
  let rfield :=
    write_inner rfield
      (amat_x K rfield efield (eta_x model) (eta_y model)
         (eta_z model) (v_mu_r model) (hx grid) (hy grid) (hz grid)) in
  Field_sub sfield rfield.

(** ** [smoothing]: the field after the kernel calls, and the calls made. *)
Definition smoothing (grid : TensorMesh) (model : Model)
    (sfield efield : Field) (nu : Z) (ldir : nat) : Field * list event :=
  let run (f : Field -> Field -> Arr3 -> Arr3 -> Arr3 -> Arr3 ->
               list Q -> list Q -> list Q -> Z -> Field) (e : Field) : Field :=
    write_inner e
      (f e sfield (eta_x model) (eta_y model) (eta_z model) (v_mu_r model)
         (hx grid) (hy grid) (hz grid) nu) in
  (* Avoid line relaxation in a direction where there are only two cells. *)
  let ldir :=
    if nCx grid =? 2 then
      if ldir =? 1 then 0 else if ldir =? 5 then 3
      else if ldir =? 6 then 2 else if ldir =? 7 then 4 else ldir
    else ldir in
  let ldir :=
    if nCy grid =? 2 then
      if ldir =? 2 then 0 else if ldir =? 4 then 3
      else if ldir =? 6 then 1 else if ldir =? 7 then 5 else ldir
    else ldir in
  let ldir :=
    if nCz grid =? 2 then
      if ldir =? 3 then 0 else if ldir =? 4 then 2
      else if ldir =? 5 then 1 else if ldir =? 7 then 6 else ldir
    else ldir in
  (* Calculate and store fields (in-place) *)
  let '(e, ev) :=
    if ldir =? 0
    then (run (gauss_seidel K) efield, [EvGaussSeidel GS (vnC grid) nu])
    else (efield, []) in
  let '(e, ev) :=
    if inb ldir [1; 5; 6; 7]
    then (run (gauss_seidel_x K) e, ev ++ [EvGaussSeidel GSx (vnC grid) nu])
    else (e, ev) in
  let '(e, ev) :=
    if inb ldir [2; 4; 6; 7]
    then (run (gauss_seidel_y K) e, ev ++ [EvGaussSeidel GSy (vnC grid) nu])
    else (e, ev) in
  let '(e, ev) :=
    if inb ldir [3; 4; 5; 7]
    then (run (gauss_seidel_z K) e, ev ++ [EvGaussSeidel GSz (vnC grid) nu])
    else (e, ev) in
  (e, ev).

(** ** [restriction] *)

(** The inner function [restr]: restrict model parameters. *)
Definition restr (param : Arr3) (rdir : nat) : Arr3 :=
  let p := take param in
  if rdir =? 1 then       (* Only sum the four cells in y-z-plane *)
    arr_add (arr_add (p sl_all sl_even sl_even) (p sl_all sl_odd sl_even))
            (arr_add (p sl_all sl_even sl_odd) (p sl_all sl_odd sl_odd))
  else if rdir =? 2 then  (* Only sum the four cells in x-z-plane *)
    arr_add (arr_add (p sl_even sl_all sl_even) (p sl_odd sl_all sl_even))
            (arr_add (p sl_even sl_all sl_odd) (p sl_odd sl_all sl_odd))
  else if rdir =? 3 then  (* Only sum the four cells in x-y-plane *)
    arr_add (arr_add (p sl_even sl_even sl_all) (p sl_odd sl_even sl_all))
            (arr_add (p sl_even sl_odd sl_all) (p sl_odd sl_odd sl_all))
  else if rdir =? 4 then  (* Only sum the two cells in x-direction *)
    arr_add (p sl_even sl_all sl_all) (p sl_odd sl_all sl_all)
  else if rdir =? 5 then  (* Only sum the two cells y-direction *)
    arr_add (p sl_all sl_even sl_all) (p sl_all sl_odd sl_all)
  else if rdir =? 6 then  (* Only sum the two cells z-direction *)
    arr_add (p sl_all sl_all sl_even) (p sl_all sl_all sl_odd)
  else                    (* Standard: Sum all 8 cells. *)
    arr_add
      (arr_add
        (arr_add
          (arr_add (p sl_even sl_even sl_even) (p sl_odd sl_even sl_even))
          (arr_add (p sl_even sl_even sl_odd) (p sl_odd sl_even sl_odd)))
        (arr_add (p sl_even sl_odd sl_even) (p sl_odd sl_odd sl_even)))
      (arr_add (p sl_even sl_odd sl_odd) (p sl_odd sl_odd sl_odd)).

Definition set_eta (ex ey ez : Arr3) (m : Model) : Model :=
  {| case := case m; freq := freq m;
     eta_x := ex; eta_y := ey; eta_z := ez; v_mu_r := v_mu_r m |}.

(** The steps [rx, ry, rz]: every second element is taken in the
    direction(s) of coarsening. *)
Definition steps (rdir : nat) : nat * nat * nat :=
  (if inb rdir [1; 5; 6] then 1 else 2,     (* No coarsening in x-direction. *)
   if inb rdir [2; 4; 6] then 1 else 2,     (* No coarsening in y-direction. *)
   if inb rdir [3; 4; 5] then 1 else 2).    (* No coarsening in z-direction. *)

Definition restriction (grid : TensorMesh) (model : Model)
    (sfield residual : Field) (rdir : nat)
  : TensorMesh * Model * Field * Field :=
  (* 1. RESTRICT GRID *)
  let '(rx, ry, rz) := steps rdir in
  let cgrid :=
    {| hx := np_diff (stride rx (vectorNx grid));
       hy := np_diff (stride ry (vectorNy grid));
       hz := np_diff (stride rz (vectorNz grid));
       x0 := x0 grid |} in
  (* 2. RESTRICT MODEL *)
  let res_y := if inb (case model) [0; 2] then None else Some 1%Q in
  let res_z := if inb (case model) [0; 1] then None else Some 1%Q in
  let cmodel := utils_Model K cgrid 1%Q res_y res_z (freq model) in
  let cmodel :=
    set_eta (restr (eta_x model) rdir)
            (match res_y with
             | Some _ => restr (eta_y model) rdir
             | None => eta_y cmodel
             end)
            (match res_z with
             | Some _ => restr (eta_z model) rdir
             | None => eta_z cmodel
             end)
            cmodel in
  (* 3. RESTRICT FIELDS *)
  let wx :=
    if negb (inb rdir [1; 5; 6]) then
      restrict_weights K (vectorNx grid) (vectorCCx grid) (hx grid)
        (vectorNx cgrid) (vectorCCx cgrid) (hx cgrid)
    else (repeat 0%Q (nNx grid), repeat 1%Q (nNx grid), repeat 0%Q (nNx grid)) in
  let wy :=
    if negb (inb rdir [2; 4; 6]) then
      restrict_weights K (vectorNy grid) (vectorCCy grid) (hy grid)
        (vectorNy cgrid) (vectorCCy cgrid) (hy cgrid)
    else (repeat 0%Q (nNy grid), repeat 1%Q (nNy grid), repeat 0%Q (nNy grid)) in
  let wz :=
    if negb (inb rdir [3; 4; 5]) then
      restrict_weights K (vectorNz grid) (vectorCCz grid) (hz grid)
        (vectorNz cgrid) (vectorCCz cgrid) (hz cgrid)
    else (repeat 0%Q (nNz grid), repeat 1%Q (nNz grid), repeat 0%Q (nNz grid)) in
  let csfield := Field_zeros cgrid in
  let csfield :=
    inplace_field csfield (restrict K csfield residual wx wz wy rdir) in
  (* Ensure PEC and initiate empty e-field. *)
  let csfield := ensure_pec csfield in
  let cefield := Field_zeros cgrid in
  (cgrid, cmodel, csfield, cefield).

(** ** [prolongation] *)

(** [a[i, :, :] += hh], [a[:, j, :] += hh] and [a[:, :, k] += hh]; an index
    outside the axis raises [IndexError]. *)
Definition add_plane_x (a : Arr3) (i0 : nat) (hh : nat -> nat -> C)
  : result Arr3 :=
  let '(nx, ny, nz) := shape a in
  if i0 <? nx then
    ok (mk nx ny nz (fun i j k =>
          if i =? i0 then Cadd (get a i j k) (hh j k) else get a i j k))
  else raise IndexError.
Definition add_plane_y (a : Arr3) (j0 : nat) (hh : nat -> nat -> C)
  : result Arr3 :=
  let '(nx, ny, nz) := shape a in
  if j0 <? ny then
    ok (mk nx ny nz (fun i j k =>
          if j =? j0 then Cadd (get a i j k) (hh i k) else get a i j k))
  else raise IndexError.
Definition add_plane_z (a : Arr3) (k0 : nat) (hh : nat -> nat -> C)
  : result Arr3 :=
  let '(nx, ny, nz) := shape a in
  if k0 <? nz then
    ok (mk nx ny nz (fun i j k =>
          if k =? k0 then Cadd (get a i j k) (hh i j) else get a i j k))
  else raise IndexError.

(** [for ic in range(n): a = body ic a]. *)
Fixpoint for_range (ics : list nat) (body : nat -> Arr3 -> result Arr3)
    (a : Arr3) : result Arr3 :=
  match ics with
  | [] => ok a
  | ic :: rest => a' <- body ic a ;; for_range rest body a'
  end.

Definition prolongation (grid : TensorMesh) (efield : Field)
    (cgrid : TensorMesh) (cefield : Field) (rdir : nat) : result Field :=
  (* Interpolate ex in y-z-slices. *)
  efx <- for_range (seq 0 (nCx cgrid)) (fun ixc a =>
    (* Bilinear interpolation in the y-z plane *)
    let hh := RegularGridInterpolator K (vectorNy cgrid) (vectorNz cgrid)
                (fun j k => get (fx cefield) ixc j k)
                (vectorNy grid) (vectorNz grid) in
    (* Piecewise constant interpolation in x-direction *)
    if negb (inb rdir [1; 5; 6]) then
      a' <- add_plane_x a (2 * ixc) hh ;; add_plane_x a' (2 * ixc + 1) hh
    else add_plane_x a ixc hh) (fx efield) ;;
  (* Interpolate ey in x-z-slices. *)
  efy <- for_range (seq 0 (nCy cgrid)) (fun iyc a =>
    let hh := RegularGridInterpolator K (vectorNx cgrid) (vectorNz cgrid)
                (fun i k => get (fy cefield) i iyc k)
                (vectorNx grid) (vectorNz grid) in
    if negb (inb rdir [2; 4; 6]) then
      a' <- add_plane_y a (2 * iyc) hh ;; add_plane_y a' (2 * iyc + 1) hh
    else add_plane_y a iyc hh) (fy efield) ;;
  (* Interpolate ez in x-y-slices. *)
  efz <- for_range (seq 0 (nCz cgrid)) (fun izc a =>
    let hh := RegularGridInterpolator K (vectorNx cgrid) (vectorNy cgrid)
                (fun i j => get (fz cefield) i j izc)
                (vectorNx grid) (vectorNy grid) in
    if negb (inb rdir [3; 4; 5]) then
      a' <- add_plane_z a (2 * izc) hh ;; add_plane_z a' (2 * izc + 1) hh
    else add_plane_z a izc hh) (fz efield) ;;
  (* Ensure PEC boundaries *)
  ok (ensure_pec {| fx := efx; fy := efy; fz := efz |}).

(** ** [multigrid] *)

(** [var.clevel[var.rdir]]. *)
Definition clevel_rdir (v : Var) : nat := nth (v_rdir v) (clevel (cfg v)) 0.

Definition cycle_is (c : string) (v : Var) : bool :=
  match cycle (cfg v) with Some c' => String.eqb c' c | None => false end.

(** The block "Get cycmax" at the entry of [multigrid]. *)
Definition get_cycmax (v : Var) (level : nat) (new_cycmax : Z) : Z :=
  if level =? clevel_rdir v then 1%Z
  else if (new_cycmax =? 0)%Z || negb (cycle_is "F" v) then cycmax (cfg v)
  else new_cycmax.

(** The block "Find out in which direction we want to half the number of
    cells" and "Set current rdir depending on the above outcome". *)
Definition get_rdir (grid : TensorMesh) (v : Var) : nat :=
  let xrdir := negb (nCx grid mod 2 =? 0) || (nCx grid <? 3) || (v_rdir v =? 1) in
  let yrdir := negb (nCy grid mod 2 =? 0) || (nCy grid <? 3) || (v_rdir v =? 2) in
  let zrdir := negb (nCz grid mod 2 =? 0) || (nCz grid <? 3) || (v_rdir v =? 3) in
  if xrdir then
    if yrdir then 6          (* Only coarsen in z-direction. *)
    else if zrdir then 5     (* Only coarsen in y-direction. *)
    else 1                   (* Coarsen in y- and z-directions. *)
  else if yrdir then
    if zrdir then 4          (* Only coarsen in x-direction. *)
    else 2                   (* Coarsen in x- and z-directions. *)
  else if zrdir then 3       (* Coarsen in x- and y-directions. *)
  else 0.                    (* Coarsen in all directions. *)

(** What the block "Check termination criteria" decides. *)
Inductive verdict : Type := Continue | Break (msg : option string).

Definition termination (v : Var) (it : Z)
    (l2_last l2_init l2_prev l2_refe : Q) : verdict :=
  match sslsolver (cfg v) with
  | Some _ =>      (* If multigrid as preconditioner, exit silently. *)
      if (it =? maxit (cfg v))%Z then Break None else Continue
  | None =>
      if Qltb l2_last (tol (cfg v) * l2_refe)%Q then          (* Converged. *)
        Break (Some "   > CONVERGED")
      else if Qltb (10 * l2_init)%Q l2_last then              (* Diverged. *)
        Break (Some "   > DIVERGED")
      else if (2 <? it)%Z && Qle_bool l2_prev l2_last then    (* Stagnated. *)
        Break (Some "   > STAGNATED")
      else if (it =? maxit (cfg v))%Z then             (* Max. iterations. *)
        Break (Some "   > MAX. ITERATION REACHED, NOT CONVERGED")
      else Continue
  end.

(** The local variables of [multigrid] that the [while] loop changes. *)
Record Loop : Type := {
  l_it : Z;
  l_cyc : Z;
  l_l2_last : Q;
  l_l2_prev : Q;
  l_efield : Field;
  l_st : St
}.

Definition append_level (level : nat) (v : Var) : Var :=
  if (2 <? verb (cfg v))%Z && v_first_cycle v
  then set_level_all (option_map (fun l => l ++ [level]) (v_level_all v)) v
  else v.

(** [if var.rcycle: var.rdir = next(var.rcycle)] and the same for [ldir]. *)
Definition advance_cycles (v : Var) : Var :=
  let v := match v_rcycle v with
           | Some c => set_rdir (fst (next c)) (Some (snd (next c))) v
           | None => v
           end in
  match v_lcycle v with
  | Some c => set_ldir (fst (next c)) (Some (snd (next c))) v
  | None => v
  end.

(** One pass through the body of the [while] loop, up to and including the
    update of the iterator counts; [self] is the recursive call. *)
Definition cycle_body
    (self : TensorMesh -> Model -> Field -> Field -> St -> nat -> Z ->
            Field * St * status)
    (grid : TensorMesh) (model : Model) (sfield : Field)
    (level : nat) (cycmax : Z) (s : Loop) : Loop * status :=
  (* Store previous error for comparisons. *)
  let l2_prev := l_l2_last s in
  let v := var (l_st s) in
  let '(efield, l2_last, st, stat) :=
    if level =? clevel_rdir v then    (* (A) Coarsest grid, solve system. *)
      let '(e, ev) :=
        smoothing grid model sfield (l_efield s) (nu_coarse (cfg v)) (v_ldir v) in
      let l2_last :=
        if (3 <? verb (cfg v))%Z
        then norm K (residual grid model sfield e) else l_l2_last s in
      (e, l2_last, emit ev (l_st s), Done)
    else                              (* (B) Not yet on coarsest grid. *)
      (* (B.1) Pre-smoothing (nu_pre). *)
      let '(e, ev) :=
        if (0 <? nu_pre (cfg v))%Z
        then smoothing grid model sfield (l_efield s) (nu_pre (cfg v)) (v_ldir v)
        else (l_efield s, []) in
      let st := emit ev (l_st s) in
      (* Get current residual. *)
      let res := residual grid model sfield e in
      let l2_last :=
        if (0 <? nu_pre (cfg v))%Z && (3 <? verb (cfg v))%Z
        then norm K res else l_l2_last s in
      let rdir := get_rdir grid v in
      (* (B.2) Restrict grid, model, and fields from fine to coarse grid. *)
      let '(cgrid, cmodel, csfield, cefield) :=
        restriction grid model sfield res rdir in
      let st := emit [EvRestriction level (vnC grid) rdir] st in
      (* (B.3) Recursive call for coarse-grid correction. *)
      let '(cefield, st, stat) :=
        self cgrid cmodel csfield cefield st (level + 1)
             (cycmax - l_cyc s)%Z in
      match stat with
      | Done =>
          (* (B.4) Add coarse field residual to fine grid field. *)
          let st := emit [EvProlongation level rdir] st in
          match prolongation grid e cgrid cefield rdir with
          | inl x => (e, l2_last, st, Raised x)
          | inr e =>
              let st := upd (append_level level) st in
              (* (B.5) Post-smoothing (nu_post). *)
              let v := var st in
              let '(e, ev) :=
                if (0 <? nu_post (cfg v))%Z
                then smoothing grid model sfield e (nu_post (cfg v)) (v_ldir v)
                else (e, []) in
              (* Get current error (l2-norm). *)
              (e, norm K (residual grid model sfield e), emit ev st, Done)
          end
      | _ => (e, l2_last, st, stat)
      end in
  match stat with
  | Done =>
      (* Update iterator counts. *)
      let it := (l_it s + 1)%Z in
      let st := if level =? 0
                then upd (fun v => set_it (v_it v + 1)%Z v) st else st in
      ({| l_it := it; l_cyc := l_cyc s; l_l2_last := l2_last;
          l_l2_prev := l2_prev; l_efield := efield; l_st := st |}, Done)
  | _ =>
      ({| l_it := l_it s; l_cyc := l_cyc s; l_l2_last := l2_last;
          l_l2_prev := l2_prev; l_efield := efield; l_st := st |}, stat)
  end.

(** The [while] loop; [n] bounds the number of passes. *)
Fixpoint mg_loop
    (self : TensorMesh -> Model -> Field -> Field -> St -> nat -> Z ->
            Field * St * status)
    (n : nat) (grid : TensorMesh) (model : Model) (sfield : Field)
    (level : nat) (cycmax : Z) (l2_refe l2_init : Q) (s : Loop)
  : Loop * status :=
  match n with
  | O => (s, OutOfFuel)
  | S n' =>
      if negb ((level =? 0) || ((0 <? level) && (l_it s <? cycmax)%Z))
      then (s, Done)
      else
        match cycle_body self grid model sfield level cycmax s with
        | (s, Done) =>
            (* End loop depending if we are on the original grid or not. *)
            if 0 <? level then      (* Update cyc if on a coarse grid. *)
              mg_loop self n' grid model sfield level cycmax l2_refe l2_init
                {| l_it := l_it s; l_cyc := (l_cyc s + 1)%Z;
                   l_l2_last := l_l2_last s; l_l2_prev := l_l2_prev s;
                   l_efield := l_efield s; l_st := l_st s |}
            else      (* Original grid reached, check termination criteria. *)
              let st := l_st s in
              (* Reset _level_all (after the cycle-QC figure). *)
              let st :=
                if (2 <? verb (cfg (var st)))%Z && v_first_cycle (var st)
                then upd (set_level_all (Some [0])) st else st in
              (* Adjust semicoarsening and line relaxation if they cycle. *)
              let st := upd advance_cycles st in
              match termination (var st) (l_it s) (l_l2_last s) l2_init
                      (l_l2_prev s) l2_refe with
              | Break msg =>
                  let st :=
                    match msg with
                    | Some m => if (1 <? verb (cfg (var st)))%Z
                                then emit [EvPrint m] st else st
                    | None => st
                    end in
                  ({| l_it := l_it s; l_cyc := l_cyc s;
                      l_l2_last := l_l2_last s; l_l2_prev := l_l2_prev s;
                      l_efield := l_efield s; l_st := st |}, Done)
              | Continue =>
                  (* Set first_cycle to False. *)
                  let st := upd (set_first_cycle false) st in
                  mg_loop self n' grid model sfield level cycmax l2_refe l2_init
                    {| l_it := l_it s; l_cyc := l_cyc s;
                       l_l2_last := l_l2_last s; l_l2_prev := l_l2_prev s;
                       l_efield := l_efield s; l_st := st |}
              end
        | (s, stat) => (s, stat)
        end
  end.

(** [multigrid(grid, model, sfield, efield, var, level, new_cycmax)]: the
    field and [var] it leaves, with the calls made.  [fuel] bounds the depth
    of the recursion and the passes of each loop. *)
Fixpoint multigrid (fuel : nat) (grid : TensorMesh) (model : Model)
    (sfield efield : Field) (st : St) (level : nat) (new_cycmax : Z)
  : Field * St * status :=
  match fuel with
  | O => (efield, st, OutOfFuel)
  | S fuel' =>
      let v := var st in
      (* Get cycmax (depends on cycle and on level [as a fct of rdir]). *)
      let cycmax := get_cycmax v level new_cycmax in
      let st := emit [EvMultigrid level (vnC grid) new_cycmax cycmax] st in
      (* Define various l2-norms. *)
      let l2_refe := norm K sfield in
      let l2_last := norm K (residual grid model sfield efield) in
      let l2_init := l2_last in
      let l2_prev := l2_last in
      (* Keep track on the levels during the first cycle, for QC. *)
      let st :=
        if (2 <? verb (cfg v))%Z && v_first_cycle v then
          let st := if level =? 0 then upd (set_level_all (Some [])) st else st in
          upd (fun v => set_level_all
                          (option_map (fun l => l ++ [level]) (v_level_all v)) v) st
        else st in
      (* Initial smoothing (nu_init). *)
      let '(efield, l2_last, st) :=
        if (level =? 0) && (0 <? nu_init (cfg v))%Z then
          let '(e, ev) :=
            smoothing grid model sfield efield (nu_init (cfg v)) (v_ldir v) in
          (e, norm K (residual grid model sfield e), emit ev st)
        else (efield, l2_last, st) in
      (* Start the actual (recursive) multigrid cycle. *)
      let '(s, stat) :=
        mg_loop (multigrid fuel') fuel' grid model sfield level cycmax
          l2_refe l2_init
          {| l_it := 0%Z; l_cyc := 0%Z; l_l2_last := l2_last;
             l_l2_prev := l2_prev; l_efield := efield; l_st := st |} in
      match stat with
      | Done =>   (* Store final error (l2-norm). *)
          (l_efield s, upd (set_l2 (l_l2_last s)) (l_st s), Done)
      | _ => (l_efield s, l_st s, stat)
      end
  end.

(** ** [solver] *)

(** The keyword arguments of [solver] with their defaults; [vnC] is taken
    from the grid. *)
Definition default_params : Params :=
  {| p_verb := 2; p_cycle := Some "F"; p_sslsolver := inl PyFalse;
     p_linerelaxation := PyFalse; p_semicoarsening := PyFalse;
     p_vnC := (0, 0, 0);
     p_tol := (1 # 1000000)%Q; p_maxit := 50;
     p_nu_init := 0; p_nu_pre := 2; p_nu_coarse := 1; p_nu_post := 2;
     p_clevel := (-1) |}.

Definition with_vnC (n : nat * nat * nat) (p : Params) : Params :=
  {| p_verb := p_verb p; p_cycle := p_cycle p; p_sslsolver := p_sslsolver p;
     p_linerelaxation := p_linerelaxation p;
     p_semicoarsening := p_semicoarsening p;
     p_vnC := n;
     p_tol := p_tol p; p_maxit := p_maxit p;
     p_nu_init := p_nu_init p; p_nu_pre := p_nu_pre p;
     p_nu_coarse := p_nu_coarse p; p_nu_post := p_nu_post p;
     p_clevel := p_clevel p |}.

(** What a call of [solver] leaves behind: the value it returns ([None]
    when nothing is returned), the contents of the caller's [efield] array
    after the call (when one was passed), [var] and the calls made. *)
Record Outcome : Type := {
  returned : option Field;
  callers_efield : option Field;
  final : St;
  finished : status
}.

(** The nested function [amatvec]. *)
Definition amatvec (grid : TensorMesh) (model : Model) (efield : Field) : Field :=
  let efield := Field_of grid efield in
  let rfield := Field_zeros grid in
  write_inner rfield
    (amat_x K rfield efield (eta_x model) (eta_y model)
       (eta_z model) (v_mu_r model) (hx grid) (hy grid) (hz grid)).

(** The nested function [mg_matvec]: multigrid as pre-conditioner. *)
Definition mg_matvec (fuel : nat) (grid : TensorMesh) (model : Model)
    (sfield : Field) (st : St) : Field * St * status :=
  let sfield := Field_of grid sfield in
  let '(efield, st, stat) :=
    multigrid fuel grid model sfield (Field_zeros grid) st 0 0%Z in
  match stat with
  | Done => (efield, upd (set_first_cycle false) st, Done)
  | _ => (efield, st, stat)
  end.

(** The nested function [callback]; ['gmres'] hands over the error, the
    other solvers the current solution. *)
Definition callback (grid : TensorMesh) (model : Model) (sfield : Field)
    (x : Field + Q) (st : St) : St :=
  let st := upd (fun v => set_ssl_it (v_ssl_it v + 1)%Z v) st in
  if (2 <? verb (cfg (var st)))%Z then
    match x with
    | inr err => upd (set_l2 err) st
    | inl e =>
        upd (set_l2 (norm K (residual grid model sfield (Field_of grid e)))) st
    end
  else st.

(** The calls of a Krylov run, with [A], [M] and [callback] as [solver]
    defines them; [var] and the log are threaded through. *)
Fixpoint run_krylov (A : Field -> Field)
    (M : option (Field -> St -> Field * St * status))
    (cb : Field + Q -> St -> St) (r : KrylovRun) (st : St)
  : Field * Z * St * status :=
  match r with
  | KReturn x info => (x, info, st, Done)
  | KMatvec v k => run_krylov A M cb (k (A v)) st
  | KPrecond b k =>
      match M with
      | None => run_krylov A M cb (k b) st
      | Some m =>
          let '(e, st, stat) := m b st in
          match stat with
          | Done => run_krylov A M cb (k e) st
          | _ => (e, 0%Z, st, stat)
          end
      end
  | KCallback x k => run_krylov A M cb k (cb x st)
  end.

Definition solver (fuel : nat) (grid : TensorMesh) (model : Model)
    (sfield : Field) (efield : option Field) (p : Params) : result Outcome :=
  (* Solver settings. *)
  v <- MGParameters (with_vnC (vnC grid) p) ;;
  let st := {| var := v; log := [] |} in
  (* Get efield.  [e] is the array the local name [efield] is bound to;
     when the caller passed an array, it is that very array. *)
  let '(e, do_run, do_return, st) :=
    match efield with
    | None => (Field_zeros grid, true, true, st)
    | Some e0 =>
        (* If provided, take the conjugate (in place). *)
        let e := field_conjugate e0 in
        (* Check if it is already sufficiently good. *)
        let l2 := norm K (residual grid model sfield e) in
        (e, negb (Qltb l2 (tol (cfg v) * norm K sfield)%Q), false,
         upd (set_l2 l2) st)
    end in
  let provided := match efield with Some _ => true | None => false end in
  match do_run, sslsolver (cfg v) with
  | true, Some name =>               (* `ssl-solver` is main solver. *)
      let M := match cycle (cfg v) with
               | Some _ => Some (fun b st => mg_matvec fuel grid model b st)
               | None => None
               end in
      let st := emit [EvKrylov name (ssl_maxit (cfg v))
                        (match M with Some _ => true | None => false end)] st in
      (* Solve the system with sslsolver; the name [efield] is bound to
         the array the solver returns. *)
      let '(x, i, st, stat) :=
        run_krylov (amatvec grid model) M (callback grid model sfield)
          (krylov K name sfield e (tol (cfg v)) (ssl_maxit (cfg v))
             (match M with Some _ => true | None => false end)) st in
      (* Cast result to Field instance. *)
      let x := Field_of grid x in
      (* Calculate final l2-norm, if not done in the callback. *)
      let st := if (verb (cfg v) <? 3)%Z
                then upd (set_l2 (norm K (residual grid model sfield x))) st
                else st in
      (* Convergence-checks for sslsolver. *)
      let st :=
        if (i <? 0)%Z
        then emit [EvPrint ("* ERROR   :: Error in " ++ name ++ ".")%string] st
        else if (1 <? p_verb p)%Z then
          if (0 <? i)%Z
          then emit [EvPrint "   > MAX. ITERATION REACHED, NOT CONVERGED"] st
          else emit [EvPrint "   > CONVERGED"] st
        else st in
      (* The conjugate is taken of the array bound to [efield], which is
         the solver's; the caller's array keeps what it held. *)
      ok {| returned :=
              match stat with
              | Done => if do_return then Some (field_conjugate x) else None
              | _ => None
              end;
            callers_efield := if provided then Some e else None;
            final := st; finished := stat |}
  | true, None =>                    (* Multigrid is main solver. *)
      (* Solve the system with multigrid (in place). *)
      let '(e, st, stat) := multigrid fuel grid model sfield e st 0 0%Z in
      (* The conjugate, once multigrid is through. *)
      let e := match stat with Done => field_conjugate e | _ => e end in
      ok {| returned :=
              match stat with
              | Done => if do_return then Some e else None
              | _ => None
              end;
            callers_efield := if provided then Some e else None;
            final := st; finished := stat |}
  | false, _ =>
      let st := if (1 <? p_verb p)%Z
                then emit [EvPrint "   > Provided efield already good enough!"] st
                else st in
      let e := field_conjugate e in
      ok {| returned := if do_return then Some e else None;
            callers_efield := if provided then Some e else None;
            final := st; finished := Done |}
  end.

End WithKernels.

(** ** A small instance

    A 4 x 4 x 4 mesh of unit cells with unit coefficients, and kernels of
    the simplest kind: the operator is the identity on the inner edges, so
    one Gauss-Seidel sweep puts the source into the field, and the Krylov
    solver returns the source after one step; the grid transfers carry
    nothing.  The norm is the sum of the absolute values of
    all real and imaginary parts. *)

Definition ones (sh : nat * nat * nat) : Arr3 :=
  let '(nx, ny, nz) := sh in mk nx ny nz (fun _ _ _ => (1%Q, 0%Q)).

Definition grid444 : TensorMesh :=
  {| hx := [1; 1; 1; 1]%Q; hy := [1; 1; 1; 1]%Q; hz := [1; 1; 1; 1]%Q;
     x0 := (0, 0, 0)%Q |}.

Definition unit_model (g : TensorMesh) : Model :=
  {| case := 0; freq := 1%Q;
     eta_x := ones (vnC g); eta_y := ones (vnC g); eta_z := ones (vnC g);
     v_mu_r := ones (vnC g) |}.

Definition norm1 (f : Field) : Q :=
  fold_right (fun z acc => (Qabs (fst z) + Qabs (snd z) + acc)%Q) 0%Q
    (flat (fx f) ++ flat (fy f) ++ flat (fz f)).

Definition simple_kernels : Kernels :=
  {| amat_x := fun _ e _ _ _ _ _ _ _ => e;
     gauss_seidel := fun _ s _ _ _ _ _ _ _ _ => s;
     gauss_seidel_x := fun _ s _ _ _ _ _ _ _ _ => s;
     gauss_seidel_y := fun _ s _ _ _ _ _ _ _ _ => s;
     gauss_seidel_z := fun _ s _ _ _ _ _ _ _ _ => s;
     restrict_weights := fun _ _ _ _ _ _ => ([], [], []);
     restrict := fun cs _ _ _ _ _ => cs;
     RegularGridInterpolator := fun _ _ _ _ _ _ _ => c0;
     norm := norm1;
     utils_Model := fun g _ _ _ _ => unit_model g;
     krylov := fun _ b _ _ _ _ => KCallback (inl b) (KReturn b 0) |}.

(** A source with one unit entry on an inner x-edge. *)
Definition unit_source (g : TensorMesh) : Field :=
  {| fx := let '(nx, ny, nz) := vnEx g in
           mk nx ny nz (fun i j k =>
             if (i =? 1) && (j =? 1) && (k =? 1) then (1%Q, 0%Q) else c0);
     fy := np_zeros (vnEy g);
     fz := np_zeros (vnEz g) |}.

End Solver.

(* ====================================================================== *)
(** * maps.py: serialisation of the maps, and more of their calculus *)
(* ====================================================================== *)

Module MapsDict.
Import Maps.
Local Open Scope string_scope.

(** A [dict] with string keys and string values, as [to_dict] builds it. *)
Definition dict : Type := list (string * string).

Inductive exn : Type := KeyError (key : string).

(** [d[k]]: the value stored under [k]. *)
Fixpoint getitem {A : Type} (d : list (string * A)) (k : string)
  : exn + A :=
  match d with
  | [] => inl (KeyError k)
  | (k', v) :: rest => if String.eqb k' k then inr v else getitem rest k
  end.

(** [BaseMap.to_dict]: store the map name in a dict for serialization. *)
Definition to_dict (m : BaseMap) : dict :=
  [("name", name m); ("__class__", "BaseMap")].

(** [BaseMap.from_dict]: [MAPLIST['Map'+inp['name']]()]. *)
Definition from_dict (inp : dict) : exn + BaseMap :=
  match getitem inp "name" with
  | inl e => inl e
  | inr n => getitem MAPLIST ("Map" ++ n)
  end.

End MapsDict.

(* ====================================================================== *)
(** * fields.py: the views [fx], [fy], [fz] of a field *)
(* ====================================================================== *)

Module FieldViews.
Local Open Scope list_scope.
Local Open Scope nat_scope.

(** What the views read from the grid: the numbers of x- and z-edges and
    the shapes of the edges. *)
Record TensorMesh : Type := {
  n_edges_x : nat;
  n_edges_z : nat;
  shape_edges_x : nat * nat * nat;
  shape_edges_y : nat * nat * nat;
  shape_edges_z : nat * nat * nat
}.

Inductive exn : Type := ValueError (msg : string).

Section Views.
Variable A : Type.

(** A 3-D array in Fortran order: its shape and its entries, first index
    fastest. *)
Record ndarray3 : Type := { shape : nat * nat * nat; ravel_F : list A }.

(** An index of a slice on an axis of [n] entries, as Python reads it: a
    negative index counts from the end, and the result is clipped to
    [0..n]. *)
Definition slice_index (n : nat) (i : Z) : nat :=
  if (i <? 0)%Z then Z.to_nat (Z.of_nat n + i) else Nat.min (Z.to_nat i) n.

(** [a[start:stop]]; [None] stands for a bound left out. *)
Definition bounds (n : nat) (start stop : option Z) : nat * nat :=
  (match start with None => 0 | Some i => slice_index n i end,
   match stop with None => n | Some i => slice_index n i end).

Definition getslice (a : list A) (start stop : option Z) : list A :=
  let '(lo, hi) := bounds (length a) start stop in
  firstn (hi - lo) (skipn lo a).

(** [a[start:stop] = v] for one-dimensional arrays: [v] has the length of
    the slice, or one entry that is repeated. *)
Definition setslice (a : list A) (start stop : option Z) (v : list A)
  : exn + list A :=
  let '(lo, hi) := bounds (length a) start stop in
  let n := hi - lo in
  let put (w : list A) := firstn lo a ++ w ++ skipn (lo + n) a in
  if length v =? n then inr (put v)
  else match v with
       | [x] => inr (put (repeat x n))
       | _ => inl (ValueError "could not broadcast input array")
       end.

(** [x.reshape(shape, order='F')] of a one-dimensional array. *)
Definition reshape_F (x : list A) (sh : nat * nat * nat) : exn + ndarray3 :=
  let '(nx, ny, nz) := sh in
  if length x =? nx * ny * nz then inr {| shape := sh; ravel_F := x |}
  else inl (ValueError "cannot reshape array").

(** The getters [Field.fx], [Field.fy] and [Field.fz] on the array
    [_field]. *)
Definition fx (grid : TensorMesh) (_field : list A) : exn + ndarray3 :=
  let ix := n_edges_x grid in
  reshape_F (getslice _field None (Some (Z.of_nat ix))) (shape_edges_x grid).

Definition fy (grid : TensorMesh) (_field : list A) : exn + ndarray3 :=
  let '(i0, i1) := (n_edges_x grid, n_edges_z grid) in
  reshape_F (getslice _field (Some (Z.of_nat i0)) (Some (- Z.of_nat i1)%Z))
    (shape_edges_y grid).

Definition fz (grid : TensorMesh) (_field : list A) : exn + ndarray3 :=
  let i0 := n_edges_z grid in
  reshape_F (getslice _field (Some (- Z.of_nat i0)%Z) None)
    (shape_edges_z grid).

(** The setters: the new contents of [_field]. *)
Definition set_fx (grid : TensorMesh) (_field : list A) (v : ndarray3)
  : exn + list A :=
  setslice _field None (Some (Z.of_nat (n_edges_x grid))) (ravel_F v).

Definition set_fy (grid : TensorMesh) (_field : list A) (v : ndarray3)
  : exn + list A :=
  setslice _field (Some (Z.of_nat (n_edges_x grid)))
    (Some (- Z.of_nat (n_edges_z grid))%Z) (ravel_F v).

Definition set_fz (grid : TensorMesh) (_field : list A) (v : ndarray3)
  : exn + list A :=
  setslice _field (Some (- Z.of_nat (n_edges_z grid))%Z) None (ravel_F v).

End Views.

Arguments shape {A} _.
Arguments ravel_F {A} _.
Arguments getslice {A} _ _ _.
Arguments setslice {A} _ _ _ _.
Arguments reshape_F {A} _ _.
Arguments fx {A} _ _.
Arguments fy {A} _ _.
Arguments fz {A} _ _.
Arguments set_fx {A} _ _ _.
Arguments set_fy {A} _ _ _.
Arguments set_fz {A} _ _ _.

End FieldViews.

(* ====================================================================== *)
(** * maps.py: the volume averaging *)
(* ====================================================================== *)

Module VolumeAverage.
Local Open Scope list_scope.
Local Open Scope Q_scope.

Inductive exn : Type := ValueError (msg : string) | IndexError.

(** [np.unique]: the sorted values, each once. *)
Fixpoint insert (x : Q) (l : list Q) : list Q :=
  match l with
  | [] => [x]
  | y :: t => if Qle_bool x y then x :: l else y :: insert x t
  end.

Definition np_sort (l : list Q) : list Q := fold_right insert [] l.

Fixpoint dedup (l : list Q) : list Q :=
  match l with
  | x :: ((y :: _) as t) => if Qeq_bool x y then dedup t else x :: dedup t
  | _ => l
  end.

Definition np_unique (l : list Q) : list Q := dedup (np_sort l).

(** [while i < n-1 and center >= x[i]: i += 1]; the loop makes fewer than
    [len(x)] steps. *)
Fixpoint advance (steps : nat) (x : list Q) (center : Q) (i : Z) : Z :=
  match steps with
  | O => i
  | S steps' =>
      if (i <? Z.of_nat (length x) - 1)%Z &&
         Qle_bool (nth (Z.to_nat i) x 0) center
      then advance steps' x center (i + 1)%Z
      else i
  end.

(** The body of [for i in range(nh)], over the pairs [xs[i], xs[i+1]];
    an entry is [(hs[ii], ix1[ii], ix2[ii])]. *)
Fixpoint weights_loop (x1 x2 xs : list Q) (i1 i2 : Z) : list (Q * Z * Z) :=
  match xs with
  | u :: ((v :: _) as t) =>
      let center := (1 # 2) * (u + v) in
      if Qle_bool (hd 0 x2) center && Qle_bool center (last x2 0) then
        let i1 := advance (length x1) x1 center i1 in
        let i2 := advance (length x2) x2 center i2 in
        (v - u,
         Z.min (Z.max (i1 - 1) 0) (Z.of_nat (length x1) - 1),
         Z.min (Z.max (i2 - 1) 0) (Z.of_nat (length x2) - 1))
          :: weights_loop x1 x2 t i1 i2
      else weights_loop x1 x2 t i1 i2
  | _ => []
  end.

(** [_volume_average_weights(x1, x2)]: the weights [hs] and the indices
    [ix1], [ix2].  Without any edge, [np.empty(-1)] fails; with an empty
    [x2] the first pass of the loop reads [x2[0]] (Python raises; compiled
    by numba the read is unchecked). *)
Definition _volume_average_weights (x1 x2 : list Q)
  : exn + (list Q * list Z * list Z) :=
  let xs := np_unique (x1 ++ x2) in
  match xs with
  | [] => inl (ValueError "negative dimensions are not allowed")
  | [_] => inr ([], [], [])
  | _ =>
      match x2 with
      | [] => inl IndexError
      | _ =>
          let w := weights_loop x1 x2 xs 0 0 in
          inr (map (fun e => fst (fst e)) w,
               map (fun e => snd (fst e)) w,
               map (fun e => snd e) w)
      end
  end.

(** ** [interp_volume_average] *)

(** A 3-D array of numbers: its shape and its entries in Fortran order. *)
Definition ndarray : Type := FieldViews.ndarray3 Q.

(** An index on an axis of [n] entries: a negative index counts from the
    end; an index outside the axis is an [IndexError]. *)
Definition axis_index (n : nat) (i : Z) : option nat :=
  if (0 <=? i)%Z && (i <? Z.of_nat n)%Z then Some (Z.to_nat i)
  else if (i <? 0)%Z && (- Z.of_nat n <=? i)%Z
       then Some (Z.to_nat (Z.of_nat n + i))
       else None.

(** Where [a[i, j, k]] is in [a.ravel('F')]. *)
Definition position (a : ndarray) (i j k : Z) : exn + nat :=
  let '(nx, ny, nz) := FieldViews.shape a in
  match axis_index nx i, axis_index ny j, axis_index nz k with
  | Some i', Some j', Some k' => inr (i' + nx * (j' + ny * k'))%nat
  | _, _, _ => inl IndexError
  end.

Fixpoint update (l : list Q) (p : nat) (x : Q) : list Q :=
  match l, p with
  | [], _ => []
  | _ :: t, O => x :: t
  | y :: t, S p' => y :: update t p' x
  end.

(** [a[i, j, k]] *)
Definition getitem (a : ndarray) (i j k : Z) : exn + Q :=
  match position a i j k with
  | inr p => inr (nth p (FieldViews.ravel_F a) 0)
  | inl e => inl e
  end.

(** [a[i, j, k] += q]: the new contents of [a]. *)
Definition iadd (a : ndarray) (i j k : Z) (q : Q) : exn + ndarray :=
  match position a i j k with
  | inr p =>
      inr {| FieldViews.shape := FieldViews.shape a;
             FieldViews.ravel_F :=
               update (FieldViews.ravel_F a) p
                 (nth p (FieldViews.ravel_F a) 0 + q) |}
  | inl e => inl e
  end.

(** [a /= b] for 3-D arrays: an axis of [b] has the length of the axis of
    [a], or the length one and is repeated.  (A zero in [b] gives [inf] or
    [nan] in numpy, which the rationals do not have; the division of [Q]
    gives 0 there.) *)
Definition broadcast (n m i : nat) : option nat :=
  if (m =? n)%nat then Some i else if (m =? 1)%nat then Some 0%nat else None.

Definition idiv (a b : ndarray) : exn + ndarray :=
  let '(nx, ny, nz) := FieldViews.shape a in
  let '(mx, my, mz) := FieldViews.shape b in
  match broadcast nx mx 0, broadcast ny my 0, broadcast nz mz 0 with
  | Some _, Some _, Some _ =>
      inr {| FieldViews.shape := FieldViews.shape a;
             FieldViews.ravel_F :=
               map (fun p =>
                      let i := (p mod nx)%nat in
                      let j := ((p / nx) mod ny)%nat in
                      let k := (p / (nx * ny))%nat in
                      match broadcast nx mx i, broadcast ny my j,
                            broadcast nz mz k with
                      | Some i', Some j', Some k' =>
                          nth p (FieldViews.ravel_F a) 0 /
                          nth (i' + mx * (j' + my * k')) (FieldViews.ravel_F b) 0
                      | _, _, _ => 0
                      end)
                   (seq 0 (length (FieldViews.ravel_F a))) |}
  | _, _, _ => inl (ValueError "operands could not be broadcast together")
  end.

(** [for ix, w_x in enumerate(wx)]; an entry of [wx] is
    [(wx[ix], ix_in[ix], ix_out[ix])].  The loops give the new contents of
    [new_values]; what an [IndexError] leaves in it half-way is not kept. *)
Fixpoint loop_x (values : ndarray) (wx : list (Q * Z * Z)) (w_zy : Q)
    (iyi izi iyo izo : Z) (new_values : ndarray) : exn + ndarray :=
  match wx with
  | [] => inr new_values
  | (w_x, ixi, ixo) :: t =>
      match getitem values ixi iyi izi with
      | inl e => inl e
      | inr v =>
          match iadd new_values ixo iyo izo (w_zy * w_x * v) with
          | inl e => inl e
          | inr new_values' =>
              loop_x values t w_zy iyi izi iyo izo new_values'
          end
      end
  end.

(** [for iy, w_y in enumerate(wy)] *)
Fixpoint loop_y (values : ndarray) (wy wx : list (Q * Z * Z)) (w_z : Q)
    (izi izo : Z) (new_values : ndarray) : exn + ndarray :=
  match wy with
  | [] => inr new_values
  | (w_y, iyi, iyo) :: t =>
      match loop_x values wx (w_z * w_y) iyi izi iyo izo new_values with
      | inl e => inl e
      | inr new_values' => loop_y values t wx w_z izi izo new_values'
      end
  end.

(** [for iz, w_z in enumerate(wz)] *)
Fixpoint loop_z (values : ndarray) (wz wy wx : list (Q * Z * Z))
    (new_values : ndarray) : exn + ndarray :=
  match wz with
  | [] => inr new_values
  | (w_z, izi, izo) :: t =>
      match loop_y values wy wx w_z izi izo new_values with
      | inl e => inl e
      | inr new_values' => loop_z values t wy wx new_values'
      end
  end.

(** The weights with their indices, as the loops read them. *)
Definition entries (w : list Q * list Z * list Z) : list (Q * Z * Z) :=
  combine (combine (fst (fst w)) (snd (fst w))) (snd w).

(** [interp_volume_average(edges_x, edges_y, edges_z, values, new_edges_x,
    new_edges_y, new_edges_z, new_values, new_vol)]: the new contents of
    [new_values]. *)
Definition interp_volume_average (edges_x edges_y edges_z : list Q)
    (values : ndarray) (new_edges_x new_edges_y new_edges_z : list Q)
    (new_values new_vol : ndarray) : exn + ndarray :=
  match _volume_average_weights edges_x new_edges_x with
  | inl e => inl e
  | inr wx =>
  match _volume_average_weights edges_y new_edges_y with
  | inl e => inl e
  | inr wy =>
  match _volume_average_weights edges_z new_edges_z with
  | inl e => inl e
  | inr wz =>
      match loop_z values (entries wz) (entries wy) (entries wx)
              new_values with
      | inl e => inl e
      | inr new_values' => idiv new_values' new_vol
      end
  end end end.

End VolumeAverage.

(* ====================================================================== *)
(** * Arrays: indexing and sums *)
(* ====================================================================== *)

Module ArrayFacts.
Import Solver.
Local Open Scope list_scope.
Local Open Scope nat_scope.

(** Addition of rationals is associative and commutative on the nose, not
    only up to [Qeq]. *)
Lemma Qplus_assoc_eq (x y z : Q) : (x + (y + z) = (x + y) + z)%Q.
Proof.
  destruct x as [a b], y as [c d], z as [e f]. unfold Qplus; simpl.
  f_equal.
  - rewrite !Pos2Z.inj_mul. ring.
  - apply Pos.mul_assoc.
Qed.

Lemma Qplus_comm_eq (x y : Q) : (x + y = y + x)%Q.
Proof.
  destruct x as [a b], y as [c d]. unfold Qplus; simpl.
  f_equal; [ring | apply Pos.mul_comm].
Qed.

Lemma Qplus_0_r_eq (x : Q) : (x + 0 = x)%Q.
Proof.
  destruct x as [a b]. unfold Qplus; simpl. f_equal.
  - ring.
  - apply Pos.mul_1_r.
Qed.

Lemma Cadd_assoc (x y z : C) : Cadd x (Cadd y z) = Cadd (Cadd x y) z.
Proof. unfold Cadd; simpl. f_equal; apply Qplus_assoc_eq. Qed.

Lemma Cadd_comm (x y : C) : Cadd x y = Cadd y x.
Proof. unfold Cadd. f_equal; apply Qplus_comm_eq. Qed.

Lemma Cadd_0_r (x : C) : Cadd x c0 = x.
Proof. destruct x. unfold Cadd, c0; simpl. f_equal; apply Qplus_0_r_eq. Qed.

Lemma Cadd_0_l (x : C) : Cadd c0 x = x.
Proof. rewrite Cadd_comm. apply Cadd_0_r. Qed.

Lemma Cadd_swap (a b c d : C) :
  Cadd (Cadd a b) (Cadd c d) = Cadd (Cadd a c) (Cadd b d).
Proof.
  rewrite <- (Cadd_assoc a b), (Cadd_assoc b c d), (Cadd_comm b c).
  now rewrite <- (Cadd_assoc c b d), Cadd_assoc.
Qed.

(** *** Index arithmetic of the first-index-fastest layout *)

Lemma decode_i (nx ny i j k : nat) :
  i < nx -> (i + nx * (j + ny * k)) mod nx = i.
Proof.
  intros H. replace (i + nx * (j + ny * k)) with (i + (j + ny * k) * nx) by lia.
  rewrite Nat.Div0.mod_add. now apply Nat.mod_small.
Qed.

Lemma decode_jk (nx ny i j k : nat) :
  i < nx -> (i + nx * (j + ny * k)) / nx = j + ny * k.
Proof.
  intros H. replace (i + nx * (j + ny * k)) with (i + (j + ny * k) * nx) by lia.
  rewrite Nat.div_add by lia. rewrite Nat.div_small by lia. lia.
Qed.

Lemma decode_j (ny j k : nat) : j < ny -> (j + ny * k) mod ny = j.
Proof.
  intros H. replace (j + ny * k) with (j + k * ny) by lia.
  rewrite Nat.Div0.mod_add. now apply Nat.mod_small.
Qed.

Lemma decode_k (nx ny i j k : nat) :
  i < nx -> j < ny -> (i + nx * (j + ny * k)) / (nx * ny) = k.
Proof.
  intros Hi Hj. rewrite <- Nat.Div0.div_div. rewrite decode_jk by assumption.
  replace (j + ny * k) with (j + k * ny) by lia.
  rewrite Nat.div_add by lia. rewrite Nat.div_small by lia. lia.
Qed.

Lemma index_bound (nx ny nz i j k : nat) :
  i < nx -> j < ny -> k < nz -> i + nx * (j + ny * k) < nx * ny * nz.
Proof.
  intros Hi Hj Hk.
  assert (H1 : j + ny * k < ny * nz).
  { apply Nat.lt_le_trans with (ny * (k + 1)); [lia |].
    apply Nat.mul_le_mono_l. lia. }
  apply Nat.lt_le_trans with (nx * (j + ny * k + 1)); [lia |].
  rewrite <- Nat.mul_assoc. apply Nat.mul_le_mono_l. lia.
Qed.

Lemma encode_decode (nx ny n : nat) :
  n mod nx + nx * ((n / nx) mod ny + ny * (n / (nx * ny))) = n.
Proof.
  rewrite <- Nat.Div0.div_div.
  rewrite (Nat.add_comm ((n / nx) mod ny)).
  rewrite <- (Nat.div_mod_eq (n / nx) ny).
  rewrite Nat.add_comm. symmetry. apply Nat.div_mod_eq.
Qed.

Lemma shape_mk (nx ny nz : nat) (f : nat -> nat -> nat -> C) :
  shape (mk nx ny nz f) = (nx, ny, nz).
Proof. reflexivity. Qed.

Lemma wf_mk (nx ny nz : nat) (f : nat -> nat -> nat -> C) : wf (mk nx ny nz f).
Proof. unfold wf, mk; simpl. now rewrite length_map, length_seq. Qed.

Lemma get_mk (nx ny nz : nat) (f : nat -> nat -> nat -> C) (i j k : nat) :
  i < nx -> j < ny -> k < nz -> get (mk nx ny nz f) i j k = f i j k.
Proof.
  intros Hi Hj Hk. unfold get, mk; simpl.
  pose proof (index_bound nx ny nz i j k Hi Hj Hk) as Hb.
  rewrite nth_indep with (d' := f (0 mod nx) ((0 / nx) mod ny) (0 / (nx * ny)))
    by (rewrite length_map, length_seq; exact Hb).
  rewrite map_nth with (f := fun n => f (n mod nx) ((n / nx) mod ny) (n / (nx * ny))).
  rewrite seq_nth by exact Hb. simpl.
  rewrite decode_i, decode_jk, decode_k, decode_j by assumption. reflexivity.
Qed.

(** An array with as many entries as its shape says is rebuilt from its
    entries. *)
Lemma mk_get (a : Arr3) :
  wf a -> let '(nx, ny, nz) := shape a in mk nx ny nz (get a) = a.
Proof.
  destruct a as [[[nx ny] nz] l]. unfold wf, mk, get; simpl. intros Hl.
  f_equal. rewrite <- Hl.
  apply nth_ext with (d := c0) (d' := c0).
  - now rewrite length_map, length_seq.
  - intros n Hn. rewrite length_map, length_seq in Hn.
    rewrite nth_indep with (d' := (fun n => nth (n mod nx + nx * ((n / nx) mod ny + ny * (n / (nx * ny)))) l c0) 0)
      by (now rewrite length_map, length_seq).
    rewrite map_nth with (f := fun n => nth (n mod nx + nx * ((n / nx) mod ny + ny * (n / (nx * ny)))) l c0).
    rewrite seq_nth by exact Hn. simpl. now rewrite encode_decode.
Qed.

(** *** Finite sums *)

(** The sum of [f 0 .. f (n-1)]. *)
Definition sumn (n : nat) (f : nat -> C) : C :=
  fold_right Cadd c0 (map f (seq 0 n)).

Lemma sum_app (l1 l2 : list C) :
  fold_right Cadd c0 (l1 ++ l2) = Cadd (fold_right Cadd c0 l1) (fold_right Cadd c0 l2).
Proof.
  induction l1 as [| x l1 IH]; simpl.
  - now rewrite Cadd_0_l.
  - now rewrite IH, Cadd_assoc.
Qed.

Lemma sumn_S (n : nat) (f : nat -> C) : sumn (S n) f = Cadd (sumn n f) (f n).
Proof.
  unfold sumn. rewrite seq_S, map_app, sum_app. simpl. now rewrite Cadd_0_r.
Qed.

Lemma sumn_ext (n : nat) (f g : nat -> C) :
  (forall i, i < n -> f i = g i) -> sumn n f = sumn n g.
Proof.
  induction n as [| n IH]; intros H.
  - reflexivity.
  - rewrite !sumn_S, IH, H by auto with arith. reflexivity.
Qed.

Lemma sumn_add (n : nat) (f g : nat -> C) :
  sumn n (fun i => Cadd (f i) (g i)) = Cadd (sumn n f) (sumn n g).
Proof.
  induction n as [| n IH].
  - unfold sumn; simpl. now rewrite Cadd_0_l.
  - rewrite !sumn_S, IH. apply Cadd_swap.
Qed.

Lemma sumn_zero (n : nat) : sumn n (fun _ => c0) = c0.
Proof.
  induction n as [| n IH]; [reflexivity |].
  now rewrite sumn_S, IH, Cadd_0_l.
Qed.

Lemma sumn_swap (n m : nat) (f : nat -> nat -> C) :
  sumn n (fun i => sumn m (fun j => f i j)) =
  sumn m (fun j => sumn n (fun i => f i j)).
Proof.
  induction n as [| n IH].
  - symmetry. exact (sumn_zero m).
  - rewrite sumn_S, IH, <- sumn_add. apply sumn_ext. intros j _.
    now rewrite sumn_S.
Qed.

Lemma seq_from (s m : nat) : seq s m = map (fun r => r + s) (seq 0 m).
Proof.
  revert s. induction m as [| m IH]; intros s; [reflexivity |].
  simpl. f_equal. rewrite <- (seq_shift m 0), map_map, IH.
  apply map_ext. intros r. lia.
Qed.

(** A sum over [m * n] indices, by blocks of [m]. *)
Lemma sumn_mul (m n : nat) (f : nat -> C) :
  sumn (m * n) f = sumn n (fun q => sumn m (fun r => f (r + m * q))).
Proof.
  induction n as [| n IH].
  - now rewrite Nat.mul_0_r.
  - rewrite sumn_S, <- IH.
    replace (m * S n) with (m * n + m) by lia.
    unfold sumn at 1. rewrite seq_app, map_app, sum_app. f_equal.
    simpl. unfold sumn. now rewrite (seq_from (m * n) m), map_map.
Qed.

(** A sum over an even number of indices, two by two. *)
Lemma sumn_pairs (n : nat) (f : nat -> C) :
  sumn (2 * n) f = sumn n (fun i => Cadd (f (2 * i)) (f (2 * i + 1))).
Proof.
  rewrite sumn_mul. apply sumn_ext. intros i _.
  unfold sumn; simpl. rewrite Cadd_0_r. do 2 f_equal; lia.
Qed.

(** The sum of the entries of an array, axis by axis. *)
Definition sum3 (nx ny nz : nat) (f : nat -> nat -> nat -> C) : C :=
  sumn nz (fun k => sumn ny (fun j => sumn nx (fun i => f i j k))).

Lemma asum_mk (nx ny nz : nat) (f : nat -> nat -> nat -> C) :
  asum (mk nx ny nz f) = sum3 nx ny nz f.
Proof.
  unfold asum, mk; simpl. fold (sumn (nx * ny * nz)
    (fun n => f (n mod nx) ((n / nx) mod ny) (n / (nx * ny)))).
  rewrite sumn_mul. unfold sum3. apply sumn_ext. intros k Hk.
  rewrite sumn_mul. apply sumn_ext. intros j Hj.
  apply sumn_ext. intros i Hi.
  replace (i + nx * j + nx * ny * k) with (i + nx * (j + ny * k)) by lia.
  now rewrite decode_i, decode_jk, decode_k, decode_j.
Qed.

Lemma asum_sum3 (a : Arr3) :
  wf a -> let '(nx, ny, nz) := shape a in asum a = sum3 nx ny nz (get a).
Proof.
  intros H. pose proof (mk_get a H) as E.
  destruct (shape a) as [[nx ny] nz]. rewrite <- E at 1. apply asum_mk.
Qed.

Lemma sum3_ext (nx ny nz : nat) (f g : nat -> nat -> nat -> C) :
  (forall i j k, i < nx -> j < ny -> k < nz -> f i j k = g i j k) ->
  sum3 nx ny nz f = sum3 nx ny nz g.
Proof.
  intros H. unfold sum3.
  apply sumn_ext; intros k Hk. apply sumn_ext; intros j Hj.
  apply sumn_ext; intros i Hi. now apply H.
Qed.

End ArrayFacts.

(* ====================================================================== *)
(** * What [multigrid] leaves untouched *)
(* ====================================================================== *)

Module FrameFacts.
Import Solver.
Local Open Scope list_scope.
Local Open Scope nat_scope.

(** Case analysis on the innermost scrutinee of the goal. *)
Ltac break_inner :=
  match goal with
  | |- context [match ?x with _ => _ end] =>
      lazymatch x with
      | context [match _ with _ => _ end] => fail
      | _ => destruct x eqn:?
      end
  end.

(** A [bind] that returns took the first step and then the second. *)
Lemma bind_ok {A B : Type} (m : result A) (f : A -> result B) (b : B) :
  bind m f = ok b -> exists a, m = ok a /\ f a = ok b.
Proof.
  destruct m as [e | a]; simpl; intros H.
  - discriminate.
  - now exists a.
Qed.

(** The type of the recursive call. *)
Definition mg_call : Type :=
  TensorMesh -> Model -> Field -> Field -> St -> nat -> Z ->
  Field * St * status.

(** [var] keeps its configuration and its directions; only the records of
    the run ([_level_all], [l2], and [it] when [keep_it] is off) change. *)
Definition frame (keep_it : bool) (v v' : Var) : Prop :=
  cfg v' = cfg v /\ vnC_ v' = vnC_ v /\
  v_rdir v' = v_rdir v /\ v_rcycle v' = v_rcycle v /\
  v_ldir v' = v_ldir v /\ v_lcycle v' = v_lcycle v /\
  v_first_cycle v' = v_first_cycle v /\ v_ssl_it v' = v_ssl_it v /\
  (keep_it = true -> v_it v' = v_it v).

Lemma frame_refl (b : bool) (v : Var) : frame b v v.
Proof. repeat split. Qed.

Lemma frame_trans (b : bool) (v1 v2 v3 : Var) :
  frame b v1 v2 -> frame b v2 v3 -> frame b v1 v3.
Proof.
  unfold frame.
  intros (A1 & A2 & A3 & A4 & A5 & A6 & A7 & A8 & A9)
         (B1 & B2 & B3 & B4 & B5 & B6 & B7 & B8 & B9).
  repeat split; try congruence.
  intros Hb. rewrite (B9 Hb). exact (A9 Hb).
Qed.

Lemma frame_weaken (v v' : Var) : frame true v v' -> frame false v v'.
Proof.
  unfold frame. intros H.
  repeat match goal with H : _ /\ _ |- _ => destruct H end.
  repeat split; try assumption. discriminate.
Qed.

Lemma frame_set_l2 (b : bool) (x : Q) (v : Var) : frame b v (set_l2 x v).
Proof. repeat split. Qed.

Lemma frame_set_level_all (b : bool) (x : option (list nat)) (v : Var) :
  frame b v (set_level_all x v).
Proof. repeat split. Qed.

Lemma frame_append_level (b : bool) (level : nat) (v : Var) :
  frame b v (append_level level v).
Proof. unfold append_level. destruct (_ && _); repeat split. Qed.

Lemma frame_set_it (x : Z) (v : Var) : frame false v (set_it x v).
Proof. repeat split. discriminate. Qed.

(** A call that leaves the directions alone below the original grid. *)
Definition framed (self : mg_call) : Prop :=
  forall g m sf e st lv ncm, 0 < lv ->
    frame true (var st) (var (snd (fst (self g m sf e st lv ncm)))).

Ltac solve_frame :=
  repeat match goal with
  | F : frame _ _ _ |- _ => destruct F as (? & ? & ? & ? & ? & ? & ? & ? & ?)
  | H : true = true -> _ |- _ => specialize (H eq_refl)
  end;
  unfold frame, append_level; repeat break_inner; simpl in *;
  repeat split; try congruence; try discriminate.

Lemma cycle_body_frame (K : Kernels) (self : mg_call)
    (grid : TensorMesh) (model : Model) (sfield : Field)
    (level : nat) (cycmax : Z) (s : Loop) :
  framed self ->
  frame (0 <? level) (var (l_st s))
    (var (l_st (fst (cycle_body K self grid model sfield level cycmax s)))).
Proof.
  intros Hself. unfold cycle_body.
  destruct level as [| level]; cbn [Nat.ltb Nat.leb];
  repeat break_inner; simpl;
    repeat match goal with
    | E : self ?g ?m ?sf ?e ?st ?lv ?ncm = (_, _, _) |- _ =>
        let F := fresh "F" in
        pose proof (Hself g m sf e st lv ncm ltac:(lia)) as F; rewrite E in F;
        simpl in F; clear E
    | E : (_, _) = (_, _) |- _ => inversion E; subst; clear E
    end; solve_frame.
Qed.

Lemma mg_loop_frame (K : Kernels) (self : mg_call) (n : nat)
    (grid : TensorMesh) (model : Model) (sfield : Field)
    (level : nat) (cycmax : Z) (l2_refe l2_init : Q) (s : Loop) :
  framed self -> 0 < level ->
  frame true (var (l_st s))
    (var (l_st (fst (mg_loop K self n grid model sfield level cycmax
                       l2_refe l2_init s)))).
Proof.
  intros Hself Hl. revert s. induction n as [| n IH]; intros s; simpl.
  - apply frame_refl.
  - destruct (negb _); [apply frame_refl |].
    pose proof (cycle_body_frame K self grid model sfield level cycmax s Hself) as Hb.
    destruct (cycle_body K self grid model sfield level cycmax s) as [s' stat].
    simpl in Hb. apply Nat.ltb_lt in Hl. rewrite Hl in *.
    destruct stat; try exact Hb.
    eapply frame_trans; [exact Hb |].
    match goal with
    | |- context [mg_loop _ _ _ _ _ _ _ _ _ _ ?x] => exact (IH x)
    end.
Qed.

Lemma mg_loop_frame_eq (K : Kernels) (self : mg_call) (n : nat)
    (grid : TensorMesh) (model : Model) (sfield : Field)
    (level : nat) (cycmax : Z) (l2_refe l2_init : Q) (s s' : Loop)
    (stat : status) :
  framed self -> 0 < level ->
  mg_loop K self n grid model sfield level cycmax l2_refe l2_init s = (s', stat) ->
  frame true (var (l_st s)) (var (l_st s')).
Proof.
  intros Hself Hl E. change s' with (fst (s', stat)). rewrite <- E.
  now apply mg_loop_frame.
Qed.

(** Below the original grid, [multigrid] changes nothing of [var] but
    [_level_all] and [l2]. *)
Lemma multigrid_framed (K : Kernels) (fuel : nat) : framed (multigrid K fuel).
Proof.
  induction fuel as [| fuel IH]; intros g m sf e st lv ncm Hlv.
  - apply frame_refl.
  - simpl.
    assert (E0 : (lv =? 0) = false) by (apply Nat.eqb_neq; lia).
    rewrite E0. cbn [andb].
    repeat break_inner; simpl;
      repeat match goal with
      | E : mg_loop _ _ _ _ _ _ _ _ _ _ _ = (_, _) |- _ =>
          apply mg_loop_frame_eq in E; [simpl in E | exact IH | exact Hlv]
      | E : (_, _) = (_, _) |- _ => inversion E; subst; clear E
      end; solve_frame.
Qed.

End FrameFacts.

(* ====================================================================== *)
(** * Properties of the maps *)
(* ====================================================================== *)

Module MapsFacts.
Import Maps.
Local Open Scope R_scope.

Lemma ln10_pos : 0 < ln 10.
Proof. rewrite <- ln_1. apply ln_increasing; lra. Qed.

Lemma pow10_log10 (x : R) : 0 < x -> pow10 (np_log10 x) = x.
Proof.
  intros Hx. unfold pow10, np_log10, Rpower.
  replace (ln x / ln 10 * ln 10) with (ln x).
  - now apply exp_ln.
  - field. pose proof ln10_pos. lra.
Qed.

Lemma ln_one_over (x : R) : 0 < x -> ln (1 / x) = - ln x.
Proof. intros Hx. unfold Rdiv. rewrite Rmult_1_l. now apply ln_Rinv. Qed.

(** C10.  For each of the six registered maps, [backward] undoes [forward]
    on every strictly positive conductivity. *)
Theorem backward_forward (k : string) (m : BaseMap) (sigma : R) :
  In (k, m) MAPLIST -> 0 < sigma -> backward m (forward m sigma) = sigma.
Proof.
  intros Hin Hs. unfold MAPLIST in Hin. simpl in Hin.
  repeat (destruct Hin as [Hin | Hin];
          [ inversion Hin; subst; clear Hin; simpl | ]);
    try contradiction.
  - reflexivity.
  - now apply pow10_log10.
  - unfold np_exp, np_log. now apply exp_ln.
  - field. lra.
  - unfold pow10, np_log10, Rpower. rewrite ln_one_over by assumption.
    replace (- (- ln sigma / ln 10) * ln 10) with (ln sigma).
    + now apply exp_ln.
    + field. pose proof ln10_pos. lra.
  - unfold np_exp, np_log. rewrite ln_one_over by assumption.
    rewrite Ropp_involutive. now apply exp_ln.
Qed.

Lemma backward_forward_witness :
  backward MapLgResistivity (forward MapLgResistivity 2) = 2.
Proof.
  apply (backward_forward "MapLgResistivity"%string MapLgResistivity 2).
  - simpl. tauto.
  - lra.
Defined.

End MapsFacts.

(* ====================================================================== *)
(** * Properties of the field container *)
(* ====================================================================== *)

Module FieldsFacts.
Import Fields.
Local Open Scope R_scope.

(** C9.  A zero frequency is refused with a [ValueError]; a positive
    frequency gives a complex field with [s = -2 i pi f], a negative one a
    real field with [s = f]. *)
Theorem Field_frequency_sval (g : TensorMesh) (d : option ndarray)
    (dt : option dtype) :
  (exists msg, Field_init g d (Some 0) dt = inl (ValueError msg)) /\
  (forall f, 0 < f ->
     exists F, Field_init g d (Some f) dt = inr F /\
               sval F = Some (Complex (0, - (2 * PI * f))) /\
               nd_dtype (_field F) = complex128) /\
  (forall f, f < 0 ->
     exists F, Field_init g d (Some f) dt = inr F /\
               sval F = Some (Real f) /\
               nd_dtype (_field F) = float64).
Proof.
  split; [| split].
  - unfold Field_init.
    destruct (Rlt_dec 0 0) as [H | _]; [lra |].
    eexists. reflexivity.
  - intros f Hf. unfold Field_init.
    destruct (Rlt_dec 0 f) as [_ | H]; [| lra].
    eexists. split; [reflexivity |]. split.
    + unfold sval. simpl.
      destruct (Rlt_dec f 0) as [H | _]; [lra |].
      unfold Cscale, Cmul, Copp. simpl. do 2 apply f_equal.
      apply f_equal2; ring.
    + destruct d; reflexivity.
  - intros f Hf. unfold Field_init.
    destruct (Rlt_dec 0 f) as [H | _]; [lra |].
    destruct (Rlt_dec f 0) as [_ | H]; [| lra].
    eexists. split; [reflexivity |]. split.
    + unfold sval. simpl.
      destruct (Rlt_dec f 0) as [_ | H]; [reflexivity | lra].
    + destruct d; reflexivity.
Qed.

End FieldsFacts.

(* ====================================================================== *)
(** * Restriction of the model parameters *)
(* ====================================================================== *)

Module RestrFacts.
Import Solver ArrayFacts.
Local Open Scope list_scope.
Local Open Scope nat_scope.

#[local] Instance Cadd_Assoc : Associative eq Cadd.
Proof. intros x y z. apply Cadd_assoc. Qed.
#[local] Instance Cadd_Comm : Commutative eq Cadd.
Proof. intros x y. apply Cadd_comm. Qed.
#[local] Instance Cadd_Unit : Unit eq Cadd c0.
Proof. split; intros x; [apply Cadd_0_l | apply Cadd_0_r]. Qed.
#[local] Instance Cadd_Proper : Proper (eq ==> eq ==> eq) Cadd.
Proof. repeat intro; subst; reflexivity. Qed.

(** The fine cells that make up the coarse cell [(i, j, k)], summed: two
    along every axis whose step is 2, one along the others. *)
Definition block_sum (param : Arr3) (rdir i j k : nat) : C :=
  let '(rx, ry, rz) := steps rdir in
  sumn rz (fun c => sumn ry (fun b => sumn rx (fun a =>
    get param (rx * i + a) (ry * j + b) (rz * k + c)))).

Lemma shape_take (a : Arr3) (sx sy sz : slice) (nx ny nz : nat) :
  shape a = (nx, ny, nz) ->
  shape (take a sx sy sz) = (slice_len sx nx, slice_len sy ny, slice_len sz nz).
Proof. intros H. unfold take. now rewrite H. Qed.

Lemma get_take (a : Arr3) (sx sy sz : slice) (nx ny nz i j k : nat) :
  shape a = (nx, ny, nz) ->
  i < slice_len sx nx -> j < slice_len sy ny -> k < slice_len sz nz ->
  get (take a sx sy sz) i j k =
  get a (slice_idx sx i) (slice_idx sy j) (slice_idx sz k).
Proof.
  intros H Hi Hj Hk. unfold take. rewrite H.
  now rewrite get_mk by assumption.
Qed.

Lemma shape_arr_add (a b : Arr3) : shape (arr_add a b) = shape a.
Proof. unfold arr_add. now destruct (shape a) as [[nx ny] nz]. Qed.

Lemma get_arr_add (a b : Arr3) (nx ny nz i j k : nat) :
  shape a = (nx, ny, nz) -> i < nx -> j < ny -> k < nz ->
  get (arr_add a b) i j k = Cadd (get a i j k) (get b i j k).
Proof.
  intros H Hi Hj Hk. unfold arr_add. rewrite H.
  now rewrite get_mk by assumption.
Qed.

Lemma wf_arr_add (a b : Arr3) : wf (arr_add a b).
Proof. unfold arr_add. destruct (shape a) as [[nx ny] nz]. apply wf_mk. Qed.

(** The shape of [restr param rdir]. *)
Lemma shape_restr (param : Arr3) (rdir nx ny nz : nat) :
  shape param = (nx, ny, nz) ->
  shape (restr param rdir) =
  let '(rx, ry, rz) := steps rdir in (nx / rx, ny / ry, nz / rz).
Proof.
  intros H.
  destruct rdir as [|[|[|[|[|[|[|rdir]]]]]]];
    unfold restr, steps; cbn [Nat.eqb inb existsb orb];
    rewrite ?shape_arr_add, (shape_take _ _ _ _ _ _ _ H); unfold slice_len;
    now rewrite ?Nat.div_1_r.
Qed.

Lemma wf_restr (param : Arr3) (rdir : nat) : wf (restr param rdir).
Proof.
  destruct rdir as [|[|[|[|[|[|[|rdir]]]]]]];
    unfold restr; cbn [Nat.eqb]; apply wf_arr_add.
Qed.

(** Every coarse cell holds the sum of its fine cells. *)
Lemma get_restr (param : Arr3) (rdir nx ny nz i j k : nat) :
  rdir <= 6 -> shape param = (nx, ny, nz) ->
  let '(rx, ry, rz) := steps rdir in
  i < nx / rx -> j < ny / ry -> k < nz / rz ->
  get (restr param rdir) i j k = block_sum param rdir i j k.
Proof.
  intros Hr H.
  destruct rdir as [|[|[|[|[|[|[|rdir]]]]]]]; try lia;
    unfold block_sum, restr, steps; cbn [Nat.eqb inb existsb orb];
    rewrite ?Nat.div_1_r; intros Hi Hj Hk.
  all: repeat first
    [ erewrite get_arr_add;
        [ | rewrite ?shape_arr_add; apply (shape_take _ _ _ _ _ _ _ H)
          | unfold slice_len; assumption | unfold slice_len; assumption
          | unfold slice_len; assumption ]
    | rewrite (get_take _ _ _ _ _ _ _ _ _ _ H) by (unfold slice_len; assumption) ].
  all: unfold sumn; cbn [seq map fold_right slice_idx]; rewrite ?Nat.add_0_r, ?Nat.mul_1_l.
  all: aac_reflexivity.
Qed.

Lemma sumn_blocks (r n : nat) (f : nat -> C) :
  r <> 0 -> n mod r = 0 ->
  sumn n f = sumn (n / r) (fun i => sumn r (fun a => f (r * i + a))).
Proof.
  intros Hr Hn.
  assert (E : n = r * (n / r)).
  { pose proof (Nat.div_mod_eq n r). lia. }
  rewrite E at 1. rewrite sumn_mul. apply sumn_ext. intros i _.
  apply sumn_ext. intros a _. f_equal. lia.
Qed.

Lemma sumn_reorder (n1 n2 n3 n4 n5 n6 : nat)
    (H : nat -> nat -> nat -> nat -> nat -> nat -> C) :
  sumn n1 (fun k => sumn n2 (fun j => sumn n3 (fun i =>
    sumn n4 (fun c => sumn n5 (fun b => sumn n6 (fun a => H k c j b i a)))))) =
  sumn n1 (fun k => sumn n4 (fun c => sumn n2 (fun j =>
    sumn n5 (fun b => sumn n3 (fun i => sumn n6 (fun a => H k c j b i a)))))).
Proof.
  apply sumn_ext. intros k _.
  transitivity (sumn n2 (fun j => sumn n4 (fun c => sumn n3 (fun i =>
    sumn n5 (fun b => sumn n6 (fun a => H k c j b i a)))))).
  { apply sumn_ext. intros j _. apply sumn_swap. }
  rewrite sumn_swap. apply sumn_ext. intros c _.
  apply sumn_ext. intros j _. apply sumn_swap.
Qed.

Lemma steps_cases (rdir : nat) :
  let '(rx, ry, rz) := steps rdir in
  (rx = 1 \/ rx = 2) /\ (ry = 1 \/ ry = 2) /\ (rz = 1 \/ rz = 2).
Proof.
  unfold steps.
  destruct (inb rdir [1; 5; 6]), (inb rdir [2; 4; 6]), (inb rdir [3; 4; 5]);
    auto.
Qed.

(** The sum over the coarse cells of their blocks is the sum over the fine
    cells, when the steps divide the numbers of cells. *)
Lemma sum3_blocks (param : Arr3) (rdir nx ny nz : nat) :
  let '(rx, ry, rz) := steps rdir in
  nx mod rx = 0 -> ny mod ry = 0 -> nz mod rz = 0 ->
  sum3 (nx / rx) (ny / ry) (nz / rz) (block_sum param rdir) =
  sum3 nx ny nz (get param).
Proof.
  unfold block_sum. pose proof (steps_cases rdir) as Hs.
  destruct (steps rdir) as [[rx ry] rz]. destruct Hs as (Hx & Hy & Hz).
  intros Dx Dy Dz. unfold sum3 at 2.
  rewrite (sumn_blocks rz nz) by (assumption || lia).
  transitivity
    (sumn (nz / rz) (fun k => sumn rz (fun c => sumn (ny / ry) (fun j =>
       sumn ry (fun b => sumn (nx / rx) (fun i => sumn rx (fun a =>
         get param (rx * i + a) (ry * j + b) (rz * k + c)))))))).
  - unfold sum3. apply sumn_reorder with
      (H := fun k c j b i a => get param (rx * i + a) (ry * j + b) (rz * k + c)).
  - apply sumn_ext. intros k _. apply sumn_ext. intros c _.
    rewrite (sumn_blocks ry ny) by (assumption || lia).
    apply sumn_ext. intros j _. apply sumn_ext. intros b _.
    now rewrite (sumn_blocks rx nx) by (assumption || lia).
Qed.

(** C7.  For every restriction direction [0..6] and every array of model
    coefficients whose numbers of cells are even along the coarsened axes,
    [restr] gives each coarse cell the sum of the 2, 4 or 8 fine cells that
    make it up, and the sum over the coarse grid is the sum over the fine
    grid. *)
Theorem restr_additive (param : Arr3) (rdir nx ny nz : nat) :
  rdir <= 6 -> wf param -> shape param = (nx, ny, nz) ->
  nx mod fst (fst (steps rdir)) = 0 ->
  ny mod snd (fst (steps rdir)) = 0 ->
  nz mod snd (steps rdir) = 0 ->
  shape (restr param rdir) =
    (nx / fst (fst (steps rdir)), ny / snd (fst (steps rdir)),
     nz / snd (steps rdir)) /\
  (forall i j k,
     i < nx / fst (fst (steps rdir)) ->
     j < ny / snd (fst (steps rdir)) ->
     k < nz / snd (steps rdir) ->
     get (restr param rdir) i j k = block_sum param rdir i j k) /\
  asum (restr param rdir) = asum param.
Proof.
  intros Hr Hwf Hsh Dx Dy Dz.
  pose proof (shape_restr param rdir nx ny nz Hsh) as Hs.
  pose proof (get_restr param rdir nx ny nz) as Hg.
  pose proof (sum3_blocks param rdir nx ny nz) as Hb.
  destruct (steps rdir) as [[rx ry] rz]; simpl fst in *; simpl snd in *.
  split; [exact Hs | split].
  - intros i j k Hi Hj Hk. now apply Hg.
  - pose proof (asum_sum3 (restr param rdir) (wf_restr param rdir)) as E1.
    rewrite Hs in E1. rewrite E1.
    pose proof (asum_sum3 param Hwf) as E2. rewrite Hsh in E2. rewrite E2.
    rewrite <- Hb by assumption.
    apply sum3_ext. intros i j k Hi Hj Hk. now apply Hg.
Qed.

(** A 2 x 2 x 2 array of model coefficients, entries 1 .. 8. *)
Definition eta_222 : Arr3 :=
  {| shape := (2, 2, 2);
     flat := map (fun n => (inject_Z (Z.of_nat n), 0%Q)) (seq 1 8) |}.

Lemma restr_additive_witness :
  shape (restr eta_222 0) = (1, 1, 1) /\
  (forall i j k, i < 1 -> j < 1 -> k < 1 ->
     get (restr eta_222 0) i j k = block_sum eta_222 0 i j k) /\
  asum (restr eta_222 0) = asum eta_222.
Proof.
  apply (restr_additive eta_222 0 2 2 2); try reflexivity.
  lia.
Defined.

End RestrFacts.

(* ====================================================================== *)
(** * The PEC boundary *)
(* ====================================================================== *)

Module PecFacts.
Import Solver ArrayFacts FrameFacts.
Local Open Scope list_scope.
Local Open Scope nat_scope.

(** The entries of [a] on the outer planes of the axes flagged in [ax] are
    zero. *)
Definition zero_on_outer (ax : bool * bool * bool) (a : Arr3) : Prop :=
  forall i j k,
    i < fst (fst (shape a)) -> j < snd (fst (shape a)) -> k < snd (shape a) ->
    on_outer ax (shape a) i j k = true -> get a i j k = c0.

(** All tangential edge components on the six outer faces are zero. *)
Definition PEC (f : Field) : Prop :=
  zero_on_outer tangential_x (fx f) /\
  zero_on_outer tangential_y (fy f) /\
  zero_on_outer tangential_z (fz f).

Lemma zero_outer_pec (ax : bool * bool * bool) (a : Arr3) :
  zero_on_outer ax (zero_outer ax a).
Proof.
  unfold zero_on_outer, zero_outer.
  destruct (shape a) as [[nx ny] nz]. simpl. intros i j k Hi Hj Hk Ho.
  rewrite get_mk by assumption. now rewrite Ho.
Qed.


Lemma shape_keep_outer (ax : bool * bool * bool) (t v : Arr3) :
  shape (keep_outer ax t v) = shape t.
Proof. unfold keep_outer. now destruct (shape t) as [[nx ny] nz]. Qed.



Lemma PEC_ensure_pec (f : Field) : PEC (ensure_pec f).
Proof. repeat split; apply zero_outer_pec. Qed.



Lemma arr_sub_pec (ax : bool * bool * bool) (a b : Arr3) :
  shape b = shape a -> zero_on_outer ax a -> zero_on_outer ax b ->
  zero_on_outer ax (arr_sub a b).
Proof.
  intros Hs Ha Hb i j k. unfold arr_sub.
  specialize (Ha i j k). specialize (Hb i j k). rewrite Hs in Hb.
  destruct (shape a) as [[nx ny] nz]. simpl in *. intros Hi Hj Hk Ho.
  rewrite get_mk by assumption. rewrite Ha, Hb by assumption. reflexivity.
Qed.




Lemma PEC_prolongation (K : Kernels) (grid : TensorMesh) (efield : Field)
    (cgrid : TensorMesh) (cefield : Field) (rdir : nat) (e : Field) :
  prolongation K grid efield cgrid cefield rdir = ok e -> PEC e.
Proof.
  unfold prolongation. intros H.
  repeat match type of H with
  | bind ?m _ = _ => destruct m; simpl in H; [discriminate |]
  end.
  inversion H. apply PEC_ensure_pec.
Qed.







Lemma conjugate_c0 : conjugate c0 = c0.
Proof. reflexivity. Qed.

Lemma get_amap_conjugate (a : Arr3) (i j k : nat) :
  get (amap conjugate a) i j k = conjugate (get a i j k).
Proof.
  unfold get, amap. simpl. destruct (shape a) as [[nx ny] nz].
  rewrite <- conjugate_c0 at 1. apply map_nth.
Qed.

Lemma zero_on_outer_amap_conjugate (ax : bool * bool * bool) (a : Arr3) :
  zero_on_outer ax a -> zero_on_outer ax (amap conjugate a).
Proof.
  intros H i j k Hi Hj Hk Ho. rewrite get_amap_conjugate.
  rewrite (H i j k Hi Hj Hk Ho). apply conjugate_c0.
Qed.

(** Conjugation, as [solver] applies it on entry and on exit, keeps the
    boundary. *)
Lemma PEC_field_conjugate (f : Field) : PEC f -> PEC (field_conjugate f).
Proof.
  intros (Hx & Hy & Hz).
  repeat split; now apply zero_on_outer_amap_conjugate.
Qed.


(** The coarse grid of the 4 x 4 x 4 grid, coarsened along all axes. *)
Definition grid222 : TensorMesh :=
  fst (fst (fst (restriction simple_kernels grid444 (unit_model grid444)
                   (unit_source grid444) (unit_source grid444) 0))).


(** Prolongation from the coarse grid back to the 4 x 4 x 4 grid returns:
    every plane it adds to lies inside the fine field. *)
Example prolongation_returns :
  exists e,
    prolongation simple_kernels grid444 (Field_zeros grid444) grid222
      (Field_zeros grid222) 0 = ok e.
Proof. eexists. vm_compute. reflexivity. Qed.

End PecFacts.

(* ====================================================================== *)
(** * Directions of line relaxation and of coarsening *)
(* ====================================================================== *)

Module DirectionFacts.
Import Solver FrameFacts.
Local Open Scope list_scope.
Local Open Scope nat_scope.

(** ** Line relaxation *)

(** The axes an [ldir] asks line relaxation for, as the docstring of
    [solver] lists them: 1, 2, 3 are x, y, z; 4 is y and z; 5 is x and z;
    6 is x and y; 7 is all three. *)
Definition ldir_axes (ldir : nat) : bool * bool * bool :=
  match ldir with
  | 1 => (true, false, false)
  | 2 => (false, true, false)
  | 3 => (false, false, true)
  | 4 => (false, true, true)
  | 5 => (true, false, true)
  | 6 => (true, true, false)
  | 7 => (true, true, true)
  | _ => (false, false, false)
  end.

Definition kinds (ev : list event) : list gs_kind :=
  flat_map (fun e => match e with EvGaussSeidel k _ _ => [k] | _ => [] end) ev.

(** The kernels [smoothing] calls are those of the requested axes that
    have more than two cells ... or the pointwise one when none is left. *)
Lemma smoothing_kinds (K : Kernels) (grid : TensorMesh) (model : Model)
    (sfield efield : Field) (nu : Z) (ldir : nat) :
  ldir <= 7 ->
  let '(ax, ay, az) := ldir_axes ldir in
  let lx := ax && negb (nCx grid =? 2) in
  let ly := ay && negb (nCy grid =? 2) in
  let lz := az && negb (nCz grid =? 2) in
  kinds (snd (smoothing K grid model sfield efield nu ldir)) =
    (if negb (lx || ly || lz) then [GS] else []) ++
    (if lx then [GSx] else []) ++ (if ly then [GSy] else []) ++
    (if lz then [GSz] else []).
Proof.
  intros H. unfold smoothing.
  destruct (nCx grid =? 2), (nCy grid =? 2), (nCz grid =? 2);
    do 8 (destruct ldir as [| ldir]; [reflexivity |]); exfalso; lia.
Qed.

(** ** Coarsening *)

(** A number of cells that can be halved: even and not smaller than 3. *)
Definition halvable (n : nat) : bool := (n mod 2 =? 0) && (2 <? n).

Lemma halvings_loop_acc (s n c : nat) :
  halvings_loop s n c = c + halvings_loop s n 0.
Proof.
  revert n c. induction s as [| s IH]; intros n c; cbn [halvings_loop]; [lia |].
  destruct ((n mod 2 =? 0) && (2 <? n)); [| lia].
  rewrite (IH _ (c + 1)), (IH _ (0 + 1)). lia.
Qed.

Lemma halvings_loop_enough (s s' n : nat) :
  n <= s -> n <= s' -> halvings_loop s n 0 = halvings_loop s' n 0.
Proof.
  revert s' n. induction s as [| s IH]; intros s' n Hs Hs'.
  - assert (n = 0) by lia. subst n. destruct s'; reflexivity.
  - destruct s' as [| s'].
    + assert (n = 0) by lia. subst n. reflexivity.
    + cbn [halvings_loop].
      destruct ((n mod 2 =? 0) && (2 <? n)) eqn:E; [| reflexivity].
      apply andb_true_iff in E. destruct E as [_ E]. apply Nat.ltb_lt in E.
      rewrite (halvings_loop_acc s), (halvings_loop_acc s').
      f_equal. 
      assert (n / 2 < n) by (apply Nat.div_lt; lia).
      apply IH; lia.
Qed.

Lemma halvings_halvable (n : nat) :
  halvable n = true -> halvings n = S (halvings (n / 2)).
Proof.
  intros H. unfold halvings. destruct n as [| n]; [discriminate |].
  cbn [halvings_loop]. unfold halvable in H. rewrite H.
  rewrite halvings_loop_acc. cbn [Nat.add]. f_equal.
  apply andb_true_iff in H. destruct H as [_ H]. apply Nat.ltb_lt in H.
  assert (S n / 2 < S n) by (apply Nat.div_lt; lia).
  apply halvings_loop_enough; lia.
Qed.

Lemma halvings_not_halvable (n : nat) :
  halvable n = false -> halvings n = 0.
Proof.
  intros H. unfold halvings. destruct n as [| n]; [reflexivity |].
  cbn [halvings_loop]. unfold halvable in H. now rewrite H.
Qed.

Lemma halvings_pos (n : nat) : 0 < halvings n -> halvable n = true.
Proof.
  intros H. destruct (halvable n) eqn:E; [reflexivity |].
  apply halvings_not_halvable in E. lia.
Qed.


(** *** What [MGParameters] guarantees *)

Definition le3 (d : nat) : Prop := d <= 3.

(** [clevel] holds, for each semicoarsening direction, the biggest of the
    levels of the axes that direction lets coarsen, none of them beyond the
    number of halvings of its axis; [rdir] and its cycle stay within 0..3. *)
Definition good_var (v : Var) : Prop :=
  (exists c0 c1 c2,
     clevel (cfg v) =
       [max3 c0 c1 c2; Nat.max c1 c2; Nat.max c0 c2; Nat.max c0 c1] /\
     c0 <= halvings (fst (fst (vnC_ v))) /\
     c1 <= halvings (snd (fst (vnC_ v))) /\
     c2 <= halvings (snd (vnC_ v))) /\
  v_rdir v <= 3 /\
  match v_rcycle v with Some c => Forall le3 c | None => True end.


Lemma directions_le3 (what : string) (dflt : list nat) (x : flag)
    (c : list nat) (b : bool) :
  Forall le3 dflt -> directions what 3 dflt x = ok (c, b) -> Forall le3 c.
Proof.
  intros Hd. unfold directions. destruct x as [| | n].
  - intros H. inversion H. now subst.
  - intros H. inversion H. subst. repeat constructor.
  - destruct ((0 <=? n)%Z && (n <=? Z.of_nat 3)%Z) eqn:E.
    + intros H. inversion H. subst. constructor; [| constructor].
      apply andb_true_iff in E. destruct E as [E1 E2].
      apply Z.leb_le in E1, E2. unfold le3. lia.
    + destruct (existsb (fun d => 3 <? d) (str_digits n)) eqn:Ex; [discriminate |].
      intros H. inversion H. subst.
      apply Forall_forall. intros d Hin. unfold le3.
      destruct (3 <? d) eqn:Ed; [| apply Nat.ltb_ge in Ed; exact Ed].
      assert (existsb (fun d => 3 <? d) (str_digits n) = true).
      { apply existsb_exists. now exists d. }
      congruence.
Qed.

Lemma next_le3 (c : list nat) :
  Forall le3 c -> le3 (fst (next c)) /\ Forall le3 (snd (next c)).
Proof.
  intros H. destruct c as [| x t]; simpl.
  - split; [unfold le3; lia | constructor].
  - inversion H; subst. split; [assumption |].
    apply Forall_app. split; [assumption | now constructor].
Qed.

Lemma nth0_le3 (c : list nat) : Forall le3 c -> le3 (nth 0 c 0).
Proof.
  intros H. destruct c as [| x t]; simpl; [unfold le3; lia |].
  now inversion H.
Qed.

Lemma max_level_levels (vnC : nat * nat * nat) (olevel : Z)
    (cl : list nat) (pc : nat * (nat * nat * nat) * (nat * nat * nat) * bool) :
  max_level vnC olevel = ok (cl, pc) ->
  exists c0 c1 c2,
    cl = [max3 c0 c1 c2; Nat.max c1 c2; Nat.max c0 c2; Nat.max c0 c1] /\
    c0 <= halvings (fst (fst vnC)) /\
    c1 <= halvings (snd (fst vnC)) /\
    c2 <= halvings (snd vnC).
Proof.
  destruct vnC as [[n0 n1] n2]. unfold max_level.
  destruct ((n0 <? 2) || (n1 <? 2) || (n2 <? 2)); [discriminate |].
  intros H. inversion H; subst; clear H.
  do 3 eexists. split; [reflexivity |]. simpl.
  repeat split;
    match goal with
    | |- (if ?b then _ else _) <= _ =>
        destruct b eqn:E; [| lia];
        apply andb_true_iff in E; destruct E as [E1 E2];
        apply Z.ltb_lt in E1, E2; lia
    end.
Qed.

Lemma MGParameters_good (p : Params) (v : Var) :
  MGParameters p = ok v -> good_var v /\ vnC_ v = p_vnC p.
Proof.
  unfold MGParameters. intros H.
  apply bind_ok in H. destruct H as [[rcycle rc] [Hr H]].
  apply directions_le3 in Hr; [| repeat constructor; unfold le3; lia].
  pose proof (next_le3 rcycle Hr) as [Hn1 Hn2].
  pose proof (nth0_le3 rcycle Hr) as Hn0.
  destruct rc; cbv zeta beta iota in H;
  (apply bind_ok in H; destruct H as [[lcycle lc] [Hl H]];
   destruct lc; cbv zeta beta iota in H;
   (apply bind_ok in H; destruct H as [ssl [Hs H]];
    apply bind_ok in H; destruct H as [[] [Hc H]];
    apply bind_ok in H; destruct H as [[] [Hcs H]];
    apply bind_ok in H; destruct H as [[cl pc] [Hm H]];
    apply max_level_levels in Hm;
    inversion H; subst; clear H; unfold good_var; simpl;
    repeat split; assumption)).
Qed.

(** *** The numbers of cells on the way down *)

Lemma length_nodes (o : Q) (h : list Q) : length (nodes o h) = S (length h).
Proof.
  revert o. induction h as [| w t IH]; intros o; simpl; [reflexivity |].
  now rewrite IH.
Qed.

Lemma length_np_diff (l : list Q) : length (np_diff l) = length l - 1.
Proof.
  induction l as [| x t IH]; [reflexivity |].
  destruct t as [| y t']; [reflexivity |].
  change (np_diff (x :: y :: t')) with ((y - x)%Q :: np_diff (y :: t')).
  simpl length in *. rewrite IH. lia.
Qed.

Lemma length_every_second (l : list Q) :
  length (every_second l) = (length l + 1) / 2.
Proof.
  assert (H : forall n (l : list Q), length l <= n ->
                length (every_second l) = (length l + 1) / 2).
  { clear l. induction n as [| n IH]; intros l Hl.
    - destruct l; [reflexivity | simpl in Hl; lia].
    - destruct l as [| x [| y t]]; [reflexivity | reflexivity |].
      simpl length in *. rewrite IH by lia.
      replace (S (S (length t)) + 1) with ((length t + 1) + 1 * 2) by lia.
      rewrite Nat.div_add by lia. lia. }
  now apply (H (length l)).
Qed.

Lemma length_coarse (r : nat) (o : Q) (h : list Q) :
  r = 1 \/ r = 2 ->
  length (np_diff (stride r (nodes o h))) = length h / r.
Proof.
  intros [-> | ->]; unfold stride; simpl Nat.eqb; cbv iota.
  - rewrite length_np_diff, length_nodes, Nat.div_1_r. lia.
  - rewrite length_np_diff, length_every_second, length_nodes.
    replace (S (length h) + 1) with (length h + 1 * 2) by lia.
    rewrite Nat.div_add by lia. lia.
Qed.

Lemma steps_one_or_two (rdir : nat) :
  (fst (fst (steps rdir)) = 1 \/ fst (fst (steps rdir)) = 2) /\
  (snd (fst (steps rdir)) = 1 \/ snd (fst (steps rdir)) = 2) /\
  (snd (steps rdir) = 1 \/ snd (steps rdir) = 2).
Proof.
  unfold steps.
  destruct (inb rdir [1; 5; 6]), (inb rdir [2; 4; 6]), (inb rdir [3; 4; 5]);
    simpl; auto.
Qed.

(** The coarse grid of [restriction] has the cells of the fine grid,
    divided by the steps. *)
Lemma vnC_restriction (K : Kernels) (grid : TensorMesh) (model : Model)
    (sfield res : Field) (rdir : nat) :
  vnC (fst (fst (fst (restriction K grid model sfield res rdir)))) =
  (nCx grid / fst (fst (steps rdir)), nCy grid / snd (fst (steps rdir)),
   nCz grid / snd (steps rdir)).
Proof.
  unfold restriction. pose proof (steps_one_or_two rdir) as (Hx & Hy & Hz).
  destruct (steps rdir) as [[rx ry] rz]. simpl in *.
  unfold vnC, nCx, nCy, nCz, vectorNx, vectorNy, vectorNz. simpl.
  now rewrite !length_coarse by assumption.
Qed.


(** The axes a restriction direction halves may be halved. *)
Definition good_steps (n : nat * nat * nat) (rdir : nat) : Prop :=
  (fst (fst (steps rdir)) = 2 -> halvable (fst (fst n)) = true) /\
  (snd (fst (steps rdir)) = 2 -> halvable (snd (fst n)) = true) /\
  (snd (steps rdir) = 2 -> halvable (snd n) = true).

(** On level [level], an axis that the semicoarsening direction lets
    coarsen has lost [level] of its halvings, or all of them. *)
Definition axis_ok (free : bool) (n0 n level : nat) : Prop :=
  free = true -> halvings n = halvings n0 - level.

Definition on_level (v : Var) (grid : TensorMesh) (level : nat) : Prop :=
  level <= clevel_rdir v /\
  axis_ok (negb (v_rdir v =? 1)) (fst (fst (vnC_ v))) (nCx grid) level /\
  axis_ok (negb (v_rdir v =? 2)) (snd (fst (vnC_ v))) (nCy grid) level /\
  axis_ok (negb (v_rdir v =? 3)) (snd (vnC_ v)) (nCz grid) level.

Lemma on_level_0 (v : Var) (grid : TensorMesh) :
  vnC grid = vnC_ v -> on_level v grid 0.
Proof.
  intros H. unfold on_level, axis_ok. rewrite <- H. simpl.
  repeat split; try lia; intros _; lia.
Qed.

Lemma halvable_blocked (n : nat) :
  negb (n mod 2 =? 0) || (n <? 3) = negb (halvable n).
Proof.
  unfold halvable. destruct (n mod 2 =? 0); simpl; [| reflexivity].
  destruct (n <? 3) eqn:E1, (2 <? n) eqn:E2; try reflexivity.
  - apply Nat.ltb_lt in E1, E2. lia.
  - apply Nat.ltb_ge in E1, E2. lia.
Qed.

(** Above the coarsest level some axis can still be halved, and then
    [get_rdir] halves exactly the axes that are free and can be halved. *)
Lemma get_rdir_steps (grid : TensorMesh) (v : Var) (level : nat) :
  good_var v -> on_level v grid level -> level <> clevel_rdir v ->
  steps (get_rdir grid v) =
    (if halvable (nCx grid) && negb (v_rdir v =? 1) then 2 else 1,
     if halvable (nCy grid) && negb (v_rdir v =? 2) then 2 else 1,
     if halvable (nCz grid) && negb (v_rdir v =? 3) then 2 else 1).
Proof.
  intros ((c0 & c1 & c2 & Hcl & H0 & H1 & H2) & Hr & _) (Hle & Ax & Ay & Az) Hne.
  assert (Hlt : level < clevel_rdir v) by lia. clear Hle Hne.
  unfold get_rdir. rewrite !halvable_blocked.
  unfold clevel_rdir in Hlt. rewrite Hcl in Hlt. unfold axis_ok in *.
  assert (Hx : v_rdir v <> 1 -> level < c0 -> halvable (nCx grid) = true).
  { intros Hn Hl. apply halvings_pos. rewrite Ax; [lia |].
    apply negb_true_iff, Nat.eqb_neq, Hn. }
  assert (Hy : v_rdir v <> 2 -> level < c1 -> halvable (nCy grid) = true).
  { intros Hn Hl. apply halvings_pos. rewrite Ay; [lia |].
    apply negb_true_iff, Nat.eqb_neq, Hn. }
  assert (Hz : v_rdir v <> 3 -> level < c2 -> halvable (nCz grid) = true).
  { intros Hn Hl. apply halvings_pos. rewrite Az; [lia |].
    apply negb_true_iff, Nat.eqb_neq, Hn. }
  clear Ax Ay Az H0 H1 H2 Hcl.
  destruct (v_rdir v) as [| [| [| [| r]]]]; try lia; simpl in Hlt |- *;
    unfold max3 in Hlt;
    destruct (halvable (nCx grid)) eqn:Ex, (halvable (nCy grid)) eqn:Ey,
             (halvable (nCz grid)) eqn:Ez; try reflexivity; exfalso;
    repeat match goal with
    | H : _ -> _ -> false = true |- _ =>
        first [ specialize (H ltac:(lia)) | clear H ]
    | H : _ -> _ -> true = true |- _ => clear H
    end;
    repeat match goal with
    | H : ?l < ?c -> false = true |- _ =>
        assert (c <= l) by (destruct (Nat.le_gt_cases c l) as [G | G];
                            [exact G | discriminate (H G)]);
        clear H
    end; lia.
Qed.

Lemma good_steps_get_rdir (grid : TensorMesh) (v : Var) (level : nat) :
  good_var v -> on_level v grid level -> level <> clevel_rdir v ->
  good_steps (vnC grid) (get_rdir grid v).
Proof.
  intros Hg Hl Hne. unfold good_steps.
  rewrite (get_rdir_steps grid v level Hg Hl Hne). simpl.
  repeat split;
    match goal with
    | |- (if ?b && _ then _ else _) = 2 -> _ => destruct b; simpl; [reflexivity |]
    end; discriminate.
Qed.

Lemma on_level_restriction (K : Kernels) (grid : TensorMesh) (model : Model)
    (sfield res : Field) (v : Var) (level : nat) :
  good_var v -> on_level v grid level -> level <> clevel_rdir v ->
  on_level v
    (fst (fst (fst (restriction K grid model sfield res (get_rdir grid v)))))
    (level + 1).
Proof.
  intros Hg Hl Hne.
  pose proof (vnC_restriction K grid model sfield res (get_rdir grid v)) as Hc.
  set (cg := fst (fst (fst (restriction K grid model sfield res (get_rdir grid v))))) in *.
  rewrite (get_rdir_steps grid v level Hg Hl Hne) in Hc.
  assert (Cx := f_equal (fun t => fst (fst t)) Hc).
  assert (Cy := f_equal (fun t => snd (fst t)) Hc).
  assert (Cz := f_equal (fun t => snd t) Hc).
  cbn [fst snd vnC] in Cx, Cy, Cz. clear Hc.
  destruct Hl as (Hle & Ax & Ay & Az).
  unfold on_level. rewrite Cx, Cy, Cz.
  split; [lia |]. unfold axis_ok in *.
  repeat split; intros Hf;
    match goal with
    | A : ?f = true -> halvings ?n = _ |- context [halvable ?n] =>
        specialize (A Hf); rewrite Hf, andb_true_r;
        destruct (halvable n) eqn:E;
        [ apply halvings_halvable in E; rewrite E in A; lia
        | apply halvings_not_halvable in E; rewrite Nat.div_1_r; lia ]
    end.
Qed.


(** *** Every restriction of a run *)

Definition good_event (e : event) : Prop :=
  match e with
  | EvRestriction _ n rdir => good_steps n rdir
  | _ => True
  end.

Lemma good_var_frame (b : bool) (v v' : Var) :
  frame b v v' -> good_var v -> good_var v'.
Proof.
  intros (F1 & F2 & F3 & F4 & _) H. unfold good_var.
  now rewrite F1, F2, F3, F4.
Qed.

Lemma on_level_frame (b : bool) (v v' : Var) (grid : TensorMesh) (level : nat) :
  frame b v v' -> on_level v grid level -> on_level v' grid level.
Proof.
  intros (F1 & F2 & F3 & _) H. unfold on_level, clevel_rdir.
  now rewrite F1, F2, F3.
Qed.

Lemma good_var_advance (v : Var) : good_var v -> good_var (advance_cycles v).
Proof.
  intros (Hc & Hr & Hcy). unfold advance_cycles, good_var.
  destruct (v_rcycle v) as [c |] eqn:Ec;
    destruct (v_lcycle _) as [c' |] eqn:El; simpl; rewrite ?Ec;
    try (destruct (next_le3 c Hcy) as [N1 N2]);
    repeat split; assumption.
Qed.

Lemma smoothing_good (K : Kernels) (grid : TensorMesh) (model : Model)
    (sfield efield : Field) (nu : Z) (ldir : nat) :
  Forall good_event (snd (smoothing K grid model sfield efield nu ldir)).
Proof.
  unfold smoothing.
  repeat match goal with
  | |- context [if ?b then _ else _] => destruct b
  end; simpl; repeat constructor.
Qed.

Lemma smoothing_good_eq (K : Kernels) (grid : TensorMesh) (model : Model)
    (sfield efield : Field) (nu : Z) (ldir : nat) (e : Field) (ev : list event) :
  smoothing K grid model sfield efield nu ldir = (e, ev) ->
  Forall good_event ev.
Proof.
  intros E. change ev with (snd (e, ev)). rewrite <- E. apply smoothing_good.
Qed.

(** A call that only makes good restrictions, when it starts from a grid
    that is as far down as its level says. *)
Definition restricts_well (self : mg_call) : Prop :=
  forall g m sf e st lv ncm,
    0 < lv -> good_var (var st) -> on_level (var st) g lv ->
    Forall good_event (log st) ->
    Forall good_event (log (snd (fst (self g m sf e st lv ncm)))).

Lemma cycle_body_good (K : Kernels) (self : mg_call)
    (grid : TensorMesh) (model : Model) (sfield : Field)
    (level : nat) (cycmax : Z) (s : Loop) :
  restricts_well self ->
  good_var (var (l_st s)) -> on_level (var (l_st s)) grid level ->
  Forall good_event (log (l_st s)) ->
  Forall good_event
    (log (l_st (fst (cycle_body K self grid model sfield level cycmax s)))).
Proof.
  intros Hself Hg Hl Hlog. unfold cycle_body.
  destruct (level =? clevel_rdir (var (l_st s))) eqn:Ec.
  - repeat break_inner; simpl;
      repeat match goal with
      | E : smoothing _ _ _ _ _ _ _ = (_, _) |- _ => apply smoothing_good_eq in E
      | E : (_, _) = (_, _) |- _ => inversion E; subst; clear E
      end; simpl; try (apply Forall_app; split); assumption.
  - apply Nat.eqb_neq in Ec.
    pose proof (good_steps_get_rdir grid _ level Hg Hl Ec) as Hgs.
    destruct (if (0 <? nu_pre (cfg (var (l_st s))))%Z then _ else _)
      as [e ev] eqn:Es.
    assert (Hev : Forall good_event ev).
    { destruct (0 <? nu_pre (cfg (var (l_st s))))%Z.
      - now apply smoothing_good_eq in Es.
      - inversion Es. constructor. }
    pose proof (on_level_restriction K grid model sfield
                  (residual K grid model sfield e) _ level Hg Hl Ec) as Hl'.
    destruct (restriction K grid model sfield (residual K grid model sfield e)
                (get_rdir grid (var (l_st s)))) as [[[cg cm] cs] ce].
    simpl in Hl'.
    match goal with
    | |- context [self ?g ?m ?sf ?e0 ?st ?lv ?ncm] =>
        pose proof (Hself g m sf e0 st lv ncm ltac:(lia)) as Hs;
        destruct (self g m sf e0 st lv ncm) as [[ce' st'] stat]
    end.
    simpl in Hs.
    assert (Hst : Forall good_event (log st')).
    { apply Hs; try assumption.
      repeat (apply Forall_app; split); try assumption.
      constructor; [exact Hgs | constructor]. }
    clear Hs.
    repeat break_inner; simpl;
      repeat match goal with
      | E : smoothing _ _ _ _ _ _ _ = (_, _) |- _ => apply smoothing_good_eq in E
      | E : (_, _) = (_, _) |- _ => inversion E; subst; clear E
      end; simpl;
      repeat (apply Forall_app; split); try assumption;
      repeat constructor.
Qed.


Lemma vnC_advance (v : Var) : vnC_ (advance_cycles v) = vnC_ v.
Proof.
  unfold advance_cycles.
  destruct (v_rcycle v); destruct (v_lcycle _); reflexivity.
Qed.

Lemma mg_loop_good (K : Kernels) (self : mg_call) (n : nat)
    (grid : TensorMesh) (model : Model) (sfield : Field)
    (level : nat) (cycmax : Z) (l2_refe l2_init : Q) (s : Loop) :
  restricts_well self -> framed self ->
  (level = 0 -> vnC grid = vnC_ (var (l_st s))) ->
  good_var (var (l_st s)) -> on_level (var (l_st s)) grid level ->
  Forall good_event (log (l_st s)) ->
  Forall good_event
    (log (l_st (fst (mg_loop K self n grid model sfield level cycmax
                       l2_refe l2_init s)))).
Proof.
  intros Hself Hfr. revert s.
  induction n as [| n IH]; intros s H0 Hg Hl Hlog; simpl; [exact Hlog |].
  destruct (negb _); [exact Hlog |].
  pose proof (cycle_body_good K self grid model sfield level cycmax s
                Hself Hg Hl Hlog) as Hb.
  pose proof (cycle_body_frame K self grid model sfield level cycmax s Hfr) as Hf.
  destruct (cycle_body K self grid model sfield level cycmax s) as [s' stat].
  simpl in Hb, Hf.
  assert (Hg' : good_var (var (l_st s'))) by (eapply good_var_frame; eassumption).
  assert (Hl' : on_level (var (l_st s')) grid level)
    by (eapply on_level_frame; eassumption).
  assert (H0' : level = 0 -> vnC grid = vnC_ (var (l_st s'))).
  { intros E. destruct Hf as (_ & F2 & _). rewrite F2. now apply H0. }
  destruct stat; try exact Hb.
  destruct (0 <? level) eqn:E0.
  - apply IH; assumption.
  - apply Nat.ltb_ge in E0. assert (level = 0) by lia. subst level.
    specialize (H0' eq_refl). cbv zeta.
    match goal with
    | |- context [termination (advance_cycles (var ?st))] => set (st0 := st)
    end.
    assert (G0 : good_var (var st0)).
    { unfold st0. destruct (_ && _); simpl; [| assumption].
      eapply good_var_frame; [apply (frame_set_level_all false) | assumption]. }
    assert (V0 : vnC grid = vnC_ (var st0)).
    { unfold st0. destruct (_ && _); simpl; assumption. }
    assert (L0 : Forall good_event (log st0)).
    { unfold st0. destruct (_ && _); simpl; assumption. }
    clearbody st0.
    apply good_var_advance in G0. rewrite <- vnC_advance in V0.
    destruct (termination _ _ _ _ _ _) as [| msg].
    + apply IH; simpl; try assumption.
      * intros _. exact V0.
      * now apply on_level_0.
    + simpl. destruct msg as [m |]; [| exact L0].
      destruct (1 <? verb _)%Z; simpl; [| exact L0].
      apply Forall_app. split; [exact L0 | repeat constructor].
Qed.

Lemma mg_loop_good_eq (K : Kernels) (self : mg_call) (n : nat)
    (grid : TensorMesh) (model : Model) (sfield : Field)
    (level : nat) (cycmax : Z) (l2_refe l2_init : Q) (s s' : Loop)
    (stat : status) :
  mg_loop K self n grid model sfield level cycmax l2_refe l2_init s = (s', stat) ->
  restricts_well self -> framed self ->
  (level = 0 -> vnC grid = vnC_ (var (l_st s))) ->
  good_var (var (l_st s)) -> on_level (var (l_st s)) grid level ->
  Forall good_event (log (l_st s)) ->
  Forall good_event (log (l_st s')).
Proof.
  intros E. change s' with (fst (s', stat)). rewrite <- E.
  apply mg_loop_good.
Qed.

(** Every restriction [multigrid] makes halves only axes whose number of
    cells is even and not smaller than 3, however far the run gets. *)
Lemma multigrid_good (K : Kernels) (fuel : nat) (g : TensorMesh) (m : Model)
    (sf e : Field) (st : St) (lv : nat) (ncm : Z) :
  (lv = 0 -> vnC g = vnC_ (var st)) ->
  good_var (var st) -> on_level (var st) g lv ->
  Forall good_event (log st) ->
  Forall good_event (log (snd (fst (multigrid K fuel g m sf e st lv ncm)))).
Proof.
  revert g m sf e st lv ncm.
  induction fuel as [| fuel IH]; intros g m sf e st lv ncm H0 Hg Hl Hlog;
    simpl; [exact Hlog |].
  assert (Hself : restricts_well (multigrid K fuel)).
  { intros g' m' sf' e' st' lv' ncm' Hp Hg' Hl' Hlog'.
    apply IH; try assumption. intros; lia. }
  repeat break_inner; simpl;
    repeat match goal with
    | E : smoothing _ _ _ _ _ _ _ = (_, _) |- _ => apply smoothing_good_eq in E
    | E : (_, _) = (_, _) |- _ => inversion E; subst; clear E
    | E : mg_loop _ _ _ _ _ _ _ _ _ _ _ = (_, _) |- _ =>
        eapply mg_loop_good_eq in E;
        [ | exact Hself | apply multigrid_framed | simpl; exact H0
          | simpl; exact Hg | simpl; exact Hl
          | simpl; repeat (apply Forall_app; split); try assumption;
            repeat constructor ]
    end; assumption.
Qed.


(** On the original grid the loop may change [rdir], but only to a
    direction of its cycle. *)
Lemma mg_loop_var (K : Kernels) (self : mg_call) (n : nat)
    (grid : TensorMesh) (model : Model) (sfield : Field)
    (level : nat) (cycmax : Z) (l2_refe l2_init : Q) (s : Loop) :
  framed self -> good_var (var (l_st s)) ->
  good_var (var (l_st (fst (mg_loop K self n grid model sfield level cycmax
                              l2_refe l2_init s)))) /\
  vnC_ (var (l_st (fst (mg_loop K self n grid model sfield level cycmax
                          l2_refe l2_init s)))) = vnC_ (var (l_st s)).
Proof.
  intros Hfr. revert s.
  induction n as [| n IH]; intros s Hg; simpl; [now split |].
  destruct (negb _); [now split |].
  pose proof (cycle_body_frame K self grid model sfield level cycmax s Hfr) as Hf.
  destruct (cycle_body K self grid model sfield level cycmax s) as [s' stat].
  simpl in Hf.
  assert (Hg' : good_var (var (l_st s'))) by (eapply good_var_frame; eassumption).
  assert (Hv : vnC_ (var (l_st s')) = vnC_ (var (l_st s))).
  { now destruct Hf as (_ & F2 & _). }
  destruct stat; try (now split).
  destruct (0 <? level).
  - match goal with
    | |- context [mg_loop _ _ _ _ _ _ _ _ _ _ ?x] =>
        destruct (IH x Hg') as [I1 I2]
    end.
    split; [exact I1 | now rewrite I2].
  - cbv zeta.
    match goal with
    | |- context [termination (advance_cycles (var ?st))] => set (st0 := st)
    end.
    assert (G0 : good_var (var st0)).
    { unfold st0. destruct (_ && _); simpl; [| assumption].
      eapply good_var_frame; [apply (frame_set_level_all false) | assumption]. }
    assert (V0 : vnC_ (var st0) = vnC_ (var (l_st s))).
    { unfold st0. destruct (_ && _); simpl; assumption. }
    clearbody st0.
    apply good_var_advance in G0. rewrite <- vnC_advance in V0.
    destruct (termination _ _ _ _ _ _) as [| msg].
    + match goal with
      | |- context [mg_loop _ _ _ _ _ _ _ _ _ _ ?x] =>
          destruct (IH x) as [I1 I2]; [simpl; exact G0 |]
      end.
      split; [exact I1 |]. rewrite I2. simpl. exact V0.
    + simpl. destruct msg as [m |]; [destruct (1 <? verb _)%Z |]; simpl;
        now split.
Qed.

(** What holds of the state of a solve between two calls: [var] is as
    [MGParameters] made it, up to the records of the run, it belongs to
    the grid, and all restrictions so far were good. *)
Definition sound (grid : TensorMesh) (st : St) : Prop :=
  good_var (var st) /\ vnC grid = vnC_ (var st) /\
  Forall good_event (log st).

Lemma multigrid_sound (K : Kernels) (fuel : nat) (g : TensorMesh) (m : Model)
    (sf e : Field) (st : St) (ncm : Z) :
  sound g st ->
  sound g (snd (fst (multigrid K fuel g m sf e st 0 ncm))).
Proof.
  intros (Hg & Hv & Hlog). unfold sound.
  split; [| split].
  - destruct fuel as [| fuel]; simpl; [exact Hg |].
    repeat break_inner; simpl;
      repeat match goal with
      | E : (_, _) = (_, _) |- _ => inversion E; subst; clear E
      | E : mg_loop K ?self ?n ?gr ?mo ?sfi ?lv ?cm ?r ?i ?s0 = (_, _) |- _ =>
          let G := fresh "G" in
          pose proof (mg_loop_var K self n gr mo sfi lv cm r i s0
                        (multigrid_framed K fuel)) as G;
          rewrite E in G; simpl in G; clear E
      end;
      match goal with G : _ -> _ /\ _ |- _ => apply G; exact Hg end.
  - destruct fuel as [| fuel]; simpl; [exact Hv |].
    repeat break_inner; simpl;
      repeat match goal with
      | E : (_, _) = (_, _) |- _ => inversion E; subst; clear E
      | E : mg_loop K ?self ?n ?gr ?mo ?sfi ?lv ?cm ?r ?i ?s0 = (_, _) |- _ =>
          let G := fresh "G" in
          pose proof (mg_loop_var K self n gr mo sfi lv cm r i s0
                        (multigrid_framed K fuel)) as G;
          rewrite E in G; simpl in G; clear E
      end;
      match goal with
      | G : _ -> _ /\ _ |- _ => destruct (G Hg) as [_ G2]; now rewrite G2
      end.
  - apply multigrid_good; try assumption.
    + intros _. exact Hv.
    + now apply on_level_0.
Qed.


(** An update of [var] that leaves the configuration and [rdir] alone. *)
Definition harmless (f : Var -> Var) : Prop :=
  forall v, cfg (f v) = cfg v /\ vnC_ (f v) = vnC_ v /\
            v_rdir (f v) = v_rdir v /\ v_rcycle (f v) = v_rcycle v.

Lemma sound_upd (f : Var -> Var) (g : TensorMesh) (st : St) :
  harmless f -> sound g st -> sound g (upd f st).
Proof.
  intros Hf (Hg & Hv & Hlog). unfold sound. simpl.
  destruct (Hf (var st)) as (F1 & F2 & F3 & F4).
  split; [| split; [now rewrite F2 | exact Hlog]].
  unfold good_var. now rewrite F1, F2, F3, F4.
Qed.

Lemma harmless_set_l2 (x : Q) : harmless (set_l2 x).
Proof. intros v. now repeat split. Qed.

Lemma harmless_set_first_cycle (b : bool) : harmless (set_first_cycle b).
Proof. intros v. now repeat split. Qed.

Lemma harmless_ssl_it : harmless (fun v => set_ssl_it (v_ssl_it v + 1)%Z v).
Proof. intros v. now repeat split. Qed.

Lemma sound_emit (ev : list event) (g : TensorMesh) (st : St) :
  Forall good_event ev -> sound g st -> sound g (emit ev st).
Proof.
  intros He (Hg & Hv & Hlog). unfold sound. simpl.
  split; [exact Hg | split; [exact Hv |]]. apply Forall_app. now split.
Qed.

Lemma callback_sound (K : Kernels) (g : TensorMesh) (m : Model) (sf : Field)
    (x : Field + Q) (st : St) :
  sound g st -> sound g (callback K g m sf x st).
Proof.
  intros H. unfold callback.
  repeat break_inner; repeat apply sound_upd; try assumption;
    first [apply harmless_set_l2 | apply harmless_ssl_it].
Qed.

Lemma mg_matvec_sound (K : Kernels) (fuel : nat) (g : TensorMesh) (m : Model)
    (b : Field) (st : St) :
  sound g st -> sound g (snd (fst (mg_matvec K fuel g m b st))).
Proof.
  intros H. unfold mg_matvec.
  pose proof (multigrid_sound K fuel g m (Field_of g b) (Field_zeros g) st 0%Z H) as Hm.
  destruct (multigrid K fuel g m (Field_of g b) (Field_zeros g) st 0 0%Z)
    as [[e st'] stat].
  simpl in Hm. destruct stat; simpl; exact Hm.
Qed.

Lemma run_krylov_sound (g : TensorMesh) (A : Field -> Field)
    (M : option (Field -> St -> Field * St * status))
    (cb : Field + Q -> St -> St) (r : KrylovRun) (st : St) :
  (forall m, M = Some m -> forall b st, sound g st -> sound g (snd (fst (m b st)))) ->
  (forall x st, sound g st -> sound g (cb x st)) ->
  sound g st -> sound g (snd (fst (run_krylov A M cb r st))).
Proof.
  intros HM Hcb. revert st.
  induction r as [x info | v k IH | b k IH | x k IH]; intros st H; simpl.
  - exact H.
  - now apply IH.
  - destruct M as [m |].
    + pose proof (HM m eq_refl b st H) as Hm.
      destruct (m b st) as [[e st'] stat]. simpl in Hm.
      destruct stat; simpl; try exact Hm. now apply IH.
    + now apply IH.
  - apply IH. now apply Hcb.
Qed.

(** Every restriction of a call of [solver] halves only axes whose number
    of cells is even and not smaller than 3. *)
Lemma solver_good (K : Kernels) (fuel : nat) (grid : TensorMesh)
    (model : Model) (sfield : Field) (efield : option Field) (p : Params)
    (out : Outcome) :
  solver K fuel grid model sfield efield p = ok out ->
  Forall good_event (log (final out)).
Proof.
  unfold solver. intros H.
  apply bind_ok in H. destruct H as [v [Hv H]].
  apply MGParameters_good in Hv. destruct Hv as [Hg Hn]. simpl in Hn.
  assert (S0 : sound grid {| var := v; log := [] |}).
  { split; [exact Hg | split]; simpl; [now rewrite Hn | constructor]. }
  assert (S1 : forall x, sound grid (upd (set_l2 x) {| var := v; log := [] |})).
  { intros x. apply sound_upd; [apply harmless_set_l2 | exact S0]. }
  destruct efield as [e0 |]; cbv zeta beta iota in H.
  - destruct (negb _) eqn:Erun.
    + destruct (sslsolver (cfg v)) as [name |] eqn:Es.
      * match type of H with
        | context [run_krylov ?A ?M ?cb ?r ?st] =>
            pose proof (run_krylov_sound grid A M cb r st) as Hk;
            destruct (run_krylov A M cb r st) as [[[x i] st'] stat]
        end.
        simpl in Hk.
        assert (Hs : sound grid st').
        { apply Hk.
          - intros m Hm b st0. destruct (cycle (cfg v)); inversion Hm.
            apply mg_matvec_sound.
          - intros x0 st0. apply callback_sound.
          - apply sound_emit; [repeat constructor | apply S1]. }
        inversion H; subst; clear H. simpl.
        destruct Hs as (_ & _ & Hs).
        repeat break_inner; simpl; try exact Hs;
          try (apply Forall_app; split; try exact Hs; repeat constructor).
      * match type of H with
        | context [multigrid K fuel ?g ?m ?sf ?e ?st 0 ?ncm] =>
            pose proof (multigrid_sound K fuel g m sf e st ncm (S1 _)) as Hm;
            destruct (multigrid K fuel g m sf e st 0 ncm) as [[e' st'] stat]
        end.
        inversion H; subst; clear H. simpl. apply Hm.
    + inversion H; subst; clear H. simpl.
      destruct (1 <? p_verb p)%Z; simpl; repeat constructor.
  - destruct (sslsolver (cfg v)) as [name |] eqn:Es.
    + match type of H with
      | context [run_krylov ?A ?M ?cb ?r ?st] =>
          pose proof (run_krylov_sound grid A M cb r st) as Hk;
          destruct (run_krylov A M cb r st) as [[[x i] st'] stat]
      end.
      simpl in Hk.
      assert (Hs : sound grid st').
      { apply Hk.
        - intros m Hm b st0. destruct (cycle (cfg v)); inversion Hm.
          apply mg_matvec_sound.
        - intros x0 st0. apply callback_sound.
        - apply sound_emit; [repeat constructor | apply S0]. }
      inversion H; subst; clear H. simpl.
      destruct Hs as (_ & _ & Hs).
      repeat break_inner; simpl; try exact Hs;
        try (apply Forall_app; split; try exact Hs; repeat constructor).
    + match type of H with
      | context [multigrid K fuel ?g ?m ?sf ?e ?st 0 ?ncm] =>
          pose proof (multigrid_sound K fuel g m sf e st ncm S0) as Hm;
          destruct (multigrid K fuel g m sf e st 0 ncm) as [[e' st'] stat]
      end.
      inversion H; subst; clear H. simpl. apply Hm.
Qed.

(** C6.  [smoothing] calls the line kernels of exactly those requested
    axes that have not two cells (and the pointwise kernel when none is
    left), so it never relaxes along a line of an axis with two cells; and
    every restriction of a solve halves only axes whose number of cells is
    even and not smaller than 3. *)
Theorem line_relaxation_and_coarsening (K : Kernels) :
  (forall grid model sfield efield nu ldir,
     ldir <= 7 ->
     let called := kinds (snd (smoothing K grid model sfield efield nu ldir)) in
     let lx := fst (fst (ldir_axes ldir)) && negb (nCx grid =? 2) in
     let ly := snd (fst (ldir_axes ldir)) && negb (nCy grid =? 2) in
     let lz := snd (ldir_axes ldir) && negb (nCz grid =? 2) in
     called =
       (if negb (lx || ly || lz) then [GS] else []) ++
       (if lx then [GSx] else []) ++ (if ly then [GSy] else []) ++
       (if lz then [GSz] else []) /\
     (nCx grid = 2 -> ~ In GSx called) /\
     (nCy grid = 2 -> ~ In GSy called) /\
     (nCz grid = 2 -> ~ In GSz called)) /\
  (forall fuel grid model sfield efield p out level n rdir,
     solver K fuel grid model sfield efield p = ok out ->
     In (EvRestriction level n rdir) (log (final out)) ->
     (fst (fst (steps rdir)) = 2 ->
        fst (fst n) mod 2 = 0 /\ 3 <= fst (fst n)) /\
     (snd (fst (steps rdir)) = 2 ->
        snd (fst n) mod 2 = 0 /\ 3 <= snd (fst n)) /\
     (snd (steps rdir) = 2 -> snd n mod 2 = 0 /\ 3 <= snd n)).
Proof.
  split.
  - intros grid model sfield efield nu ldir Hl. cbv zeta.
    pose proof (smoothing_kinds K grid model sfield efield nu ldir Hl) as E.
    destruct (ldir_axes ldir) as [[ax ay] az]. cbv zeta in E. simpl fst; simpl snd.
    rewrite E. split; [reflexivity |].
    repeat split; intros H2; apply Nat.eqb_eq in H2; rewrite H2;
      destruct ax, ay, az, (nCx grid =? 2), (nCy grid =? 2), (nCz grid =? 2);
      simpl; intuition discriminate.
  - intros fuel grid model sfield efield p out level n rdir Hs Hin.
    pose proof (solver_good K fuel grid model sfield efield p out Hs) as Hg.
    rewrite Forall_forall in Hg. specialize (Hg _ Hin). simpl in Hg.
    destruct Hg as (Gx & Gy & Gz).
    assert (Hh : forall k, halvable k = true -> k mod 2 = 0 /\ 3 <= k).
    { intros k Hk. unfold halvable in Hk. apply andb_true_iff in Hk.
      destruct Hk as [H1 H2]. apply Nat.eqb_eq in H1. apply Nat.ltb_lt in H2.
      split; [exact H1 | lia]. }
    repeat split; try (apply Hh; auto); apply Hh; auto.
Qed.

Lemma line_relaxation_and_coarsening_witness :
  (4 mod 2 = 0 /\ 3 <= 4) /\
  ~ In GSz (kinds (snd (smoothing simple_kernels
                          {| hx := [1; 1; 1; 1]%Q; hy := [1; 1; 1; 1]%Q;
                             hz := [1; 1]%Q; x0 := (0, 0, 0)%Q |}
                          (unit_model grid444) (Field_zeros grid444)
                          (Field_zeros grid444) 1 7))).
Proof.
  destruct (line_relaxation_and_coarsening simple_kernels) as [Hs Hc].
  split.
  - destruct (solver simple_kernels 10 grid444 (unit_model grid444)
                (unit_source grid444) None default_params) as [e | out] eqn:E.
    + vm_compute in E. discriminate E.
    + apply (Hc 10 grid444 (unit_model grid444) (unit_source grid444) None
               default_params out 0 (4, 4, 4) 0 E).
      * assert (L : log (final out) =
                    [EvMultigrid 0 (4, 4, 4) 0 2; EvGaussSeidel GS (4, 4, 4) 2;
                     EvRestriction 0 (4, 4, 4) 0; EvMultigrid 1 (2, 2, 2) 2 1;
                     EvGaussSeidel GS (2, 2, 2) 1; EvProlongation 0 0;
                     EvGaussSeidel GS (4, 4, 4) 2;
                     EvPrint "   > CONVERGED"%string]).
        { vm_compute in E. inversion E. reflexivity. }
        rewrite L. simpl. tauto.
      * reflexivity.
  - refine (proj2 (proj2 (proj2 (Hs _ _ _ _ _ 7 _))) _).
    + lia.
    + reflexivity.
Defined.

End DirectionFacts.

(* ====================================================================== *)
(** * The V-, W- and F-cycle *)
(* ====================================================================== *)

Module CycleFacts.
Import Solver FrameFacts.
Local Open Scope list_scope.
Local Open Scope nat_scope.

(** The entries of [multigrid] in a log: level, [new_cycmax], [cycmax]. *)
Definition entries (l : list event) : list (nat * Z * Z) :=
  flat_map (fun e => match e with
                     | EvMultigrid lv _ ncm cm => [(lv, ncm, cm)]
                     | _ => []
                     end) l.

(** The entries of one call on [level], [depth] levels above the coarsest
    one: the call itself, and for each of its [cycmax] passes the entries
    of the call on the next level, which is handed [cycmax] minus the
    number of passes made. *)
Fixpoint visits (v : Var) (depth level : nat) (new_cycmax : Z)
  : list (nat * Z * Z) :=
  match depth with
  | O => [(level, new_cycmax, 1%Z)]
  | S d =>
      let cm := get_cycmax v level new_cycmax in
      (level, new_cycmax, cm) ::
      flat_map (fun c => visits v d (level + 1) (cm - Z.of_nat c)%Z)
               (seq 0 (Z.to_nat cm))
  end.

Lemma entries_app (l1 l2 : list event) :
  entries (l1 ++ l2) = entries l1 ++ entries l2.
Proof. apply flat_map_app. Qed.

Lemma entries_smoothing (K : Kernels) (grid : TensorMesh) (model : Model)
    (sfield efield : Field) (nu : Z) (ldir : nat) :
  entries (snd (smoothing K grid model sfield efield nu ldir)) = [].
Proof.
  unfold smoothing.
  repeat match goal with
  | |- context [if ?b then _ else _] => destruct b
  end; reflexivity.
Qed.

Lemma entries_smoothing_eq (K : Kernels) (grid : TensorMesh) (model : Model)
    (sfield efield : Field) (nu : Z) (ldir : nat) (e : Field) (ev : list event) :
  smoothing K grid model sfield efield nu ldir = (e, ev) -> entries ev = [].
Proof.
  intros E. change ev with (snd (e, ev)). rewrite <- E. apply entries_smoothing.
Qed.

Lemma get_cycmax_frame (b : bool) (v v' : Var) (level : nat) (ncm : Z) :
  frame b v v' -> get_cycmax v' level ncm = get_cycmax v level ncm.
Proof.
  intros (F1 & _ & F3 & _). unfold get_cycmax, clevel_rdir, cycle_is.
  now rewrite F1, F3.
Qed.

Lemma visits_frame (b : bool) (v v' : Var) (d level : nat) (ncm : Z) :
  frame b v v' -> visits v' d level ncm = visits v d level ncm.
Proof.
  intros F. revert level ncm. induction d as [| d IH]; intros level ncm; simpl.
  - reflexivity.
  - rewrite (get_cycmax_frame b v v' level ncm F). f_equal.
    apply flat_map_ext. intros c. apply IH.
Qed.

Lemma clevel_rdir_frame (b : bool) (v v' : Var) :
  frame b v v' -> clevel_rdir v' = clevel_rdir v.
Proof. intros (F1 & _ & F3 & _). unfold clevel_rdir. now rewrite F1, F3. Qed.

(** A call whose entries are the visits. *)
Definition follows (self : mg_call) : Prop :=
  forall g m sf e st lv ncm e' st',
    0 < lv -> lv <= clevel_rdir (var st) ->
    self g m sf e st lv ncm = (e', st', Done) ->
    entries (log st') =
    entries (log st) ++ visits (var st) (clevel_rdir (var st) - lv) lv ncm.

Lemma cycle_body_entries (K : Kernels) (self : mg_call)
    (grid : TensorMesh) (model : Model) (sfield : Field)
    (level : nat) (cycmax : Z) (s s' : Loop) :
  follows self -> level <= clevel_rdir (var (l_st s)) ->
  cycle_body K self grid model sfield level cycmax s = (s', Done) ->
  entries (log (l_st s')) =
    entries (log (l_st s)) ++
    (if level =? clevel_rdir (var (l_st s)) then []
     else visits (var (l_st s)) (clevel_rdir (var (l_st s)) - (level + 1))
            (level + 1) (cycmax - l_cyc s)%Z) /\
  l_it s' = (l_it s + 1)%Z /\ l_cyc s' = l_cyc s.
Proof.
  intros Hself Hle. unfold cycle_body.
  destruct (level =? clevel_rdir (var (l_st s))) eqn:Ec.
  - repeat break_inner; intros E; inversion E; subst; clear E; simpl;
      repeat match goal with
      | E : smoothing _ _ _ _ _ _ _ = (_, _) |- _ =>
          apply entries_smoothing_eq in E
      end;
      rewrite ?entries_app;
      repeat match goal with E : entries _ = [] |- _ => rewrite E end;
      rewrite ?app_nil_r; auto.
  - apply Nat.eqb_neq in Ec.
    destruct (if (0 <? nu_pre (cfg (var (l_st s))))%Z then _ else _)
      as [e ev] eqn:Es.
    assert (Hev : entries ev = []).
    { destruct (0 <? nu_pre (cfg (var (l_st s))))%Z.
      - now apply entries_smoothing_eq in Es.
      - now inversion Es. }
    destruct (restriction K grid model sfield (residual K grid model sfield e)
                (get_rdir grid (var (l_st s)))) as [[[cg cm] cs] ce].
    match goal with
    | |- context [self ?g ?m ?sf ?e0 ?st ?lv ?ncm] =>
        pose proof (Hself g m sf e0 st lv ncm) as Hs;
        destruct (self g m sf e0 st lv ncm) as [[ce' st'] stat]
    end.
    destruct stat;
      [ | repeat break_inner; intros E; inversion E
        | repeat break_inner; intros E; inversion E ].
    specialize (Hs ce' st' ltac:(lia) ltac:(simpl; lia) eq_refl).
    simpl in Hs. rewrite !entries_app, Hev, app_nil_r in Hs. simpl in Hs.
    rewrite app_nil_r in Hs.
    repeat break_inner; intros E; inversion E; subst; clear E; simpl;
      repeat match goal with
      | E : smoothing _ _ _ _ _ _ _ = (_, _) |- _ =>
          apply entries_smoothing_eq in E
      end;
      rewrite ?entries_app;
      repeat match goal with E : entries _ = [] |- _ => rewrite E end;
      simpl; rewrite ?app_nil_r; auto.
Qed.


Lemma mg_loop_entries (K : Kernels) (self : mg_call) (n : nat)
    (grid : TensorMesh) (model : Model) (sfield : Field)
    (level : nat) (cycmax : Z) (l2_refe l2_init : Q) (s s' : Loop) :
  follows self -> framed self ->
  0 < level -> level <= clevel_rdir (var (l_st s)) ->
  l_it s = l_cyc s -> (0 <= l_cyc s)%Z ->
  mg_loop K self n grid model sfield level cycmax l2_refe l2_init s = (s', Done) ->
  entries (log (l_st s')) =
    entries (log (l_st s)) ++
    (if level =? clevel_rdir (var (l_st s)) then []
     else flat_map
            (fun c => visits (var (l_st s))
                        (clevel_rdir (var (l_st s)) - (level + 1))
                        (level + 1) (cycmax - Z.of_nat c)%Z)
            (seq (Z.to_nat (l_cyc s)) (Z.to_nat (cycmax - l_cyc s)))).
Proof.
  intros Hself Hfr Hlv. revert s.
  induction n as [| n IH]; intros s Hle Hit Hc; simpl; [discriminate |].
  assert (E0 : (level =? 0) = false) by (apply Nat.eqb_neq; lia).
  assert (E1 : (0 <? level) = true) by (apply Nat.ltb_lt; lia).
  rewrite E0, E1. cbn [orb andb].
  destruct (l_it s <? cycmax)%Z eqn:Elt; cbn [negb].
  - apply Z.ltb_lt in Elt.
    pose proof (cycle_body_entries K self grid model sfield level cycmax s) as Hb.
    pose proof (cycle_body_frame K self grid model sfield level cycmax s Hfr) as Hf.
    destruct (cycle_body K self grid model sfield level cycmax s) as [s1 stat].
    rewrite E1 in Hf. simpl in Hf.
    destruct stat; try discriminate.
    destruct (Hb s1 Hself Hle eq_refl) as (B1 & B2 & B3). clear Hb.
    intros E. apply IH in E; simpl.
    + rewrite E. simpl. rewrite B1, <- app_assoc. f_equal.
      rewrite (clevel_rdir_frame _ _ _ Hf).
      destruct (level =? clevel_rdir (var (l_st s))); [reflexivity |].
      rewrite B3.
      replace (Z.to_nat (cycmax - l_cyc s))
        with (S (Z.to_nat (cycmax - (l_cyc s + 1)))) by lia.
      replace (Z.to_nat (l_cyc s + 1)) with (S (Z.to_nat (l_cyc s))) by lia.
      cbn [seq flat_map]. rewrite Z2Nat.id by lia. f_equal.
      apply flat_map_ext. intros c. apply (visits_frame _ _ _ _ _ _ Hf).
    + simpl. rewrite (clevel_rdir_frame _ _ _ Hf). exact Hle.
    + simpl. lia.
    + simpl. lia.
  - apply Z.ltb_ge in Elt. intros E. inversion E; subst; clear E.
    replace (Z.to_nat (cycmax - l_cyc s')) with 0 by lia.
    simpl. destruct (level =? clevel_rdir _); now rewrite app_nil_r.
Qed.

(** Below the original grid, the entries of a call of [multigrid] that
    comes back are the visits of its level. *)
Lemma multigrid_follows (K : Kernels) (fuel : nat) : follows (multigrid K fuel).
Proof.
  induction fuel as [| fuel IH];
    intros g m sf e st lv ncm e' st' Hlv Hle; simpl; [discriminate |].
  assert (E0 : (lv =? 0) = false) by (apply Nat.eqb_neq; lia).
  rewrite E0. cbn [andb].
  match goal with
  | |- context [mg_loop K ?self ?n ?gr ?mo ?sfi ?l ?cm ?r ?i ?s0] =>
      pose proof (mg_loop_entries K self n gr mo sfi l cm r i s0) as Hl;
      destruct (mg_loop K self n gr mo sfi l cm r i s0) as [s1 stat]
  end.
  destruct stat; try discriminate.
  intros E. inversion E; subst; clear E. simpl.
  assert (Hv : frame true (var st)
                 (var (if (2 <? verb (cfg (var st)))%Z && v_first_cycle (var st)
                       then upd (fun v => set_level_all
                                   (option_map (fun l => l ++ [lv]) (v_level_all v)) v)
                              (emit [EvMultigrid lv (vnC g) ncm
                                       (get_cycmax (var st) lv ncm)] st)
                       else emit [EvMultigrid lv (vnC g) ncm
                                    (get_cycmax (var st) lv ncm)] st))).
  { destruct (_ && _); simpl; repeat split. }
  specialize (Hl s1 IH (multigrid_framed K fuel) Hlv).
  simpl in Hl. rewrite (clevel_rdir_frame _ _ _ Hv) in Hl.
  specialize (Hl Hle eq_refl ltac:(lia) eq_refl).
  rewrite Hl. clear Hl.
  assert (El : entries (log (if (2 <? verb (cfg (var st)))%Z && v_first_cycle (var st)
                       then upd (fun v => set_level_all
                                   (option_map (fun l => l ++ [lv]) (v_level_all v)) v)
                              (emit [EvMultigrid lv (vnC g) ncm
                                       (get_cycmax (var st) lv ncm)] st)
                       else emit [EvMultigrid lv (vnC g) ncm
                                    (get_cycmax (var st) lv ncm)] st))
               = entries (log st) ++ [(lv, ncm, get_cycmax (var st) lv ncm)]).
  { destruct (_ && _); simpl; now rewrite entries_app. }
  rewrite El, <- app_assoc. f_equal. clear El.
  destruct (lv =? clevel_rdir (var st)) eqn:Ec.
  - apply Nat.eqb_eq in Ec. rewrite <- Ec, Nat.sub_diag. simpl.
    unfold get_cycmax. now rewrite <- Ec, Nat.eqb_refl.
  - apply Nat.eqb_neq in Ec.
    replace (clevel_rdir (var st) - lv) with (S (clevel_rdir (var st) - (lv + 1)))
      by lia.
    simpl. f_equal. rewrite Z.sub_0_r.
    apply flat_map_ext. intros c. apply (visits_frame _ _ _ _ _ _ Hv).
Qed.



Lemma MGParameters_cycmax (p : Params) (v : Var) :
  MGParameters p = ok v ->
  cycle (cfg v) = p_cycle p /\
  cycmax (cfg v) = match p_cycle p with
                   | Some c => if str_in c ["F"; "W"]%string then 2%Z else 1%Z
                   | None => 1%Z
                   end.
Proof.
  unfold MGParameters. intros H.
  apply bind_ok in H. destruct H as [[rcycle rc] [Hr H]].
  destruct rc; cbv zeta beta iota in H;
  (apply bind_ok in H; destruct H as [[lcycle lc] [Hl H]];
   destruct lc; cbv zeta beta iota in H;
   (apply bind_ok in H; destruct H as [ssl [Hs H]];
    apply bind_ok in H; destruct H as [[] [Hc H]];
    apply bind_ok in H; destruct H as [[] [Hcs H]];
    apply bind_ok in H; destruct H as [m [Hm H]];
    inversion H; subst; clear H; simpl; now split)).
Qed.

(** C5.  The number of coarse-grid visits per level is 1 for the V-cycle,
    2 for the W-cycle, and for the F-cycle it is what the caller hands
    down, 2 at first; on the coarsest level it is 1.  A call below the
    original grid makes [cycmax] passes and hands [cycmax] minus the
    number of passes made to the next level, so that an F-cycle visits the
    next level with 2 on the way down and with 1 on the way back up. *)
Theorem cycmax_policy (K : Kernels) (p : Params) (v : Var) :
  MGParameters p = ok v ->
  (cycle (cfg v) = Some "V"%string ->
     forall level ncm, get_cycmax v level ncm = 1%Z) /\
  (cycle (cfg v) = Some "W"%string ->
     forall level ncm, level <> clevel_rdir v -> get_cycmax v level ncm = 2%Z) /\
  (cycle (cfg v) = Some "F"%string ->
     forall level ncm, level <> clevel_rdir v ->
       get_cycmax v level ncm = if (ncm =? 0)%Z then 2%Z else ncm) /\
  (forall level ncm, level = clevel_rdir v -> get_cycmax v level ncm = 1%Z) /\
  (forall fuel g m sf e st lv ncm e' st',
     0 < lv -> lv <= clevel_rdir (var st) ->
     multigrid K fuel g m sf e st lv ncm = (e', st', Done) ->
     entries (log st') =
     entries (log st) ++ visits (var st) (clevel_rdir (var st) - lv) lv ncm) /\
  (cycle (cfg v) = Some "F"%string ->
     forall d level, clevel_rdir v = level + S d ->
       visits v (S d) level 2 =
         (level, 2%Z, 2%Z) ::
         visits v d (level + 1) 2 ++ visits v d (level + 1) 1 /\
       visits v (S d) level 1 =
         (level, 1%Z, 1%Z) :: visits v d (level + 1) 1).
Proof.
  intros H. apply MGParameters_cycmax in H. destruct H as [Hc Hm].
  rewrite <- Hc in Hm.
  assert (G : forall level ncm, level <> clevel_rdir v ->
            get_cycmax v level ncm =
            if (ncm =? 0)%Z || negb (cycle_is "F" v) then cycmax (cfg v) else ncm).
  { intros level ncm Hne. unfold get_cycmax.
    apply Nat.eqb_neq in Hne. now rewrite Hne. }
  split; [| split; [| split; [| split; [| split]]]].
  - intros E level ncm. unfold get_cycmax, cycle_is. rewrite E in *. rewrite Hm.
    simpl. destruct (level =? clevel_rdir v); [reflexivity |].
    now rewrite orb_true_r.
  - intros E level ncm Hne. rewrite (G _ _ Hne). unfold cycle_is.
    rewrite E in *. rewrite Hm. simpl. now rewrite orb_true_r.
  - intros E level ncm Hne. rewrite (G _ _ Hne). unfold cycle_is.
    rewrite E in *. rewrite Hm. simpl. now rewrite orb_false_r.
  - intros level ncm E. unfold get_cycmax. apply Nat.eqb_eq in E.
    now rewrite E.
  - intros fuel g m sf e st lv ncm e' st'. apply multigrid_follows.
  - intros E d level Hd. cbn [visits].
    rewrite (G level 2%Z), (G level 1%Z) by lia. unfold cycle_is.
    rewrite E. simpl. now rewrite app_nil_r.
Qed.

Definition F_444 : Params := with_vnC (4, 4, 4) default_params.

Lemma cycmax_policy_witness :
  match MGParameters F_444 with
  | inr v => forall level ncm, level = clevel_rdir v ->
               get_cycmax v level ncm = 1%Z
  | inl _ => False
  end.
Proof.
  destruct (MGParameters F_444) as [e | v] eqn:E.
  - vm_compute in E. discriminate E.
  - apply (cycmax_policy simple_kernels F_444 v E).
Defined.

End CycleFacts.

(* ====================================================================== *)
(** * The loop on the original grid and the entry and exit of [solver] *)
(* ====================================================================== *)

Module SolverFacts.
Import Solver FrameFacts.
Local Open Scope string_scope.
Local Open Scope list_scope.
Local Open Scope nat_scope.

(** ** Termination of the loop *)





(** The whole run on a zero source: three cycles, then "stagnated". *)
Example zero_source_run :
  match solver simple_kernels 10 grid444 (unit_model grid444)
          (Field_zeros grid444) None default_params with
  | inr out =>
      v_it (var (final out)) = 3%Z /\
      last (log (final out)) (EvPrint EmptyString) = EvPrint "   > STAGNATED" /\
      finished out = Done
  | inl _ => False
  end.
Proof. vm_compute. repeat split. Qed.

Lemma Qltb_lt (x y : Q) : Qltb x y = true <-> (x < y)%Q.
Proof.
  unfold Qltb. rewrite negb_true_iff. split.
  - intros H. apply Qnot_le_lt. intros Hle.
    apply Qle_bool_iff in Hle. congruence.
  - intros H. destruct (Qle_bool y x) eqn:E; [| reflexivity].
    apply Qle_bool_iff in E. exfalso. now apply (Qlt_not_le x y).
Qed.

Lemma Qltb_ge (x y : Q) : Qltb x y = false <-> ~ (x < y)%Q.
Proof.
  rewrite <- Qltb_lt. destruct (Qltb x y); split; intros H;
    try reflexivity; try discriminate; try (exfalso; now apply H).
Qed.

Lemma Qle_bool_false (x y : Q) : Qle_bool x y = false <-> ~ (x <= y)%Q.
Proof.
  rewrite <- Qle_bool_iff. destruct (Qle_bool x y); split; intros H;
    try reflexivity; try discriminate; try (exfalso; now apply H).
Qed.













(** ** The entry of [solver] *)





Lemma MGParameters_fresh (p : Params) (v : Var) :
  MGParameters p = ok v ->
  tol (cfg v) = p_tol p /\ verb (cfg v) = p_verb p /\
  v_it v = 0%Z /\ v_ssl_it v = 0%Z.
Proof.
  unfold MGParameters. intros H.
  apply bind_ok in H. destruct H as [[rcycle rc] [Hr H]].
  destruct rc; cbv zeta beta iota in H;
  (apply bind_ok in H; destruct H as [[lcycle lc] [Hl H]];
   destruct lc; cbv zeta beta iota in H;
   (apply bind_ok in H; destruct H as [ssl [Hs H]];
    apply bind_ok in H; destruct H as [[] [Hc H]];
    apply bind_ok in H; destruct H as [[] [Hcs H]];
    apply bind_ok in H; destruct H as [m [Hm H]];
    inversion H; subst; clear H; simpl; now repeat split)).
Qed.





(** ** The exit of [solver] *)



(** With a provided field and a Krylov solver, what the solver finds is
    bound to the local name only: nothing is returned, and the caller's
    field holds the conjugate of what was handed in. *)
Lemma solver_in_place_krylov (K : Kernels) (fuel : nat) (grid : TensorMesh)
    (model : Model) (sfield e0 : Field) (p : Params) (v : Var) (out : Outcome) :
  MGParameters (with_vnC (vnC grid) p) = ok v -> sslsolver (cfg v) <> None ->
  ~ (norm K (residual K grid model sfield (field_conjugate e0))
       < p_tol p * norm K sfield)%Q ->
  solver K fuel grid model sfield (Some e0) p = ok out ->
  returned out = None /\ callers_efield out = Some (field_conjugate e0).
Proof.
  intros Hv Hs Hl. unfold solver. rewrite Hv. simpl bind.
  destruct (MGParameters_fresh _ _ Hv) as (Ht & _). simpl in Ht. rewrite Ht.
  apply Qltb_ge in Hl. rewrite Hl. cbn [negb].
  destruct (sslsolver (cfg v)) as [name |]; [| contradiction].
  match goal with
  | |- context [run_krylov ?A ?M ?cb ?r ?st] =>
      destruct (run_krylov A M cb r st) as [[[x i] st'] stat]
  end.
  intros H. inversion H; subst; clear H. simpl. split; [| reflexivity].
  now destruct stat.
Qed.

(** BiCGSTAB preconditioned with the F-cycle on a 4 x 4 x 4 grid. *)
Definition bicgstab_444 : Params :=
  {| p_verb := 2; p_cycle := Some "F"; p_sslsolver := inl PyTrue;
     p_linerelaxation := PyFalse; p_semicoarsening := PyFalse;
     p_vnC := (4, 4, 4);
     p_tol := (1 # 1000000)%Q; p_maxit := 50;
     p_nu_init := 0; p_nu_pre := 2; p_nu_coarse := 1; p_nu_post := 2;
     p_clevel := (-1) |}.

(** An initial field with one imaginary entry on an inner x-edge. *)
Definition imaginary_guess : Field :=
  {| fx := let '(nx, ny, nz) := vnEx grid444 in
           mk nx ny nz (fun i j k =>
             if (i =? 1) && (j =? 1) && (k =? 1) then (0%Q, 1%Q) else c0);
     fy := np_zeros (vnEy grid444);
     fz := np_zeros (vnEz grid444) |}.

(** C4 (where the code departs from its documentation).  [solver] is handed a
    field and uses BiCGSTAB: the Krylov solver finds the solution
    (residual norm 0), yet nothing is returned and the caller's field is
    left as the conjugate of the initial guess: it was conjugated once,
    and the solution never reaches it. *)
Theorem krylov_result_not_stored :
  match solver simple_kernels 10 grid444 (unit_model grid444)
          (unit_source grid444) (Some imaginary_guess) bicgstab_444 with
  | inr out =>
      returned out = None /\
      callers_efield out = Some (field_conjugate imaginary_guess) /\
      callers_efield out <> Some (field_conjugate (unit_source grid444)) /\
      callers_efield out <> Some imaginary_guess /\
      v_l2 (var (final out)) = 0%Q /\ finished out = Done
  | inl _ => False
  end.
Proof. vm_compute. repeat split; discriminate. Qed.

End SolverFacts.

(* ====================================================================== *)
(** * The two iteration limits of [MGParameters] *)
(* ====================================================================== *)

Module ParameterFacts.
Import Solver FrameFacts.
Local Open Scope string_scope.
Local Open Scope list_scope.
Local Open Scope nat_scope.

(** The limit of the Krylov solver read as the longest of the two direction
    cycles, whenever multigrid is its preconditioner. *)
Definition outer_maxit_as_stated : Prop :=
  forall (p : Params) (v : Var) (rcycle lcycle : list nat) (rc lc : bool),
    MGParameters p = ok v ->
    directions "semicoarsening" 3 [1; 2; 3] (p_semicoarsening p)
      = ok (rcycle, rc) ->
    directions "linerelaxation" 7 [4; 5; 6] (p_linerelaxation p)
      = ok (lcycle, lc) ->
    sslsolver (cfg v) <> None -> cycle (cfg v) <> None ->
    ssl_maxit (cfg v) = Z.of_nat (Nat.max (length rcycle) (length lcycle)).

(** BiCGSTAB preconditioned with the F-cycle, 8 x 8 x 8 cells, the default
    [maxit] of 50. *)
Definition bicgstab_F : Params :=
  with_vnC (8, 8, 8)
  {| p_verb := 2; p_cycle := Some "F"; p_sslsolver := inl PyTrue;
     p_linerelaxation := PyFalse; p_semicoarsening := PyFalse;
     p_vnC := (0, 0, 0);
     p_tol := (1 # 1000000)%Q; p_maxit := 50;
     p_nu_init := 0; p_nu_pre := 2; p_nu_coarse := 1; p_nu_post := 2;
     p_clevel := (-1) |}.

(** C8 (as amended).  With a Krylov solver and a multigrid cycle, the limit
    handed to the Krylov solver ([ssl_maxit]) is the user's [maxit], and the
    limit of the multigrid preconditioner ([maxit]) is the longer of the
    two direction cycles; with a Krylov solver alone both are the user's
    [maxit]; without a Krylov solver multigrid runs under the user's
    [maxit]. *)
Theorem maxit_of_MGParameters (p : Params) (v : Var) :
  MGParameters p = ok v ->
  exists rcycle lcycle rc lc,
    directions "semicoarsening" 3 [1; 2; 3] (p_semicoarsening p)
      = ok (rcycle, rc) /\
    directions "linerelaxation" 7 [4; 5; 6] (p_linerelaxation p)
      = ok (lcycle, lc) /\
    match sslsolver (cfg v), cycle (cfg v) with
    | Some _, Some _ =>
        ssl_maxit (cfg v) = p_maxit p /\
        maxit (cfg v) = Z.of_nat (Nat.max (length rcycle) (length lcycle))
    | Some _, None =>
        ssl_maxit (cfg v) = p_maxit p /\ maxit (cfg v) = p_maxit p
    | None, _ =>
        ssl_maxit (cfg v) = 0%Z /\ maxit (cfg v) = p_maxit p
    end.
Proof.
  unfold MGParameters. intros H.
  apply bind_ok in H. destruct H as [[rcycle rc] [Hr H]].
  destruct rc; cbv zeta beta iota in H;
  (apply bind_ok in H; destruct H as [[lcycle lc] [Hl H]];
   destruct lc; cbv zeta beta iota in H;
   (apply bind_ok in H; destruct H as [ssl [Hs H]];
    apply bind_ok in H; destruct H as [[] [Hc H]];
    apply bind_ok in H; destruct H as [[] [Hcs H]];
    apply bind_ok in H; destruct H as [m [Hm H]];
    do 4 eexists; split; [exact Hr | split; [exact Hl |]];
    inversion H; subst; clear H; simpl;
    destruct ssl, (p_cycle p); auto)).
Qed.

Lemma maxit_of_MGParameters_witness :
  match MGParameters bicgstab_F with
  | inr v =>
      exists rcycle lcycle rc lc,
        directions "semicoarsening" 3 [1; 2; 3] (p_semicoarsening bicgstab_F)
          = ok (rcycle, rc) /\
        directions "linerelaxation" 7 [4; 5; 6] (p_linerelaxation bicgstab_F)
          = ok (lcycle, lc) /\
        match sslsolver (cfg v), cycle (cfg v) with
        | Some _, Some _ =>
            ssl_maxit (cfg v) = p_maxit bicgstab_F /\
            maxit (cfg v)
              = Z.of_nat (Nat.max (length rcycle) (length lcycle))
        | Some _, None =>
            ssl_maxit (cfg v) = p_maxit bicgstab_F /\
            maxit (cfg v) = p_maxit bicgstab_F
        | None, _ =>
            ssl_maxit (cfg v) = 0%Z /\ maxit (cfg v) = p_maxit bicgstab_F
        end
  | inl _ => False
  end.
Proof.
  destruct (MGParameters bicgstab_F) as [e | v] eqn:E.
  - vm_compute in E. discriminate E.
  - apply (maxit_of_MGParameters bicgstab_F v E).
Defined.

(** C8 (as stated) fails: for BiCGSTAB with the F-cycle and [maxit = 50],
    both direction cycles have length one, and the Krylov solver is
    limited to 50 iterations, not to one. *)
Lemma outer_maxit_as_stated_fails : ~ outer_maxit_as_stated.
Proof.
  intros H.
  assert (E : exists v, MGParameters bicgstab_F = ok v).
  { eexists. vm_compute. reflexivity. }
  destruct E as [v E].
  specialize (H bicgstab_F v [0] [0] false false E eq_refl eq_refl).
  revert E H. vm_compute. intros E. inversion E; subst; clear E. simpl.
  intros H.
  assert (Some "bicgstab" <> None) as A1 by discriminate.
  assert (Some "F" <> None) as A2 by discriminate.
  specialize (H A1 A2). discriminate H.
Qed.

(** The values on that input: 50 for the Krylov solver, 1 for the
    preconditioner. *)
Example bicgstab_F_limits :
  match MGParameters bicgstab_F with
  | inr v => ssl_maxit (cfg v) = 50%Z /\ maxit (cfg v) = 1%Z
  | inl _ => False
  end.
Proof. vm_compute. split; reflexivity. Qed.

(** [solver] hands [ssl_maxit] to the Krylov solver: the call it makes on
    the small instance is the first entry of the log. *)
Example krylov_called_with_user_maxit :
  match solver simple_kernels 10 grid444 (unit_model grid444)
          (unit_source grid444) None bicgstab_F with
  | inr out => hd_error (log (final out)) = Some (EvKrylov "bicgstab" 50 true)
  | inl _ => False
  end.
Proof. vm_compute. reflexivity. Qed.

End ParameterFacts.

(* ====================================================================== *)
(** * Properties of the dicts and the calculus of the maps *)
(* ====================================================================== *)

Module MapsDictFacts.
Import Maps MapsDict MapsFacts.
Local Open Scope R_scope.

(** X1.  Every registered map comes back from its own dict, and it is
    registered under ["Map"] followed by its [name]. *)
Theorem from_dict_to_dict (k : string) (m : BaseMap) :
  In (k, m) MAPLIST ->
  from_dict (to_dict m) = inr m /\ k = ("Map" ++ name m)%string.
Proof.
  intros Hin. unfold MAPLIST in Hin. simpl in Hin.
  repeat (destruct Hin as [Hin | Hin];
          [ inversion Hin; subst; clear Hin; split; reflexivity | ]).
  contradiction.
Qed.

Lemma from_dict_to_dict_witness :
  from_dict (to_dict MapLnResistivity) = inr MapLnResistivity /\
  "MapLnResistivity"%string = ("Map" ++ name MapLnResistivity)%string.
Proof.
  apply (from_dict_to_dict "MapLnResistivity" MapLnResistivity).
  simpl. tauto.
Defined.

Lemma getitem_missing {A : Type} (d : list (string * A)) (k : string) :
  (forall v, ~ In (k, v) d) -> getitem d k = inl (KeyError k).
Proof.
  induction d as [| [k' v] d IH]; intros H; simpl.
  - reflexivity.
  - destruct (String.eqb k' k) eqn:E.
    + apply String.eqb_eq in E. subst k'. exfalso. apply (H v). now left.
    + apply IH. intros v' Hin. apply (H v'). now right.
Qed.

Lemma getitem_found {A : Type} (d : list (string * A)) (k : string) (v : A) :
  getitem d k = inr v -> In (k, v) d.
Proof.
  induction d as [| [k' v'] d IH]; simpl; intros H.
  - discriminate.
  - destruct (String.eqb k' k) eqn:E.
    + apply String.eqb_eq in E. inversion H. subst. now left.
    + right. now apply IH.
Qed.

(** X2.  [from_dict] fails with a [KeyError]: for the key ['name'] when the
    dict has none, and for the class name when no map is registered under
    it; whatever it returns is a registered map. *)
Theorem from_dict_errors (inp : dict) :
  ((forall v, ~ In ("name"%string, v) inp) ->
   from_dict inp = inl (KeyError "name")) /\
  (forall n, getitem inp "name" = inr n ->
     (forall m, ~ In (("Map" ++ n)%string, m) MAPLIST) ->
     from_dict inp = inl (KeyError ("Map" ++ n))) /\
  (forall m, from_dict inp = inr m -> exists k, In (k, m) MAPLIST).
Proof.
  unfold from_dict. repeat split.
  - intros H. now rewrite (getitem_missing inp "name" H).
  - intros n Hn H. rewrite Hn. now apply getitem_missing.
  - intros m. destruct (getitem inp "name") as [e | n]; [discriminate |].
    intros H. exists ("Map" ++ n)%string. now apply getitem_found.
Qed.

(** X3.  [forward] undoes [backward]: on every value for the identity and the
    logarithmic maps, on every value but zero for the resistivity. *)
Theorem forward_backward (k : string) (m : BaseMap) (x : R) :
  In (k, m) MAPLIST -> (k = "MapResistivity"%string -> x <> 0) ->
  forward m (backward m x) = x.
Proof.
  intros Hin Hx. unfold MAPLIST in Hin. simpl in Hin.
  pose proof ln10_pos as L.
  repeat (destruct Hin as [Hin | Hin];
          [ inversion Hin; subst; clear Hin; simpl | ]);
    try contradiction.
  - reflexivity.
  - unfold np_log10, pow10, Rpower. rewrite ln_exp. field. lra.
  - unfold np_log, np_exp. apply ln_exp.
  - specialize (Hx eq_refl). field. exact Hx.
  - unfold np_log10, pow10, Rpower.
    rewrite ln_one_over by apply exp_pos. rewrite ln_exp. field. lra.
  - unfold np_log, np_exp.
    rewrite ln_one_over by apply exp_pos. rewrite ln_exp. lra.
Qed.

Lemma forward_backward_witness :
  forward MapResistivity (backward MapResistivity 4) = 4.
Proof.
  apply (forward_backward "MapResistivity" MapResistivity 4).
  - simpl. tauto.
  - intros _. lra.
Defined.



Lemma derivable_pt_lim_ext (f g : R -> R) (x l l' : R) :
  (forall y, f y = g y) -> l = l' ->
  derivable_pt_lim f x l -> derivable_pt_lim g x l'.
Proof.
  intros E <- H eps Heps. destruct (H eps Heps) as [delta Hd].
  exists delta. intros h Hh Hlt. rewrite <- !E. now apply Hd.
Qed.

Lemma derivable_pt_lim_pow10 (x : R) :
  derivable_pt_lim pow10 x (pow10 x * ln 10).
Proof.
  unfold pow10, Rpower.
  apply (derivable_pt_lim_ext (comp exp (fun y => id y * ln 10)) _ x
           (exp (x * ln 10) * (1 * ln 10))).
  - intros y. reflexivity.
  - ring.
  - apply (derivable_pt_lim_comp (fun y => id y * ln 10) exp x (1 * ln 10)
             (exp (x * ln 10))).
    + apply derivable_pt_lim_scal_right. apply derivable_pt_lim_id.
    + unfold id. apply derivable_pt_lim_exp.
Qed.

Lemma derivable_pt_lim_neg (f : R -> R) (x l : R) :
  derivable_pt_lim f (- x) l -> derivable_pt_lim (fun y => f (- y)) x (- l).
Proof.
  intros H.
  apply (derivable_pt_lim_ext (comp f (- id)%F) _ x (l * - 1)).
  - intros y. reflexivity.
  - ring.
  - apply (derivable_pt_lim_comp (- id)%F f x (- 1) l).
    + apply derivable_pt_lim_opp. apply derivable_pt_lim_id.
    + exact H.
Qed.

Lemma derivable_pt_lim_inverse (x : R) :
  x <> 0 -> derivable_pt_lim (fun y => 1 / y) x (- ((1 / x) * (1 / x))).
Proof.
  intros Hx.
  apply (derivable_pt_lim_ext (fct_cte 1 / id)%F _ x
           ((0 * id x - 1 * fct_cte 1 x) / Rsqr (id x))).
  - intros y. reflexivity.
  - unfold id, fct_cte, Rsqr. field. exact Hx.
  - apply derivable_pt_lim_div.
    + apply derivable_pt_lim_const.
    + apply derivable_pt_lim_id.
    + exact Hx.
Qed.

(** X5.  [derivative_chain] is the chain rule: it multiplies the gradient with
    the derivative of [backward] at the mapped value (for the resistivity
    away from zero, where [backward] has a derivative). *)
Theorem derivative_chain_rule (k : string) (m : BaseMap) (x : R) :
  In (k, m) MAPLIST -> (k = "MapResistivity"%string -> x <> 0) ->
  exists d,
    derivable_pt_lim (backward m) x d /\
    forall gradient, derivative_chain m gradient x = gradient * d.
Proof.
  intros Hin Hx. unfold MAPLIST in Hin. simpl in Hin.
  repeat (destruct Hin as [Hin | Hin];
          [ inversion Hin; subst; clear Hin; simpl | ]);
    try contradiction.
  - exists 1. split; [apply derivable_pt_lim_id | intros g; ring].
  - exists (pow10 x * ln 10). split; [apply derivable_pt_lim_pow10 |].
    intros g. reflexivity.
  - exists (exp x). split; [apply derivable_pt_lim_exp |].
    intros g. reflexivity.
  - exists (- ((1 / x) * (1 / x))).
    split; [apply derivable_pt_lim_inverse; now apply Hx |].
    intros g. reflexivity.
  - exists (- (pow10 (- x) * ln 10)). split.
    + apply derivable_pt_lim_neg. apply derivable_pt_lim_pow10.
    + intros g. unfold np_log. ring.
  - exists (- exp (- x)). split.
    + apply derivable_pt_lim_neg. apply derivable_pt_lim_exp.
    + intros g. reflexivity.
Qed.

Lemma derivative_chain_rule_witness :
  exists d,
    derivable_pt_lim (backward MapResistivity) 2 d /\
    forall gradient, derivative_chain MapResistivity gradient 2 = gradient * d.
Proof.
  apply (derivative_chain_rule "MapResistivity" MapResistivity 2).
  - simpl. tauto.
  - intros _. lra.
Defined.

End MapsDictFacts.

(* ====================================================================== *)
(** * solver.py: what [MGParameters] accepts and what it sets up *)
(* ====================================================================== *)

Module SettingsFacts.
Import Solver FrameFacts DirectionFacts.
Local Open Scope string_scope.
Local Open Scope list_scope.
Local Open Scope nat_scope.

(** ** The checks of [__post_init__] *)







Lemma max_level_accepts (n : nat * nat * nat) (olevel : Z) :
  (exists m, max_level n olevel = ok m) <->
  2 <= fst (fst n) /\ 2 <= snd (fst n) /\ 2 <= snd n.
Proof.
  destruct n as [[n0 n1] n2]. unfold max_level. cbn [fst snd].
  destruct ((n0 <? 2) || (n1 <? 2) || (n2 <? 2)) eqn:E.
  - split; [intros [m H]; discriminate |].
    intros (H0 & H1 & H2).
    apply orb_true_iff in E. destruct E as [E | E];
      [apply orb_true_iff in E; destruct E as [E | E] |];
      apply Nat.ltb_lt in E; lia.
  - split; [| intros _; eexists; reflexivity].
    intros _. apply orb_false_iff in E. destruct E as [E E2].
    apply orb_false_iff in E. destruct E as [E0 E1].
    apply Nat.ltb_ge in E0, E1, E2. lia.
Qed.



(** ** The coarsest grid *)

Lemma halvable_even (n : nat) :
  halvable n = true -> n = 2 * (n / 2) /\ 2 <= n / 2 /\ n / 2 < n.
Proof.
  unfold halvable. intros H. apply andb_true_iff in H. destruct H as [E L].
  apply Nat.eqb_eq in E. apply Nat.ltb_lt in L.
  pose proof (Nat.div_mod_eq n 2) as D. rewrite E in D.
  assert (n / 2 < n) by (apply Nat.div_lt; lia).
  repeat split; lia.
Qed.

(** Halving [halvings n] times is exact, and leaves a number that cannot
    be halved again. *)
Lemma halvings_exact (n : nat) :
  n = n / 2 ^ halvings n * 2 ^ halvings n /\
  halvable (n / 2 ^ halvings n) = false.
Proof.
  induction n as [n IH] using (well_founded_induction lt_wf).
  destruct (halvable n) eqn:E.
  - rewrite (halvings_halvable n E).
    destruct (halvable_even n E) as (He & H2 & Hlt).
    destruct (IH (n / 2) Hlt) as (I1 & I2).
    rewrite Nat.pow_succ_r'. rewrite <- Nat.Div0.div_div.
    split; [| exact I2]. lia.
  - rewrite (halvings_not_halvable n E).
    rewrite Nat.pow_0_r, Nat.div_1_r. split; [lia | exact E].
Qed.

(** Halving fewer times is exact as well, and leaves an even number. *)
Lemma halvings_partial (n c : nat) :
  c <= halvings n ->
  n = n / 2 ^ c * 2 ^ c /\
  (c < halvings n -> halvable (n / 2 ^ c) = true).
Proof.
  revert n. induction c as [| c IH]; intros n Hc.
  - rewrite Nat.pow_0_r, Nat.div_1_r. split; [lia |].
    intros H. apply halvings_pos. exact H.
  - assert (E : halvable n = true) by (apply halvings_pos; lia).
    rewrite (halvings_halvable n E) in Hc.
    destruct (halvable_even n E) as (He & H2 & Hlt).
    destruct (IH (n / 2) ltac:(lia)) as (I1 & I2).
    rewrite Nat.pow_succ_r'. rewrite <- Nat.Div0.div_div.
    split; [lia |].
    intros H. apply I2. rewrite (halvings_halvable n E) in H. lia.
Qed.

Lemma not_halvable_ge2 (n c : nat) :
  2 <= n -> c <= halvings n -> 2 <= n / 2 ^ c.
Proof.
  revert n. induction c as [| c IH]; intros n Hn Hc.
  - now rewrite Nat.pow_0_r, Nat.div_1_r.
  - assert (E : halvable n = true) by (apply halvings_pos; lia).
    rewrite (halvings_halvable n E) in Hc.
    destruct (halvable_even n E) as (He & H2 & Hlt).
    rewrite Nat.pow_succ_r'. rewrite <- Nat.Div0.div_div.
    apply IH; lia.
Qed.

(** The level of one axis, as [max_level] restricts it to the user's
    [clevel]. *)
Definition axis_level (olevel : Z) (n : nat) : nat :=
  if (-1 <? olevel)%Z && (olevel <? Z.of_nat (halvings n))%Z
  then Z.to_nat olevel else halvings n.

Lemma axis_level_le (olevel : Z) (n : nat) : axis_level olevel n <= halvings n.
Proof.
  unfold axis_level. destruct (_ && _) eqn:E; [| lia].
  apply andb_true_iff in E. destruct E as [E1 E2].
  apply Z.ltb_lt in E1, E2. lia.
Qed.

Lemma axis_level_user (olevel : Z) (n : nat) :
  (0 <= olevel)%Z -> axis_level olevel n <= Z.to_nat olevel.
Proof.
  intros H. unfold axis_level. destruct (_ && _) eqn:E; [lia |].
  apply andb_false_iff in E. destruct E as [E | E].
  - apply Z.ltb_ge in E. lia.
  - apply Z.ltb_ge in E. lia.
Qed.

Lemma axis_level_auto (olevel : Z) (n : nat) :
  (olevel < 0)%Z -> axis_level olevel n = halvings n.
Proof.
  intros H. unfold axis_level.
  destruct (-1 <? olevel)%Z eqn:E; [| reflexivity].
  apply Z.ltb_lt in E. lia.
Qed.

(** X7.  What [max_level] stores: along each axis the number of cells is the
    number of cells of the coarsest grid times two to the level of the
    axis, exactly; the coarsest grid has at least two cells along each
    axis; with the automatic [clevel] no axis of the coarsest grid can be
    halved again, and a [clevel] given by the user bounds every level. *)
Theorem coarsest_grid (p : Params) (v : Var) :
  MGParameters p = ok v ->
  let '(nC, (sx, sy, sz), (c0, c1, c2), _) := pclevel (cfg v) in
  let '(n0, n1, n2) := p_vnC p in
  n0 = sx * 2 ^ c0 /\ n1 = sy * 2 ^ c1 /\ n2 = sz * 2 ^ c2 /\
  2 <= sx /\ 2 <= sy /\ 2 <= sz /\ nC = sx * sy * sz /\
  clevel (cfg v) = [max3 c0 c1 c2; Nat.max c1 c2; Nat.max c0 c2; Nat.max c0 c1] /\
  ((p_clevel p < 0)%Z ->
   halvable sx = false /\ halvable sy = false /\ halvable sz = false) /\
  ((0 <= p_clevel p)%Z ->
   Forall (fun c => c <= Z.to_nat (p_clevel p)) (clevel (cfg v))).
Proof.
  intros H.
  assert (M : exists m, max_level (p_vnC p) (p_clevel p) = ok m /\
                        clevel (cfg v) = fst m /\ pclevel (cfg v) = snd m).
  { unfold MGParameters in H.
    apply bind_ok in H. destruct H as [[rcycle rc] [Hr H]].
    destruct rc; cbv zeta beta iota in H;
    (apply bind_ok in H; destruct H as [[lcycle lc] [Hl H]];
     destruct lc; cbv zeta beta iota in H;
     (apply bind_ok in H; destruct H as [ssl [Hs H]];
      apply bind_ok in H; destruct H as [[] [Hc H]];
      apply bind_ok in H; destruct H as [[] [Hcs H]];
      apply bind_ok in H; destruct H as [m [Hm H]];
      exists m; inversion H; subst; clear H; simpl; now repeat split)). }
  destruct M as (m & Hm & Hcl & Hpc). rewrite Hpc, Hcl. clear Hpc Hcl H.
  destruct (proj1 (max_level_accepts _ _) (ex_intro _ m Hm)) as (G0 & G1 & G2).
  destruct (p_vnC p) as [[n0 n1] n2]. cbn [fst snd] in G0, G1, G2.
  unfold max_level in Hm.
  fold (axis_level (p_clevel p) n0) in Hm.
  fold (axis_level (p_clevel p) n1) in Hm.
  fold (axis_level (p_clevel p) n2) in Hm.
  destruct (_ || _) in Hm; [discriminate |].
  inversion Hm; subst m; clear Hm. cbn [fst snd].
  pose proof (axis_level_le (p_clevel p) n0) as L0.
  pose proof (axis_level_le (p_clevel p) n1) as L1.
  pose proof (axis_level_le (p_clevel p) n2) as L2.
  split; [apply (halvings_partial n0 _ L0) |].
  split; [apply (halvings_partial n1 _ L1) |].
  split; [apply (halvings_partial n2 _ L2) |].
  split; [now apply not_halvable_ge2 |].
  split; [now apply not_halvable_ge2 |].
  split; [now apply not_halvable_ge2 |].
  split; [reflexivity |].
  split; [reflexivity |].
  split.
  - intros Hneg. rewrite !axis_level_auto by assumption.
    repeat split; apply halvings_exact.
  - intros Hpos.
    pose proof (axis_level_user (p_clevel p) n0 Hpos).
    pose proof (axis_level_user (p_clevel p) n1 Hpos).
    pose proof (axis_level_user (p_clevel p) n2 Hpos).
    unfold max3. repeat constructor; lia.
Qed.

(** 48 x 40 x 6 cells with the automatic [clevel]: levels 4, 3 and 1 over
    a coarsest grid of 3 x 5 x 3 cells. *)
Definition F_48_40_6 : Params := with_vnC (48, 40, 6) default_params.

Lemma coarsest_grid_witness :
  match MGParameters F_48_40_6 with
  | inr v =>
      let '(nC, (sx, sy, sz), (c0, c1, c2), _) := pclevel (cfg v) in
      let '(n0, n1, n2) := p_vnC F_48_40_6 in
      n0 = sx * 2 ^ c0 /\ n1 = sy * 2 ^ c1 /\ n2 = sz * 2 ^ c2 /\
      2 <= sx /\ 2 <= sy /\ 2 <= sz /\ nC = sx * sy * sz /\
      clevel (cfg v)
        = [max3 c0 c1 c2; Nat.max c1 c2; Nat.max c0 c2; Nat.max c0 c1] /\
      ((p_clevel F_48_40_6 < 0)%Z ->
       halvable sx = false /\ halvable sy = false /\ halvable sz = false) /\
      ((0 <= p_clevel F_48_40_6)%Z ->
       Forall (fun c => c <= Z.to_nat (p_clevel F_48_40_6)) (clevel (cfg v)))
  | inl _ => False
  end.
Proof.
  destruct (MGParameters F_48_40_6) as [e | v] eqn:E.
  - vm_compute in E. discriminate E.
  - apply (coarsest_grid F_48_40_6 v E).
Defined.

Example coarsest_grid_48_40_6 :
  match MGParameters F_48_40_6 with
  | inr v => pclevel (cfg v) = (45, (3, 5, 3), (4, 3, 1), false) /\
             clevel (cfg v) = [4; 3; 4; 4]
  | inl _ => False
  end.
Proof. vm_compute. split; reflexivity. Qed.

(** ** The schedule of the directions *)















Lemma str_digits_nonempty (n : Z) : str_digits n <> [].
Proof.
  unfold str_digits. destruct (Z.abs_N n) as [| q]; [discriminate |].
  cbn [N.to_uint]. pose proof (Unsigned.to_uint_nonnil q) as H.
  destruct (Pos.to_uint q); [congruence | discriminate ..].
Qed.

Lemma directions_nonempty (what : string) (top : nat) (dflt : list nat)
    (x : flag) (c : list nat) (b : bool) :
  dflt <> [] -> directions what top dflt x = ok (c, b) -> c <> [].
Proof.
  intros Hd. unfold directions. destruct x as [| | n].
  - intros H. inversion H. now subst.
  - intros H. inversion H. discriminate.
  - destruct (_ && _); [intros H; inversion H; discriminate |].
    destruct (existsb _ _); [discriminate |].
    intros H. inversion H. subst. apply str_digits_nonempty.
Qed.




End SettingsFacts.

(* ====================================================================== *)
(** * solver.py: a solve returns *)
(* ====================================================================== *)

Module ReturnFacts.
Import Solver ArrayFacts FrameFacts PecFacts DirectionFacts CycleFacts
  SettingsFacts.
Local Open Scope string_scope.
Local Open Scope list_scope.
Local Open Scope nat_scope.

(** ** Shapes *)

(** The three arrays of a field have the shapes of the edges of [grid]. *)
Definition shaped (grid : TensorMesh) (f : Field) : Prop :=
  shape (fx f) = vnEx grid /\ shape (fy f) = vnEy grid /\
  shape (fz f) = vnEz grid.

Lemma shape_np_zeros (sh : nat * nat * nat) : shape (np_zeros sh) = sh.
Proof. now destruct sh as [[nx ny] nz]. Qed.

Lemma shaped_zeros (grid : TensorMesh) : shaped grid (Field_zeros grid).
Proof.
  unfold shaped, Field_zeros. cbn [fx fy fz].
  now rewrite !shape_np_zeros.
Qed.

Lemma shaped_write_inner (grid : TensorMesh) (t v : Field) :
  shaped grid t -> shaped grid (write_inner t v).
Proof.
  intros (Hx & Hy & Hz). unfold shaped, write_inner. simpl.
  now rewrite !shape_keep_outer.
Qed.

Lemma shape_zero_outer (ax : bool * bool * bool) (a : Arr3) :
  shape (zero_outer ax a) = shape a.
Proof. unfold zero_outer. now destruct (shape a) as [[nx ny] nz]. Qed.

Lemma shaped_ensure_pec (grid : TensorMesh) (f : Field) :
  shaped grid f -> shaped grid (ensure_pec f).
Proof.
  intros (Hx & Hy & Hz). unfold shaped, ensure_pec. simpl.
  now rewrite !shape_zero_outer.
Qed.

Lemma shape_amap (f : C -> C) (a : Arr3) : shape (amap f a) = shape a.
Proof. reflexivity. Qed.

Lemma shaped_conjugate (grid : TensorMesh) (f : Field) :
  shaped grid f -> shaped grid (field_conjugate f).
Proof. intros H. exact H. Qed.

Lemma shaped_smoothing (K : Kernels) (grid : TensorMesh) (model : Model)
    (sfield efield : Field) (nu : Z) (ldir : nat) :
  shaped grid efield ->
  shaped grid (fst (smoothing K grid model sfield efield nu ldir)).
Proof.
  intros H. unfold smoothing.
  repeat match goal with
  | |- context [if ?b then _ else _] => destruct b
  end; simpl; repeat apply shaped_write_inner; exact H.
Qed.

(** ** [prolongation] stays within the fine field *)

Lemma for_range_ok (P : Arr3 -> Prop) (ics : list nat)
    (body : nat -> Arr3 -> result Arr3) (a : Arr3) :
  (forall ic a, In ic ics -> P a -> exists a', body ic a = ok a' /\ P a') ->
  P a -> exists a', for_range ics body a = ok a' /\ P a'.
Proof.
  revert a. induction ics as [| ic rest IH]; intros a Hb Ha; simpl.
  - now exists a.
  - destruct (Hb ic a (or_introl eq_refl) Ha) as (a1 & E1 & P1).
    rewrite E1. cbn [bind]. unfold ok at 1. cbn [bind].
    apply IH; [| exact P1].
    intros ic' a' Hin. apply Hb. now right.
Qed.

Lemma add_plane_x_ok (a : Arr3) (i0 : nat) (hh : nat -> nat -> C) :
  i0 < fst (fst (shape a)) ->
  exists a', add_plane_x a i0 hh = ok a' /\ shape a' = shape a.
Proof.
  unfold add_plane_x. destruct (shape a) as [[nx ny] nz]. cbn [fst].
  intros H. apply Nat.ltb_lt in H. rewrite H. eexists. split; reflexivity.
Qed.

Lemma add_plane_y_ok (a : Arr3) (j0 : nat) (hh : nat -> nat -> C) :
  j0 < snd (fst (shape a)) ->
  exists a', add_plane_y a j0 hh = ok a' /\ shape a' = shape a.
Proof.
  unfold add_plane_y. destruct (shape a) as [[nx ny] nz]. cbn [fst snd].
  intros H. apply Nat.ltb_lt in H. rewrite H. eexists. split; reflexivity.
Qed.

Lemma add_plane_z_ok (a : Arr3) (k0 : nat) (hh : nat -> nat -> C) :
  k0 < snd (shape a) ->
  exists a', add_plane_z a k0 hh = ok a' /\ shape a' = shape a.
Proof.
  unfold add_plane_z. destruct (shape a) as [[nx ny] nz]. cbn [snd].
  intros H. apply Nat.ltb_lt in H. rewrite H. eexists. split; reflexivity.
Qed.

(** The planes [prolongation] adds to along one axis: two for each coarse
    index when the axis was halved, one otherwise. *)
Lemma planes_ok (add : Arr3 -> nat -> (nat -> nat -> C) -> result Arr3)
    (len : Arr3 -> nat) (halved : bool) (nc n : nat)
    (hh : nat -> nat -> nat -> C) (a : Arr3) (sh : nat * nat * nat) :
  (forall a i0 h, shape a = sh -> i0 < n ->
     exists a', add a i0 h = ok a' /\ shape a' = sh) ->
  nc * (if halved then 2 else 1) <= n ->
  shape a = sh ->
  exists a',
    for_range (seq 0 nc) (fun ic a =>
      if halved
      then a' <- add a (2 * ic) (hh ic) ;; add a' (2 * ic + 1) (hh ic)
      else add a ic (hh ic)) a = ok a' /\ shape a' = sh.
Proof.
  intros Hadd Hn Ha.
  apply (for_range_ok (fun a => shape a = sh)); [| exact Ha].
  intros ic a0 Hin Ha0. apply in_seq in Hin.
  destruct halved.
  - destruct (Hadd a0 (2 * ic) (hh ic) Ha0 ltac:(lia)) as (a1 & E1 & S1).
    rewrite E1. unfold ok at 1. cbn [bind].
    apply Hadd; [exact S1 | lia].
  - apply Hadd; [exact Ha0 | lia].
Qed.

(** [prolongation] returns, and the field keeps its shapes, when the fine
    field has the shapes of the fine grid and the coarse cells, doubled
    along the halved axes, fit into the fine grid. *)
Lemma prolongation_fits (K : Kernels) (grid : TensorMesh) (efield : Field)
    (cgrid : TensorMesh) (cefield : Field) (rdir : nat) :
  shaped grid efield ->
  nCx cgrid * fst (fst (steps rdir)) <= nCx grid ->
  nCy cgrid * snd (fst (steps rdir)) <= nCy grid ->
  nCz cgrid * snd (steps rdir) <= nCz grid ->
  exists e,
    prolongation K grid efield cgrid cefield rdir = ok e /\ shaped grid e.
Proof.
  intros (Sx & Sy & Sz) Hx Hy Hz. unfold steps in Hx, Hy, Hz.
  cbn [fst snd] in Hx, Hy, Hz. unfold prolongation.
  destruct (planes_ok add_plane_x (fun a => fst (fst (shape a)))
              (negb (inb rdir [1; 5; 6])) (nCx cgrid) (nCx grid)
              (fun ixc =>
                 RegularGridInterpolator K (vectorNy cgrid) (vectorNz cgrid)
                   (fun j k => get (fx cefield) ixc j k)
                   (vectorNy grid) (vectorNz grid))
              (fx efield) (vnEx grid)) as (ax & Ex & Shx).
  { intros a i0 h Ha Hi. rewrite <- Ha. apply add_plane_x_ok.
    rewrite Ha. exact Hi. }
  { destruct (inb rdir [1; 5; 6]); cbn [negb]; lia. }
  { exact Sx. }
  destruct (planes_ok add_plane_y (fun a => snd (fst (shape a)))
              (negb (inb rdir [2; 4; 6])) (nCy cgrid) (nCy grid)
              (fun iyc =>
                 RegularGridInterpolator K (vectorNx cgrid) (vectorNz cgrid)
                   (fun i k => get (fy cefield) i iyc k)
                   (vectorNx grid) (vectorNz grid))
              (fy efield) (vnEy grid)) as (ay & Ey & Shy).
  { intros a i0 h Ha Hi. rewrite <- Ha. apply add_plane_y_ok.
    rewrite Ha. exact Hi. }
  { destruct (inb rdir [2; 4; 6]); cbn [negb]; lia. }
  { exact Sy. }
  destruct (planes_ok add_plane_z (fun a => snd (shape a))
              (negb (inb rdir [3; 4; 5])) (nCz cgrid) (nCz grid)
              (fun izc =>
                 RegularGridInterpolator K (vectorNx cgrid) (vectorNy cgrid)
                   (fun i j => get (fz cefield) i j izc)
                   (vectorNx grid) (vectorNy grid))
              (fz efield) (vnEz grid)) as (az & Ez & Shz).
  { intros a i0 h Ha Hi. rewrite <- Ha. apply add_plane_z_ok.
    rewrite Ha. exact Hi. }
  { destruct (inb rdir [3; 4; 5]); cbn [negb]; lia. }
  { exact Sz. }
  cbv zeta. rewrite Ex. unfold ok at 1. cbn [bind].
  rewrite Ey. unfold ok at 1. cbn [bind].
  rewrite Ez. unfold ok at 1. cbn [bind].
  eexists. split; [reflexivity |].
  apply shaped_ensure_pec. now repeat split.
Qed.

(** The coarse grid of [restriction] fits, whatever the direction. *)
Lemma restriction_fits (K : Kernels) (grid : TensorMesh) (model : Model)
    (sfield res : Field) (rdir : nat) :
  let cgrid := fst (fst (fst (restriction K grid model sfield res rdir))) in
  nCx cgrid * fst (fst (steps rdir)) <= nCx grid /\
  nCy cgrid * snd (fst (steps rdir)) <= nCy grid /\
  nCz cgrid * snd (steps rdir) <= nCz grid.
Proof.
  cbv zeta.
  pose proof (vnC_restriction K grid model sfield res rdir) as H.
  set (cg := fst (fst (fst (restriction K grid model sfield res rdir)))) in *.
  assert (Hx : nCx cg = nCx grid / fst (fst (steps rdir)))
    by (change (nCx cg) with (fst (fst (vnC cg))); now rewrite H).
  assert (Hy : nCy cg = nCy grid / snd (fst (steps rdir)))
    by (change (nCy cg) with (snd (fst (vnC cg))); now rewrite H).
  assert (Hz : nCz cg = nCz grid / snd (steps rdir))
    by (change (nCz cg) with (snd (vnC cg)); now rewrite H).
  rewrite Hx, Hy, Hz.
  destruct (steps_one_or_two rdir) as (Rx & Ry & Rz).
  repeat split; apply Nat.Div0.mul_div_le || (rewrite Nat.mul_comm;
    apply Nat.Div0.mul_div_le).
Qed.

Lemma prolongation_after_restriction (K : Kernels)
    (grid : TensorMesh) (model : Model) (sfield res efield cefield : Field)
    (rdir : nat) :
  shaped grid efield ->
  exists e,
    prolongation K grid efield
      (fst (fst (fst (restriction K grid model sfield res rdir))))
      cefield rdir = ok e /\
    shaped grid e /\ PEC e.
Proof.
  intros H.
  destruct (restriction_fits K grid model sfield res rdir) as (Hx & Hy & Hz).
  destruct (prolongation_fits K grid efield _ cefield rdir H Hx Hy Hz)
    as (e & E & S).
  exists e. split; [exact E | split; [exact S |]].
  exact (PEC_prolongation K grid efield _ cefield rdir e E).
Qed.



(** ** The loops of [multigrid] come to an end *)

Lemma restriction_cefield (K : Kernels) (grid : TensorMesh) (model : Model)
    (sfield res : Field) (rdir : nat) :
  shaped (fst (fst (fst (restriction K grid model sfield res rdir))))
    (snd (restriction K grid model sfield res rdir)).
Proof.
  unfold restriction. destruct (steps rdir) as [[rx ry] rz]. cbn [fst snd].
  apply shaped_zeros.
Qed.

Lemma shaped_smoothing_eq (K : Kernels) (grid : TensorMesh) (model : Model)
    (sfield efield : Field) (nu : Z) (ldir : nat) (e : Field)
    (ev : list event) :
  smoothing K grid model sfield efield nu ldir = (e, ev) ->
  shaped grid efield -> shaped grid e.
Proof.
  intros E H. change e with (fst (e, ev)). rewrite <- E.
  now apply shaped_smoothing.
Qed.

(** A recursive call on level [lv] that returns, for every [var] with the
    configuration [c] whose coarsest level is [cl]. *)
Definition returns_on (self : mg_call) (lv cl : nat) (c : Config) : Prop :=
  forall g m sf e st ncm,
    cfg (var st) = c -> clevel_rdir (var st) = cl -> (ncm <= 2)%Z ->
    shaped g e ->
    snd (self g m sf e st lv ncm) = Done.

Lemma cycle_body_done (K : Kernels) (self : mg_call)
    (grid : TensorMesh) (model : Model) (sfield : Field)
    (level : nat) (cycmax : Z) (s : Loop) :
  (level <> clevel_rdir (var (l_st s)) ->
   returns_on self (level + 1) (clevel_rdir (var (l_st s)))
     (cfg (var (l_st s)))) ->
  (cycmax - l_cyc s <= 2)%Z ->
  shaped grid (l_efield s) ->
  exists s',
    cycle_body K self grid model sfield level cycmax s = (s', Done) /\
    shaped grid (l_efield s') /\
    l_it s' = (l_it s + 1)%Z /\ l_cyc s' = l_cyc s.
Proof.
  intros Hsub Hcyc Hsh. unfold cycle_body.
  destruct (level =? clevel_rdir (var (l_st s))) eqn:El.
  - destruct (smoothing K grid model sfield (l_efield s)
                (nu_coarse (cfg (var (l_st s)))) (v_ldir (var (l_st s))))
      as [e ev] eqn:Es.
    eexists. split; [reflexivity |]. cbn [l_efield l_it l_cyc].
    split; [| split; reflexivity].
    exact (shaped_smoothing_eq _ _ _ _ _ _ _ _ _ Es Hsh).
  - apply Nat.eqb_neq in El. specialize (Hsub El).
    set (pre := if (0 <? nu_pre (cfg (var (l_st s))))%Z
                then smoothing K grid model sfield (l_efield s)
                       (nu_pre (cfg (var (l_st s)))) (v_ldir (var (l_st s)))
                else (l_efield s, [])).
    assert (Hpre : shaped grid (fst pre)).
    { subst pre. destruct (0 <? nu_pre _)%Z; [| exact Hsh].
      now apply shaped_smoothing. }
    destruct pre as [e ev]. cbn [fst] in Hpre.
    set (res := residual K grid model sfield e).
    set (rdir := get_rdir grid (var (l_st s))).
    pose proof (fun ce => prolongation_after_restriction K grid model
                  sfield res e ce rdir Hpre) as P.
    pose proof (restriction_cefield K grid model sfield res rdir) as Z0.
    destruct (restriction K grid model sfield res rdir)
      as [[[cgrid cmodel] csfield] cefield] eqn:Er.
    cbn [fst snd] in P, Z0.
    set (st1 := emit [EvRestriction level (vnC grid) rdir] (emit ev (l_st s))).
    pose proof (Hsub cgrid cmodel csfield cefield st1
                  (cycmax - l_cyc s)%Z eq_refl eq_refl Hcyc Z0) as D.
    destruct (self cgrid cmodel csfield cefield st1 (level + 1)
                (cycmax - l_cyc s)%Z) as [[ce st2] stat].
    cbn [snd] in D. subst stat.
    destruct (P ce) as (e' & Ep & Sp & _). rewrite Ep. unfold ok.
    set (st3 := upd (append_level level)
                  (emit [EvProlongation level rdir] st2)).
    set (post := if (0 <? nu_post (cfg (var st3)))%Z
                 then smoothing K grid model sfield e'
                        (nu_post (cfg (var st3))) (v_ldir (var st3))
                 else (e', [])).
    assert (Hpost : shaped grid (fst post)).
    { subst post. destruct (0 <? nu_post _)%Z; [| exact Sp].
      now apply shaped_smoothing. }
    destruct post as [e2 ev2]. cbn [fst] in Hpost.
    eexists. split; [reflexivity |]. cbn [l_efield l_it l_cyc].
    split; [exact Hpost | split; reflexivity].
Qed.

Lemma frame_clevel_rdir (b : bool) (v v' : Var) :
  frame b v v' -> cfg v' = cfg v /\ clevel_rdir v' = clevel_rdir v.
Proof.
  intros (F1 & _ & F3 & _). unfold clevel_rdir. now rewrite F1, F3.
Qed.

(** Below the original grid the loop makes at most [cycmax] passes. *)
Lemma mg_loop_done_below (K : Kernels) (self : mg_call) (n : nat)
    (grid : TensorMesh) (model : Model) (sfield : Field)
    (level : nat) (cycmax : Z) (l2_refe l2_init : Q) (s : Loop) :
  framed self -> 0 < level ->
  (level <> clevel_rdir (var (l_st s)) ->
   returns_on self (level + 1) (clevel_rdir (var (l_st s)))
     (cfg (var (l_st s)))) ->
  (cycmax <= 2)%Z -> (0 <= l_cyc s)%Z ->
  shaped grid (l_efield s) ->
  Z.to_nat (cycmax - l_it s) < n ->
  exists s',
    mg_loop K self n grid model sfield level cycmax l2_refe l2_init s
      = (s', Done) /\
    shaped grid (l_efield s').
Proof.
  intros Hfr Hlv. revert s.
  induction n as [| n IH]; intros s Hsub Hc Hcyc Hsh Hn; [lia |].
  cbn [mg_loop].
  assert (E0 : (level =? 0) = false) by (apply Nat.eqb_neq; lia).
  assert (E1 : (0 <? level) = true) by (apply Nat.ltb_lt; lia).
  rewrite E0, E1. cbn [orb andb].
  destruct (l_it s <? cycmax)%Z eqn:Eit; cbn [negb].
  - apply Z.ltb_lt in Eit.
    pose proof (cycle_body_frame K self grid model sfield level cycmax s Hfr)
      as F.
    destruct (cycle_body_done K self grid model sfield level cycmax s Hsub
                ltac:(lia) Hsh) as (s' & Eb & Sb & Ib & Cb).
    rewrite Eb in *. cbn [fst] in F.
    apply frame_clevel_rdir in F. destruct F as (Fc & Fl).
    apply IH; cbn [l_st l_cyc l_efield l_it].
    + rewrite Fc, Fl. exact Hsub.
    + exact Hc.
    + lia.
    + exact Sb.
    + lia.
  - now exists s.
Qed.

Lemma termination_continue (v : Var) (it : Z) (a b c d : Q) :
  termination v it a b c d = Continue -> it <> maxit (cfg v).
Proof.
  unfold termination. intros H E. apply Z.eqb_eq in E. rewrite E in H.
  repeat match type of H with
  | match ?x with _ => _ end = _ => destruct x; try discriminate
  end.
Qed.

Lemma cfg_advance_cycles (v : Var) : cfg (advance_cycles v) = cfg v.
Proof.
  unfold advance_cycles. destruct (v_rcycle v), (v_lcycle _); reflexivity.
Qed.

Lemma clevel_rdir_le (v : Var) : clevel_rdir v <= list_max (clevel (cfg v)).
Proof.
  unfold clevel_rdir. generalize (v_rdir v). generalize (clevel (cfg v)).
  intros l. induction l as [| x l IH]; intros i.
  - destruct i; simpl; lia.
  - destruct i as [| i]; cbn [nth list_max fold_right].
    + fold (list_max l). lia.
    + fold (list_max l). specialize (IH i). lia.
Qed.

(** One pass on the original grid counts one cycle in [var.it]. *)
Lemma cycle_body_counts (K : Kernels) (self : mg_call)
    (grid : TensorMesh) (model : Model) (sfield : Field)
    (cycmax : Z) (s s' : Loop) :
  framed self ->
  cycle_body K self grid model sfield 0 cycmax s = (s', Done) ->
  v_it (var (l_st s')) = (v_it (var (l_st s)) + 1)%Z.
Proof.
  intros Hself. unfold cycle_body. cbn [Nat.eqb].
  repeat break_inner; intros E; inversion E; subst; clear E;
    cbn [l_st upd var emit set_it v_it];
    repeat match goal with
    | E : self ?g ?m ?sf ?e ?st ?lv ?ncm = (_, _, _) |- _ =>
        let F := fresh "F" in
        pose proof (Hself g m sf e st lv ncm ltac:(lia)) as F; rewrite E in F;
        cbn [fst snd] in F; clear E;
        destruct F as (_ & _ & _ & _ & _ & _ & _ & _ & F);
        specialize (F eq_refl)
    | E : (_, _) = (_, _) |- _ => inversion E; subst; clear E
    end;
    unfold append_level; repeat break_inner;
    cbn [l_st upd var emit set_it v_it set_level_all] in *; congruence.
Qed.

Lemma v_it_advance_cycles (v : Var) : v_it (advance_cycles v) = v_it v.
Proof.
  unfold advance_cycles. destruct (v_rcycle v), (v_lcycle _); reflexivity.
Qed.

Lemma termination_break_silent (v : Var) (it : Z) (a b c d : Q)
    (msg : option string) :
  sslsolver (cfg v) <> None -> termination v it a b c d = Break msg ->
  it = maxit (cfg v) /\ msg = None.
Proof.
  unfold termination. intros Hs. destruct (sslsolver (cfg v)); [| congruence].
  destruct (it =? maxit (cfg v))%Z eqn:E; [| discriminate].
  apply Z.eqb_eq in E. intros H. inversion H. now split.
Qed.

(** On the original grid the loop makes at most [maxit] passes, each of
    them counted in [var.it]; as a preconditioner it makes all of them. *)
Lemma mg_loop_done_top (K : Kernels) (self : mg_call) (n : nat)
    (grid : TensorMesh) (model : Model) (sfield : Field)
    (cycmax : Z) (l2_refe l2_init : Q) (c : Config) (s : Loop) :
  framed self ->
  (forall cl, 0 < cl <= list_max (clevel c) -> returns_on self 1 cl c) ->
  cfg (var (l_st s)) = c ->
  (cycmax <= 2)%Z -> (0 <= l_cyc s)%Z ->
  shaped grid (l_efield s) ->
  (l_it s < maxit c)%Z ->
  Z.to_nat (maxit c - l_it s) <= n ->
  exists s',
    mg_loop K self n grid model sfield 0 cycmax l2_refe l2_init s
      = (s', Done) /\
    shaped grid (l_efield s') /\ cfg (var (l_st s')) = c /\
    (l_it s < l_it s' <= maxit c)%Z /\
    (v_it (var (l_st s')) - v_it (var (l_st s)) = l_it s' - l_it s)%Z /\
    (sslsolver c <> None -> l_it s' = maxit c).
Proof.
  intros Hfr Hsub. revert s.
  induction n as [| n IH]; intros s Hcfg Hc Hcyc Hsh Hit Hn; [lia |].
  cbn [mg_loop]. cbn [Nat.eqb orb negb Nat.ltb Nat.leb].
  pose proof (cycle_body_frame K self grid model sfield 0 cycmax s Hfr) as F.
  destruct (cycle_body_done K self grid model sfield 0 cycmax s) as
    (s' & Eb & Sb & Ib & Cb); [| lia | exact Hsh |].
  { intros Hne. rewrite Hcfg. apply Hsub.
    pose proof (clevel_rdir_le (var (l_st s))) as L. rewrite Hcfg in L. lia. }
  pose proof (cycle_body_counts K self grid model sfield cycmax s s' Hfr Eb)
    as Vb.
  rewrite Eb in *. cbn [fst] in F.
  apply frame_clevel_rdir in F. destruct F as (Fc & _).
  set (st1 := if (2 <? verb (cfg (var (l_st s'))))%Z &&
                 v_first_cycle (var (l_st s'))
              then upd (set_level_all (Some [0])) (l_st s') else l_st s').
  assert (C1 : cfg (var st1) = c /\ v_it (var st1) = v_it (var (l_st s'))).
  { subst st1. destruct (_ && _); cbn; split; congruence. }
  destruct C1 as (C1 & V1).
  assert (C2 : cfg (var (upd advance_cycles st1)) = c /\
               v_it (var (upd advance_cycles st1)) = v_it (var (l_st s'))).
  { cbn [upd var]. now rewrite cfg_advance_cycles, v_it_advance_cycles. }
  destruct C2 as (C2 & V2).
  destruct (termination (var (upd advance_cycles st1)) (l_it s')
              (l_l2_last s') l2_init (l_l2_prev s') l2_refe) as [| msg] eqn:T.
  - apply termination_continue in T. rewrite C2 in T.
    match goal with
    | |- context [mg_loop K self n grid model sfield 0 cycmax l2_refe
                    l2_init ?s0] =>
        destruct (IH s0) as (s2 & E2 & S2 & K2 & I2 & W2 & P2)
    end; cbn [l_st l_cyc l_efield l_it]; try assumption; try lia.
    cbn [l_st l_it] in I2, W2.
    exists s2. split; [exact E2 |]. split; [exact S2 |]. split; [exact K2 |].
    split; [lia |]. split; [| exact P2].
    cbn [upd var set_first_cycle v_it] in W2. cbn [upd var] in V2. lia.
  - eexists. split; [reflexivity |]. cbn [l_efield l_st l_it].
    split; [exact Sb |].
    assert (Fin : forall st, st = match msg with
                       | Some m0 => if (1 <? verb (cfg (var (upd advance_cycles st1))))%Z
                                    then emit [EvPrint m0] (upd advance_cycles st1)
                                    else upd advance_cycles st1
                       | None => upd advance_cycles st1
                       end ->
              cfg (var st) = c /\ v_it (var st) = v_it (var (l_st s'))).
    { intros st ->. destruct msg as [m0 |]; [destruct (1 <? _)%Z |];
        cbn [emit var]; now split. }
    destruct (Fin _ eq_refl) as (Fc2 & Fv2).
    split; [exact Fc2 |]. split; [lia |]. split; [rewrite Fv2; lia |].
    intros Hs.
    destruct (termination_break_silent _ _ _ _ _ _ _
                ltac:(rewrite C2; exact Hs) T) as (Em & _).
    now rewrite C2 in Em.
Qed.

Lemma get_cycmax_le2 (v : Var) (lv : nat) (ncm : Z) :
  (cycmax (cfg v) <= 2)%Z -> (ncm <= 2)%Z ->
  (get_cycmax v lv ncm <= 2)%Z /\
  (lv = clevel_rdir v -> get_cycmax v lv ncm = 1%Z).
Proof.
  intros H1 H2. unfold get_cycmax. split.
  - destruct (lv =? clevel_rdir v); [lia |].
    destruct (_ || _); assumption.
  - intros ->. now rewrite Nat.eqb_refl.
Qed.

(** Below the original grid, [multigrid] returns when the fuel covers the
    levels still to go and three more. *)
Lemma multigrid_returns_below (K : Kernels) (fuel : nat) :
  forall lv cl c, 0 < lv -> lv <= cl -> cl - lv + 3 <= fuel ->
    (cycmax c <= 2)%Z -> returns_on (multigrid K fuel) lv cl c.
Proof.
  induction fuel as [| f IH]; intros lv cl c Hlv Hle Hf Hc; [lia |].
  intros g m sf e st ncm Hcfg Hcl Hn Hsh.
  cbn [multigrid].
  assert (E0 : (lv =? 0) = false) by (apply Nat.eqb_neq; lia).
  rewrite E0. cbn [andb].
  destruct (get_cycmax_le2 (var st) lv ncm ltac:(now rewrite Hcfg) Hn)
    as (G1 & G2).
  assert (Hfuel : Z.to_nat (get_cycmax (var st) lv ncm - 0) < f).
  { destruct (Nat.eq_dec lv cl) as [El | El].
    - rewrite G2 by congruence. lia.
    - rewrite Z.sub_0_r. lia. }
  match goal with
  | |- context [mg_loop K ?self ?n ?gg ?mm ?sff ?l ?cm ?r ?i ?s0] =>
      assert (T : cfg (var (l_st s0)) = cfg (var st) /\
                  clevel_rdir (var (l_st s0)) = clevel_rdir (var st))
        by (cbn [l_st]; destruct (_ && _); now split);
      destruct T as (T1 & T2);
      assert (Hsub : l <> clevel_rdir (var (l_st s0)) ->
                returns_on self (l + 1) (clevel_rdir (var (l_st s0)))
                  (cfg (var (l_st s0))))
        by (intros Hne; rewrite T1, T2, Hcfg, Hcl; rewrite T2, Hcl in Hne;
            apply IH; try assumption; lia);
      destruct (mg_loop_done_below K self n gg mm sff l cm r i s0
                  (multigrid_framed K f) Hlv Hsub G1 ltac:(cbn; lia) Hsh Hfuel)
        as (s' & E & S)
  end.
  rewrite E. reflexivity.
Qed.

(** On the original grid: enough fuel for [maxit] passes and for the
    levels below. *)
Lemma multigrid_done_top (K : Kernels) (fuel : nat) (g : TensorMesh)
    (m : Model) (sf e : Field) (st : St) (ncm : Z) :
  (cycmax (cfg (var st)) <= 2)%Z -> (ncm <= 2)%Z ->
  (1 <= maxit (cfg (var st)))%Z -> shaped g e ->
  Z.to_nat (maxit (cfg (var st))) + list_max (clevel (cfg (var st))) + 3
    <= fuel ->
  snd (multigrid K fuel g m sf e st 0 ncm) = Done /\
  shaped g (fst (fst (multigrid K fuel g m sf e st 0 ncm))) /\
  cfg (var (snd (fst (multigrid K fuel g m sf e st 0 ncm)))) = cfg (var st) /\
  (1 <= v_it (var (snd (fst (multigrid K fuel g m sf e st 0 ncm))))
        - v_it (var st) <= maxit (cfg (var st)))%Z /\
  (sslsolver (cfg (var st)) <> None ->
   (v_it (var (snd (fst (multigrid K fuel g m sf e st 0 ncm))))
      - v_it (var st) = maxit (cfg (var st)))%Z).
Proof.
  intros Hc Hn Hm Hsh Hf. destruct fuel as [| f]; [lia |].
  cbn [multigrid]. cbn [Nat.eqb andb].
  destruct (get_cycmax_le2 (var st) 0 ncm Hc Hn) as (G1 & _).
  set (st0 := emit [EvMultigrid 0 (vnC g) ncm (get_cycmax (var st) 0 ncm)] st).
  set (st1 := if (2 <? verb (cfg (var st)))%Z && v_first_cycle (var st)
              then upd (fun v => set_level_all
                                   (option_map (fun l => l ++ [0])
                                      (v_level_all v)) v)
                     (upd (set_level_all (Some [])) st0)
              else st0).
  assert (T1 : cfg (var st1) = cfg (var st) /\ v_it (var st1) = v_it (var st))
    by (subst st1 st0; destruct (_ && _); split; reflexivity).
  destruct T1 as (T1 & U1).
  set (ini := if (0 <? nu_init (cfg (var st)))%Z
              then
                let '(e0, ev) :=
                  smoothing K g m sf e (nu_init (cfg (var st)))
                    (v_ldir (var st)) in
                (e0, norm K (residual K g m sf e0), emit ev st1)
              else (e, norm K (residual K g m sf e), st1)).
  assert (I : shaped g (fst (fst ini)) /\
              cfg (var (snd ini)) = cfg (var st) /\
              v_it (var (snd ini)) = v_it (var st)).
  { subst ini. destruct (0 <? nu_init _)%Z;
      [| cbn [fst snd]; split; [exact Hsh | split; assumption]].
    pose proof (shaped_smoothing K g m sf e (nu_init (cfg (var st)))
                  (v_ldir (var st)) Hsh) as S.
    destruct (smoothing K g m sf e _ _) as [e0 ev]. cbn [fst snd] in *.
    split; [exact S | split; assumption]. }
  destruct ini as [[e1 l2] st2]. cbn [fst snd] in I.
  destruct I as (I1 & I2 & I3).
  match goal with
  | |- context [mg_loop K ?self ?n ?gg ?mm ?sff 0 ?cm ?r ?i ?s0] =>
      destruct (mg_loop_done_top K self n gg mm sff cm r i (cfg (var st)) s0
                  (multigrid_framed K f))
        as (s' & E & S & C & N1 & N2 & N3)
  end; cbn [l_st l_cyc l_efield l_it]; try assumption; try lia.
  - intros cl Hcl. apply multigrid_returns_below; try assumption; lia.
  - rewrite E. cbn [fst snd]. cbn [l_st l_it] in N1, N2.
    split; [reflexivity | split; [exact S |]].
    cbn [upd var set_l2 cfg v_it].
    split; [exact C |]. split; [lia |].
    intros Hs. specialize (N3 Hs). lia.
Qed.

(** X10.  A multigrid solve returns: with the settings of [MGParameters], a
    [maxit] of at least one and a field that has the shapes of the grid,
    [multigrid] comes back with a field of these shapes, raising nothing,
    as soon as the fuel covers [maxit] cycles and the coarsest level. *)
Theorem multigrid_returns (K : Kernels) (fuel : nat) (grid : TensorMesh)
    (model : Model) (sfield efield : Field) (p : Params) (v : Var) :
  MGParameters p = ok v -> (1 <= maxit (cfg v))%Z ->
  shaped grid efield ->
  Z.to_nat (maxit (cfg v)) + list_max (clevel (cfg v)) + 3 <= fuel ->
  snd (multigrid K fuel grid model sfield efield {| var := v; log := [] |}
         0 0%Z) = Done /\
  shaped grid
    (fst (fst (multigrid K fuel grid model sfield efield
                 {| var := v; log := [] |} 0 0%Z))).
Proof.
  intros Hv Hm Hsh Hf.
  destruct (MGParameters_cycmax p v Hv) as (_ & Hc).
  assert (Hc2 : (cycmax (cfg v) <= 2)%Z).
  { rewrite Hc. destruct (p_cycle p) as [c |]; [| lia].
    destruct (str_in c _); lia. }
  destruct (multigrid_done_top K fuel grid model sfield efield
              {| var := v; log := [] |} 0%Z Hc2 ltac:(lia) Hm Hsh Hf)
    as (D & S & _).
  now split.
Qed.

Lemma multigrid_returns_witness :
  match MGParameters (with_vnC (vnC grid444) default_params) with
  | inr v =>
      snd (multigrid simple_kernels 60 grid444 (unit_model grid444)
             (unit_source grid444) (Field_zeros grid444)
             {| var := v; log := [] |} 0 0%Z) = Done /\
      shaped grid444
        (fst (fst (multigrid simple_kernels 60 grid444 (unit_model grid444)
                     (unit_source grid444) (Field_zeros grid444)
                     {| var := v; log := [] |} 0 0%Z)))
  | inl _ => False
  end.
Proof.
  destruct (MGParameters (with_vnC (vnC grid444) default_params))
    as [e | v] eqn:E.
  - vm_compute in E. discriminate E.
  - apply (multigrid_returns simple_kernels 60 grid444 (unit_model grid444)
             (unit_source grid444) (Field_zeros grid444)
             (with_vnC (vnC grid444) default_params) v E).
    + vm_compute in E. inversion E. vm_compute. discriminate.
    + apply shaped_zeros.
    + vm_compute in E. inversion E. vm_compute. lia.
Defined.

(** ** [solver] finishes *)

(** The limit of multigrid: the user's [maxit] when it is the solver, the
    longer of the two direction cycles (at least one) when it is the
    preconditioner. *)
Lemma MGParameters_maxit (p : Params) (v : Var) :
  MGParameters p = ok v ->
  (cycmax (cfg v) <= 2)%Z /\
  (sslsolver (cfg v) = None -> maxit (cfg v) = p_maxit p) /\
  (sslsolver (cfg v) <> None -> cycle (cfg v) <> None ->
   (1 <= maxit (cfg v))%Z).
Proof.
  intros H.
  destruct (MGParameters_cycmax p v H) as (_ & Hc).
  split.
  { rewrite Hc. destruct (p_cycle p) as [c |]; [| lia].
    destruct (str_in c _); lia. }
  unfold MGParameters in H.
  apply bind_ok in H. destruct H as [[rcycle rc] [Hr H]].
  pose proof (directions_nonempty "semicoarsening" 3 [1; 2; 3] _ _ _
                ltac:(discriminate) Hr) as Nr.
  assert (L : 1 <= length rcycle)
    by (destruct rcycle; [congruence | simpl; lia]).
  destruct rc; cbv zeta beta iota in H;
  (apply bind_ok in H; destruct H as [[lcycle lc] [Hl H]];
   destruct lc; cbv zeta beta iota in H;
   (apply bind_ok in H; destruct H as [ssl [Hs H]];
    apply bind_ok in H; destruct H as [[] [Hcs H]];
    apply bind_ok in H; destruct H as [[] [Hcy H]];
    apply bind_ok in H; destruct H as [m [Hm H]];
    inversion H; subst; clear H; cbn [cfg sslsolver cycle maxit];
    split;
    [ intros ->; reflexivity
    | intros N1 N2; destruct ssl; [| congruence];
      destruct (p_cycle p); [lia | congruence] ])).
Qed.

Lemma shaped_Field_of (grid : TensorMesh) (x : Field) :
  shaped grid (Field_of grid x).
Proof.
  unfold Field_of, inplace_field, shaped. cbn [fx fy fz].
  unfold inplace, Field_zeros. cbn [fx fy fz].
  rewrite !shape_np_zeros.
  destruct (vnEx grid) as [[? ?] ?], (vnEy grid) as [[? ?] ?],
           (vnEz grid) as [[? ?] ?]. now repeat split.
Qed.

(** A Krylov run ends when the calls it makes end. *)
Lemma run_krylov_done (Inv : St -> Prop) (A : Field -> Field)
    (M : option (Field -> St -> Field * St * status))
    (cb : Field + Q -> St -> St) (r : KrylovRun) (st : St) :
  (forall x st, Inv st -> Inv (cb x st)) ->
  (forall m b st, M = Some m -> Inv st ->
     snd (m b st) = Done /\ Inv (snd (fst (m b st)))) ->
  Inv st ->
  snd (run_krylov A M cb r st) = Done /\
  Inv (snd (fst (run_krylov A M cb r st))).
Proof.
  intros Hcb HM. revert st.
  induction r as [x info | w k IH | b k IH | x k IH]; intros st Hst;
    cbn [run_krylov].
  - now split.
  - apply IH. exact Hst.
  - destruct M as [m |].
    + destruct (HM m b st eq_refl Hst) as (D & I).
      destruct (m b st) as [[e st'] stat]. cbn [fst snd] in D, I. subst stat.
      apply IH. exact I.
    + apply IH. exact Hst.
  - apply IH. apply Hcb. exact Hst.
Qed.

(** X11.  [solver] finishes: for valid settings, a [maxit] of at least one when
    multigrid is the solver, and an initial field (if one is given) with
    the shapes of the grid, it returns without raising anything once the
    fuel covers [maxit] multigrid cycles and the coarsest level, whether
    multigrid, a Krylov solver or both are at work. *)
Theorem solver_finishes (K : Kernels) (fuel : nat) (grid : TensorMesh)
    (model : Model) (sfield : Field) (efield : option Field) (p : Params)
    (v : Var) :
  MGParameters (with_vnC (vnC grid) p) = ok v ->
  (sslsolver (cfg v) = None -> (1 <= p_maxit p)%Z) ->
  (forall e0, efield = Some e0 -> shaped grid e0) ->
  Z.to_nat (maxit (cfg v)) + list_max (clevel (cfg v)) + 3 <= fuel ->
  exists out,
    solver K fuel grid model sfield efield p = ok out /\
    finished out = Done.
Proof.
  intros Hv Hmax Hsh Hf.
  destruct (MGParameters_maxit _ v Hv) as (Hc & M1 & M2).
  cbn [p_maxit with_vnC] in M1.
  unfold solver. rewrite Hv. unfold ok at 1. cbn [bind].
  set (st0 := {| var := v; log := [] |}).
  set (ini := match efield with
              | Some e0 =>
                  (field_conjugate e0,
                   negb (Qltb (norm K (residual K grid model sfield
                                         (field_conjugate e0)))
                           (tol (cfg v) * norm K sfield)%Q),
                   false,
                   upd (set_l2 (norm K (residual K grid model sfield
                                          (field_conjugate e0)))) st0)
              | None => (Field_zeros grid, true, true, st0)
              end).
  assert (I : shaped grid (fst (fst (fst ini))) /\
              cfg (var (snd ini)) = cfg v).
  { subst ini. destruct efield as [e0 |]; cbn [fst snd].
    - split; [| reflexivity]. apply shaped_conjugate. now apply Hsh.
    - split; [apply shaped_zeros | reflexivity]. }
  destruct ini as [[[e do_run] do_return] st1]. cbn [fst snd] in I.
  destruct I as (I1 & I2).
  destruct do_run; [| eexists; split; reflexivity].
  destruct (sslsolver (cfg v)) as [name |] eqn:Es.
  - set (M := match cycle (cfg v) with
              | Some _ => Some (fun b st => mg_matvec K fuel grid model b st)
              | None => None
              end).
    match goal with
    | |- context [run_krylov ?A M ?cb ?r ?s0] =>
        destruct (run_krylov_done (fun st => cfg (var st) = cfg v)
                    A M cb r s0) as (D & _)
    end.
    + intros x st Hst. unfold callback.
      destruct (2 <? _)%Z; [destruct x |]; cbn; exact Hst.
    + intros m b st Em Hst. subst M.
      destruct (cycle (cfg v)) as [cy |] eqn:Ec; [| discriminate].
      inversion Em; subst m; clear Em. unfold mg_matvec.
      destruct (multigrid_done_top K fuel grid model (Field_of grid b)
                  (Field_zeros grid) st 0%Z) as (D1 & _ & C1 & _).
      * now rewrite Hst.
      * lia.
      * rewrite Hst. apply M2; congruence.
      * apply shaped_zeros.
      * now rewrite Hst.
      * destruct (multigrid K fuel grid model (Field_of grid b)
                    (Field_zeros grid) st 0 0%Z) as [[e' st'] stat].
        cbn [fst snd] in D1, C1. subst stat. cbn [fst snd].
        split; [reflexivity |]. cbn. congruence.
    + cbn [emit var]. exact I2.
    + match goal with
      | |- context [run_krylov ?A M ?cb ?r ?st] =>
          destruct (run_krylov A M cb r st) as [[[x i] st'] stat]
      end.
      cbn [snd] in D. subst stat. eexists. split; reflexivity.
  - destruct (multigrid_done_top K fuel grid model sfield e st1 0%Z)
      as (D1 & _ & _).
    + now rewrite I2.
    + lia.
    + rewrite I2, (M1 eq_refl). now apply Hmax.
    + exact I1.
    + now rewrite I2.
    + destruct (multigrid K fuel grid model sfield e st1 0 0%Z)
        as [[e' st'] stat].
      cbn [snd] in D1. subst stat. eexists. split; reflexivity.
Qed.

(** GMRES preconditioned with the V-cycle. *)
Definition gmres_V : Params :=
  {| p_verb := 3; p_cycle := Some "V"; p_sslsolver := inr "gmres";
     p_linerelaxation := PyFalse; p_semicoarsening := PyFalse;
     p_vnC := (0, 0, 0);
     p_tol := (1 # 1000000)%Q; p_maxit := 50;
     p_nu_init := 0; p_nu_pre := 2; p_nu_coarse := 1; p_nu_post := 2;
     p_clevel := (-1) |}.

Lemma solver_finishes_witness :
  match MGParameters (with_vnC (vnC grid444) gmres_V) with
  | inr v =>
      exists out,
        solver simple_kernels 10 grid444 (unit_model grid444)
          (unit_source grid444) None gmres_V = ok out /\
        finished out = Done
  | inl _ => False
  end.
Proof.
  destruct (MGParameters (with_vnC (vnC grid444) gmres_V)) as [e | v] eqn:E.
  - vm_compute in E. discriminate E.
  - apply (solver_finishes simple_kernels 10 grid444 (unit_model grid444)
             (unit_source grid444) None gmres_V v E).
    + intros _. vm_compute. discriminate.
    + intros e0 H. discriminate H.
    + vm_compute in E. inversion E. vm_compute. lia.
Defined.

(** ** The number of cycles *)

(** X12.  A multigrid solve makes at least one and at most [maxit] cycles, and
    [var.it] counts them; as a preconditioner multigrid makes exactly
    [maxit] cycles, whatever the residual does. *)
Theorem cycles_within_maxit (K : Kernels) (fuel : nat) (grid : TensorMesh)
    (model : Model) (sfield efield : Field) (p : Params) (v : Var) :
  MGParameters p = ok v -> (1 <= maxit (cfg v))%Z ->
  shaped grid efield ->
  Z.to_nat (maxit (cfg v)) + list_max (clevel (cfg v)) + 3 <= fuel ->
  let st' := snd (fst (multigrid K fuel grid model sfield efield
                         {| var := v; log := [] |} 0 0%Z)) in
  (1 <= v_it (var st') <= maxit (cfg v))%Z /\
  (sslsolver (cfg v) <> None -> v_it (var st') = maxit (cfg v)).
Proof.
  intros Hv Hm Hsh Hf. cbv zeta.
  destruct (MGParameters_maxit p v Hv) as (Hc2 & _).
  destruct (SolverFacts.MGParameters_fresh p v Hv) as (_ & _ & V0 & _).
  destruct (multigrid_done_top K fuel grid model sfield efield
              {| var := v; log := [] |} 0%Z Hc2 ltac:(lia) Hm Hsh Hf)
    as (_ & _ & _ & N & P).
  cbn [var] in N, P. rewrite V0 in N, P. rewrite Z.sub_0_r in N, P.
  split; [exact N | exact P].
Qed.

(** BiCGSTAB preconditioned with the F-cycle and [semicoarsening=123]:
    three cycles per call of the preconditioner. *)
Definition bicgstab_F123 : Params :=
  {| p_verb := 2; p_cycle := Some "F"; p_sslsolver := inl PyTrue;
     p_linerelaxation := PyFalse; p_semicoarsening := PyInt 123;
     p_vnC := (4, 4, 4);
     p_tol := (1 # 1000000)%Q; p_maxit := 50;
     p_nu_init := 0; p_nu_pre := 2; p_nu_coarse := 1; p_nu_post := 2;
     p_clevel := (-1) |}.

Lemma cycles_within_maxit_witness :
  match MGParameters bicgstab_F123 with
  | inr v =>
      let st' := snd (fst (multigrid simple_kernels 10 grid444
                             (unit_model grid444) (unit_source grid444)
                             (Field_zeros grid444)
                             {| var := v; log := [] |} 0 0%Z)) in
      (1 <= v_it (var st') <= maxit (cfg v))%Z /\
      (sslsolver (cfg v) <> None -> v_it (var st') = maxit (cfg v))
  | inl _ => False
  end.
Proof.
  destruct (MGParameters bicgstab_F123) as [e | v] eqn:E.
  - vm_compute in E. discriminate E.
  - apply (cycles_within_maxit simple_kernels 10 grid444 (unit_model grid444)
             (unit_source grid444) (Field_zeros grid444) bicgstab_F123 v E).
    + vm_compute in E. inversion E. vm_compute. discriminate.
    + apply shaped_zeros.
    + vm_compute in E. inversion E. vm_compute. lia.
Defined.

Example preconditioner_three_cycles :
  match MGParameters bicgstab_F123 with
  | inr v =>
      v_it (var (snd (fst (multigrid simple_kernels 10 grid444
                             (unit_model grid444) (unit_source grid444)
                             (Field_zeros grid444)
                             {| var := v; log := [] |} 0 0%Z)))) = 3%Z
  | inl _ => False
  end.
Proof. vm_compute. reflexivity. Qed.

End ReturnFacts.

(* ====================================================================== *)
(** * solver.py: the coarse grid of [restriction] *)
(* ====================================================================== *)

Module CoarseGridFacts.
Import Solver DirectionFacts.
Local Open Scope list_scope.
Local Open Scope nat_scope.

(** The widths of a coarse axis, as they should be: the sums of
    neighbouring pairs of fine widths (a last width without neighbour is
    left out). *)
Fixpoint pair_sums (h : list Q) : list Q :=
  match h with
  | a :: b :: t => (a + b)%Q :: pair_sums t
  | _ => []
  end.

Lemma np_diff_nodes (o : Q) (h : list Q) :
  Forall2 Qeq (np_diff (nodes o h)) h.
Proof.
  revert o. induction h as [| w t IH]; intros o; [constructor |].
  cbn [nodes]. destruct t as [| w' t'].
  - cbn. constructor; [ring | constructor].
  - change (nodes (o + w)%Q (w' :: t'))
      with ((o + w)%Q :: nodes (o + w + w')%Q t') in *.
    cbn [np_diff]. constructor; [ring |].
    exact (IH (o + w)%Q).
Qed.

Lemma np_diff_every_second_nodes (h : list Q) :
  forall o, Forall2 Qeq (np_diff (every_second (nodes o h))) (pair_sums h).
Proof.
  induction h as [h IH] using (well_founded_induction
                                 (well_founded_ltof _ (@length Q))).
  intros o. destruct h as [| a [| b t]].
  - constructor.
  - constructor.
  - specialize (IH t ltac:(unfold ltof; simpl; lia) (o + a + b)%Q).
    cbn [nodes every_second pair_sums].
    destruct t as [| c t'].
    + cbn. constructor; [ring | constructor].
    + cbn [nodes every_second] in *.
      cbn [np_diff]. constructor; [ring |]. exact IH.
Qed.

Lemma coarse_widths (r : nat) (o : Q) (h : list Q) :
  Forall2 Qeq (np_diff (stride r (nodes o h)))
    (if r =? 1 then h else pair_sums h).
Proof.
  unfold stride. destruct (r =? 1).
  - apply np_diff_nodes.
  - apply np_diff_every_second_nodes.
Qed.

Lemma restriction_widths (K : Kernels) (grid : TensorMesh) (model : Model)
    (sfield res : Field) (rdir : nat) :
  let cgrid := fst (fst (fst (restriction K grid model sfield res rdir))) in
  x0 cgrid = x0 grid /\
  Forall2 Qeq (hx cgrid)
    (if inb rdir [1; 5; 6] then hx grid else pair_sums (hx grid)) /\
  Forall2 Qeq (hy cgrid)
    (if inb rdir [2; 4; 6] then hy grid else pair_sums (hy grid)) /\
  Forall2 Qeq (hz cgrid)
    (if inb rdir [3; 4; 5] then hz grid else pair_sums (hz grid)).
Proof.
  cbv zeta. unfold restriction, steps. cbn [fst snd hx hy hz x0].
  split; [reflexivity |].
  repeat split.
  - pose proof (coarse_widths (if inb rdir [1; 5; 6] then 1 else 2)
                  (fst (fst (x0 grid))) (hx grid)) as H.
    destruct (inb rdir [1; 5; 6]); exact H.
  - pose proof (coarse_widths (if inb rdir [2; 4; 6] then 1 else 2)
                  (snd (fst (x0 grid))) (hy grid)) as H.
    destruct (inb rdir [2; 4; 6]); exact H.
  - pose proof (coarse_widths (if inb rdir [3; 4; 5] then 1 else 2)
                  (snd (x0 grid)) (hz grid)) as H.
    destruct (inb rdir [3; 4; 5]); exact H.
Qed.

(** X13.  The coarse grid of [restriction] has the origin of the fine grid;
    along an axis that is not coarsened it has the widths of the fine
    grid, along a coarsened axis each of its widths is the sum of the two
    fine widths it covers. *)
Theorem restriction_grid (K : Kernels) (grid : TensorMesh) (model : Model)
    (sfield res : Field) (rdir : nat) :
  let cgrid := fst (fst (fst (restriction K grid model sfield res rdir))) in
  x0 cgrid = x0 grid /\
  Forall2 Qeq (hx cgrid)
    (if inb rdir [1; 5; 6] then hx grid else pair_sums (hx grid)) /\
  Forall2 Qeq (hy cgrid)
    (if inb rdir [2; 4; 6] then hy grid else pair_sums (hy grid)) /\
  Forall2 Qeq (hz cgrid)
    (if inb rdir [3; 4; 5] then hz grid else pair_sums (hz grid)).
Proof. apply restriction_widths. Qed.

(** The length of an axis: the sum of its widths. *)
Definition extent (h : list Q) : Q := fold_right Qplus 0%Q h.

Lemma extent_Forall2 (a b : list Q) :
  Forall2 Qeq a b -> (extent a == extent b)%Q.
Proof.
  induction 1 as [| x y a b Hxy _ IH]; cbn [extent fold_right].
  - reflexivity.
  - fold (extent a). fold (extent b). now rewrite Hxy, IH.
Qed.

Lemma extent_pair_sums (h : list Q) :
  Nat.even (length h) = true -> (extent (pair_sums h) == extent h)%Q.
Proof.
  induction h as [h IH] using (well_founded_induction
                                 (well_founded_ltof _ (@length Q))).
  destruct h as [| a [| b t]]; intros E.
  - reflexivity.
  - discriminate E.
  - cbn [pair_sums extent fold_right].
    fold (extent (pair_sums t)). fold (extent t).
    rewrite (IH t ltac:(unfold ltof; simpl; lia) E). ring.
Qed.

(** X14.  When every coarsened axis has an even number of cells, the coarse grid
    of [restriction] covers the domain of the fine grid: the widths along
    each axis add up to the same length. *)
Theorem restriction_extent (K : Kernels) (grid : TensorMesh) (model : Model)
    (sfield res : Field) (rdir : nat) :
  (inb rdir [1; 5; 6] = false -> Nat.even (nCx grid) = true) ->
  (inb rdir [2; 4; 6] = false -> Nat.even (nCy grid) = true) ->
  (inb rdir [3; 4; 5] = false -> Nat.even (nCz grid) = true) ->
  let cgrid := fst (fst (fst (restriction K grid model sfield res rdir))) in
  (extent (hx cgrid) == extent (hx grid))%Q /\
  (extent (hy cgrid) == extent (hy grid))%Q /\
  (extent (hz cgrid) == extent (hz grid))%Q.
Proof.
  intros Hx Hy Hz.
  destruct (restriction_widths K grid model sfield res rdir)
    as (_ & Gx & Gy & Gz).
  cbv zeta.
  set (cg := fst (fst (fst (restriction K grid model sfield res rdir)))) in *.
  apply extent_Forall2 in Gx, Gy, Gz.
  repeat split.
  - rewrite Gx. destruct (inb rdir [1; 5; 6]); [reflexivity |].
    apply extent_pair_sums. now apply Hx.
  - rewrite Gy. destruct (inb rdir [2; 4; 6]); [reflexivity |].
    apply extent_pair_sums. now apply Hy.
  - rewrite Gz. destruct (inb rdir [3; 4; 5]); [reflexivity |].
    apply extent_pair_sums. now apply Hz.
Qed.

Lemma restriction_extent_witness :
  let cgrid := fst (fst (fst (restriction simple_kernels grid444
                                (unit_model grid444) (unit_source grid444)
                                (unit_source grid444) 1))) in
  (extent (hx cgrid) == extent (hx grid444))%Q /\
  (extent (hy cgrid) == extent (hy grid444))%Q /\
  (extent (hz cgrid) == extent (hz grid444))%Q.
Proof.
  apply (restriction_extent simple_kernels grid444 (unit_model grid444)
           (unit_source grid444) (unit_source grid444) 1);
    intros _; reflexivity.
Defined.

(** ** The direction [multigrid] picks *)

(** An axis of [n] cells is free to be coarsened when [n] is even and at
    least 3 and the axis is not the one [var.rdir] (1, 2 or 3 for x, y or
    z) excludes. *)
Definition free (v : Var) (n axis : nat) : bool :=
  halvable n && negb (v_rdir v =? axis).

Lemma blocked_free (v : Var) (n axis : nat) :
  negb (n mod 2 =? 0) || (n <? 3) || (v_rdir v =? axis)
    = negb (free v n axis).
Proof.
  unfold free, halvable.
  assert (E : (n <? 3) = negb (2 <? n)).
  { destruct (2 <? n) eqn:E2.
    - apply Nat.ltb_lt in E2. apply Nat.ltb_ge. lia.
    - apply Nat.ltb_ge in E2. apply Nat.ltb_lt. lia. }
  rewrite E.
  destruct (n mod 2 =? 0), (2 <? n), (v_rdir v =? axis); reflexivity.
Qed.

Lemma get_rdir_free (grid : TensorMesh) (v : Var) :
  get_rdir grid v =
    if free v (nCx grid) 1 then
      if free v (nCy grid) 2 then (if free v (nCz grid) 3 then 0 else 3)
      else (if free v (nCz grid) 3 then 2 else 4)
    else
      if free v (nCy grid) 2 then (if free v (nCz grid) 3 then 1 else 5)
      else 6.
Proof.
  unfold get_rdir. rewrite !blocked_free.
  destruct (free v (nCx grid) 1), (free v (nCy grid) 2),
           (free v (nCz grid) 3); reflexivity.
Qed.

(** X15.  The direction of [multigrid] halves x exactly when x is free and y
    exactly when y is free; it halves z when z is free, and also when
    neither x nor y is free, whether z is free or not.  So every direction
    it picks halves at least one axis. *)
Theorem get_rdir_halves (grid : TensorMesh) (v : Var) :
  let '(rx, ry, rz) := steps (get_rdir grid v) in
  (rx = 2 <-> free v (nCx grid) 1 = true) /\
  (ry = 2 <-> free v (nCy grid) 2 = true) /\
  (rz = 2 <->
   free v (nCz grid) 3 = true \/
   (free v (nCx grid) 1 = false /\ free v (nCy grid) 2 = false)) /\
  (rx = 2 \/ ry = 2 \/ rz = 2).
Proof.
  rewrite get_rdir_free.
  destruct (free v (nCx grid) 1), (free v (nCy grid) 2),
           (free v (nCz grid) 3); cbn;
    intuition (try discriminate; try lia).
Qed.

(** Five cells along x, four along y and z, with [semicoarsening=3]: x
    cannot be halved, z is excluded, y is halved. *)
Example get_rdir_544 :
  get_rdir {| hx := [1; 1; 1; 1; 1]%Q; hy := [1; 1; 1; 1]%Q;
              hz := [1; 1; 1; 1]%Q; x0 := (0, 0, 0)%Q |}
    {| cfg := {| verb := 2; cycle := Some "F"%string; sslsolver := None;
                 linerelaxation := false; semicoarsening := true;
                 tol := 0; maxit := 50; nu_init := 0; nu_pre := 2;
                 nu_coarse := 1; nu_post := 2; clevel := [1; 1; 1; 1];
                 cycmax := 2; ssl_maxit := 0;
                 pclevel := (0, (0, 0, 0), (0, 0, 0), false) |};
       vnC_ := (5, 4, 4); v_level_all := None; v_first_cycle := true;
       v_it := 0; v_ssl_it := 0; v_l2 := 0; v_rcycle := None;
       v_lcycle := None; v_rdir := 3; v_ldir := 0 |} = 5.
Proof. reflexivity. Qed.

End CoarseGridFacts.

(* ====================================================================== *)
(** * Properties of the views of a field *)
(* ====================================================================== *)

Module FieldViewsFacts.
Import FieldViews.
Local Open Scope list_scope.
Local Open Scope nat_scope.

Definition size (sh : nat * nat * nat) : nat :=
  fst (fst sh) * snd (fst sh) * snd sh.

(** A grid and an array [_field] that fit: the array holds the x-edges,
    the y-edges and the z-edges, and there are z-edges. *)
Definition fits {A : Type} (grid : TensorMesh) (_field : list A) : Prop :=
  size (shape_edges_x grid) = n_edges_x grid /\
  size (shape_edges_z grid) = n_edges_z grid /\
  n_edges_x grid + size (shape_edges_y grid) + n_edges_z grid
    = length _field /\
  0 < n_edges_z grid.

Section Facts.
Variable A : Type.
Implicit Types (a v : list A) (grid : TensorMesh).

Lemma reshape_F_ok (x : list A) (sh : nat * nat * nat) :
  length x = size sh -> reshape_F x sh = inr {| shape := sh; ravel_F := x |}.
Proof.
  intros H. unfold reshape_F. destruct sh as [[nx ny] nz].
  unfold size in H. cbn [fst snd] in H. apply Nat.eqb_eq in H. now rewrite H.
Qed.

Lemma slice_index_neg (n i : nat) :
  0 < i -> slice_index n (- Z.of_nat i) = n - i.
Proof.
  intros H. unfold slice_index.
  assert (E : (- Z.of_nat i <? 0)%Z = true) by (apply Z.ltb_lt; lia).
  rewrite E. lia.
Qed.

Lemma slice_index_pos (n i : nat) : slice_index n (Z.of_nat i) = Nat.min i n.
Proof.
  unfold slice_index.
  assert (E : (Z.of_nat i <? 0)%Z = false) by (apply Z.ltb_ge; lia).
  rewrite E. now rewrite Nat2Z.id.
Qed.

(** The three slices, for an array that fits. *)
Lemma getslice_x grid a :
  fits grid a ->
  getslice a None (Some (Z.of_nat (n_edges_x grid)))
    = firstn (n_edges_x grid) a.
Proof.
  intros (_ & _ & L & _). unfold getslice, bounds.
  rewrite slice_index_pos. rewrite Nat.min_l by lia.
  now rewrite Nat.sub_0_r.
Qed.

Lemma getslice_y grid a :
  fits grid a ->
  getslice a (Some (Z.of_nat (n_edges_x grid)))
             (Some (- Z.of_nat (n_edges_z grid))%Z)
    = firstn (size (shape_edges_y grid)) (skipn (n_edges_x grid) a).
Proof.
  intros (_ & _ & L & P). unfold getslice, bounds.
  rewrite slice_index_pos, slice_index_neg by exact P.
  rewrite Nat.min_l by lia. f_equal. lia.
Qed.

Lemma getslice_z grid a :
  fits grid a ->
  getslice a (Some (- Z.of_nat (n_edges_z grid))%Z) None
    = skipn (n_edges_x grid + size (shape_edges_y grid)) a.
Proof.
  intros (_ & _ & L & P). unfold getslice, bounds.
  rewrite slice_index_neg by exact P.
  replace (length a - n_edges_z grid)
    with (n_edges_x grid + size (shape_edges_y grid)) by lia.
  apply firstn_all2. rewrite length_skipn. lia.
Qed.

Lemma tile a (n m : nat) :
  firstn n a ++ firstn m (skipn n a) ++ skipn (n + m) a = a.
Proof.
  rewrite <- (firstn_skipn n a) at 4. f_equal.
  rewrite Nat.add_comm, <- skipn_skipn. apply firstn_skipn.
Qed.

(** X16.  The views tile the field: [fx], [fy] and [fz] exist, have the shapes
    of the edges, and their entries, one view after the other, are the
    entries of [_field]. *)
Theorem views_tile grid a :
  fits grid a ->
  exists x y z,
    fx grid a = inr x /\ fy grid a = inr y /\ fz grid a = inr z /\
    shape x = shape_edges_x grid /\ shape y = shape_edges_y grid /\
    shape z = shape_edges_z grid /\
    ravel_F x ++ ravel_F y ++ ravel_F z = a.
Proof.
  intros F. pose proof F as (Sx & Sz & L & P).
  unfold fx, fy, fz. cbv zeta.
  rewrite (getslice_x grid a F), (getslice_y grid a F), (getslice_z grid a F).
  rewrite !reshape_F_ok.
  - do 3 eexists. repeat split; cbn [ravel_F]. apply tile.
  - rewrite ?length_firstn, ?length_skipn; lia.
  - rewrite ?length_firstn, ?length_skipn; lia.
  - rewrite ?length_firstn, ?length_skipn; lia.
Qed.

Lemma bounds_x grid a :
  fits grid a ->
  bounds (length a) None (Some (Z.of_nat (n_edges_x grid)))
    = (0, n_edges_x grid).
Proof.
  intros (_ & _ & L & _). unfold bounds. rewrite slice_index_pos.
  now rewrite Nat.min_l by lia.
Qed.

Lemma bounds_y grid a :
  fits grid a ->
  bounds (length a) (Some (Z.of_nat (n_edges_x grid)))
    (Some (- Z.of_nat (n_edges_z grid))%Z)
    = (n_edges_x grid, n_edges_x grid + size (shape_edges_y grid)).
Proof.
  intros (_ & _ & L & P). unfold bounds.
  rewrite slice_index_pos, slice_index_neg by exact P.
  rewrite Nat.min_l by lia. f_equal. lia.
Qed.

Lemma bounds_z grid a :
  fits grid a ->
  bounds (length a) (Some (- Z.of_nat (n_edges_z grid))%Z) None
    = (n_edges_x grid + size (shape_edges_y grid), length a).
Proof.
  intros (_ & _ & L & P). unfold bounds.
  rewrite slice_index_neg by exact P. f_equal. lia.
Qed.

Lemma firstn_app_exact (l1 l2 : list A) (n : nat) :
  length l1 = n -> firstn n (l1 ++ l2) = l1.
Proof.
  intros <-. rewrite firstn_app, Nat.sub_diag, firstn_all. cbn [firstn].
  apply app_nil_r.
Qed.

Lemma skipn_app_exact (l1 l2 : list A) (n : nat) :
  length l1 = n -> skipn n (l1 ++ l2) = l2.
Proof.
  intros <-. rewrite skipn_app, Nat.sub_diag, skipn_all. reflexivity.
Qed.

(** The field [x ++ y ++ z] with its three parts of the right lengths. *)
Lemma parts grid a :
  fits grid a ->
  exists x y z,
    a = x ++ y ++ z /\ length x = n_edges_x grid /\
    length y = size (shape_edges_y grid) /\ length z = n_edges_z grid.
Proof.
  intros (Sx & Sz & L & P).
  exists (firstn (n_edges_x grid) a),
         (firstn (size (shape_edges_y grid)) (skipn (n_edges_x grid) a)),
         (skipn (n_edges_x grid + size (shape_edges_y grid)) a).
  split; [symmetry; apply tile |].
  rewrite !length_firstn, !length_skipn. lia.
Qed.

Lemma fits_parts grid (x y z : list A) :
  size (shape_edges_x grid) = n_edges_x grid ->
  size (shape_edges_z grid) = n_edges_z grid ->
  0 < n_edges_z grid ->
  length x = n_edges_x grid -> length y = size (shape_edges_y grid) ->
  length z = n_edges_z grid ->
  fits grid (x ++ y ++ z) /\
  fx grid (x ++ y ++ z)
    = inr {| shape := shape_edges_x grid; ravel_F := x |} /\
  fy grid (x ++ y ++ z)
    = inr {| shape := shape_edges_y grid; ravel_F := y |} /\
  fz grid (x ++ y ++ z)
    = inr {| shape := shape_edges_z grid; ravel_F := z |}.
Proof.
  intros Sx Sz P Lx Ly Lz.
  assert (F : fits grid (x ++ y ++ z)).
  { repeat split; try assumption. rewrite !length_app. lia. }
  split; [exact F |]. unfold fx, fy, fz. cbv zeta.
  rewrite (getslice_x grid _ F), (getslice_y grid _ F), (getslice_z grid _ F).
  rewrite (firstn_app_exact x (y ++ z) _ Lx).
  rewrite (skipn_app_exact x (y ++ z) _ Lx).
  rewrite (firstn_app_exact y z _ Ly).
  rewrite app_assoc.
  rewrite (skipn_app_exact (x ++ y) z) by (rewrite length_app; lia).
  rewrite !reshape_F_ok by lia. now repeat split.
Qed.

(** X17.  Each setter writes its own view and nothing else: after [fx = v] the
    view [fx] holds the entries of [v] and the views [fy] and [fz] are
    what they were, and likewise for [fy] and [fz].  [v] needs the size of
    the view, not its shape. *)
Theorem setters_write_their_view grid a (v : ndarray3 A) :
  fits grid a ->
  (length (ravel_F v) = n_edges_x grid ->
   exists a', set_fx grid a v = inr a' /\ fits grid a' /\
     fx grid a' = inr {| shape := shape_edges_x grid; ravel_F := ravel_F v |} /\
     fy grid a' = fy grid a /\ fz grid a' = fz grid a) /\
  (length (ravel_F v) = size (shape_edges_y grid) ->
   exists a', set_fy grid a v = inr a' /\ fits grid a' /\
     fy grid a' = inr {| shape := shape_edges_y grid; ravel_F := ravel_F v |} /\
     fx grid a' = fx grid a /\ fz grid a' = fz grid a) /\
  (length (ravel_F v) = n_edges_z grid ->
   exists a', set_fz grid a v = inr a' /\ fits grid a' /\
     fz grid a' = inr {| shape := shape_edges_z grid; ravel_F := ravel_F v |} /\
     fx grid a' = fx grid a /\ fy grid a' = fy grid a).
Proof.
  intros F. pose proof F as (Sx & Sz & L & P).
  destruct (parts grid a F) as (x & y & z & Ea & Lx & Ly & Lz).
  destruct (fits_parts grid x y z Sx Sz P Lx Ly Lz) as (_ & Ox & Oy & Oz).
  rewrite <- Ea in Ox, Oy, Oz.
  split; [| split]; intros Lv.
  - destruct (fits_parts grid (ravel_F v) y z Sx Sz P Lv Ly Lz)
      as (F' & Nx & Ny & Nz).
    exists (ravel_F v ++ y ++ z). unfold set_fx, setslice.
    rewrite (bounds_x grid a F). rewrite Nat.sub_0_r, Lv, Nat.eqb_refl.
    split.
    + cbn [firstn app Nat.add]. do 2 f_equal. rewrite Ea.
      now apply skipn_app_exact.
    + repeat split; try apply F'; congruence.
  - destruct (fits_parts grid x (ravel_F v) z Sx Sz P Lx Lv Lz)
      as (F' & Nx & Ny & Nz).
    exists (x ++ ravel_F v ++ z). unfold set_fy, setslice.
    rewrite (bounds_y grid a F).
    replace (n_edges_x grid + size (shape_edges_y grid) - n_edges_x grid)
      with (size (shape_edges_y grid)) by lia.
    rewrite Lv, Nat.eqb_refl.
    split.
    + rewrite Ea. rewrite (firstn_app_exact x (y ++ z) _ Lx).
      do 3 f_equal. rewrite app_assoc.
      apply skipn_app_exact. rewrite length_app. lia.
    + repeat split; try apply F'; congruence.
  - destruct (fits_parts grid x y (ravel_F v) Sx Sz P Lx Ly Lv)
      as (F' & Nx & Ny & Nz).
    exists (x ++ y ++ ravel_F v). unfold set_fz, setslice.
    rewrite (bounds_z grid a F).
    replace (length a - (n_edges_x grid + size (shape_edges_y grid)))
      with (n_edges_z grid) by lia.
    rewrite Lv, Nat.eqb_refl.
    split.
    + replace (n_edges_x grid + size (shape_edges_y grid) + n_edges_z grid)
        with (length a) by lia.
      rewrite skipn_all, app_nil_r. rewrite Ea at 1.
      rewrite app_assoc.
      rewrite (firstn_app_exact (x ++ y) z) by (rewrite length_app; lia).
      now rewrite <- app_assoc.
    + repeat split; try apply F'; congruence.
Qed.

End Facts.

(** A grid of 1 x 1 x 1 cells: four edges along each axis. *)
Definition grid111 : TensorMesh :=
  {| n_edges_x := 4; n_edges_z := 4;
     shape_edges_x := (1, 2, 2); shape_edges_y := (2, 1, 2);
     shape_edges_z := (2, 2, 1) |}.

Lemma views_tile_witness :
  exists x y z,
    fx grid111 (seq 0 12) = inr x /\ fy grid111 (seq 0 12) = inr y /\
    fz grid111 (seq 0 12) = inr z /\
    shape x = shape_edges_x grid111 /\ shape y = shape_edges_y grid111 /\
    shape z = shape_edges_z grid111 /\
    ravel_F x ++ ravel_F y ++ ravel_F z = seq 0 12.
Proof.
  apply (views_tile nat grid111 (seq 0 12)).
  unfold fits. cbn. lia.
Defined.

Definition sevens : ndarray3 nat :=
  {| shape := (2, 1, 2); ravel_F := [7; 7; 7; 7] |}.

Lemma setters_write_their_view_witness :
  (length (ravel_F sevens) = n_edges_x grid111 ->
   exists a', set_fx grid111 (seq 0 12) sevens = inr a' /\ fits grid111 a' /\
     fx grid111 a'
       = inr {| shape := shape_edges_x grid111; ravel_F := ravel_F sevens |} /\
     fy grid111 a' = fy grid111 (seq 0 12) /\
     fz grid111 a' = fz grid111 (seq 0 12)) /\
  (length (ravel_F sevens) = size (shape_edges_y grid111) ->
   exists a', set_fy grid111 (seq 0 12) sevens = inr a' /\ fits grid111 a' /\
     fy grid111 a'
       = inr {| shape := shape_edges_y grid111; ravel_F := ravel_F sevens |} /\
     fx grid111 a' = fx grid111 (seq 0 12) /\
     fz grid111 a' = fz grid111 (seq 0 12)) /\
  (length (ravel_F sevens) = n_edges_z grid111 ->
   exists a', set_fz grid111 (seq 0 12) sevens = inr a' /\ fits grid111 a' /\
     fz grid111 a'
       = inr {| shape := shape_edges_z grid111; ravel_F := ravel_F sevens |} /\
     fx grid111 a' = fx grid111 (seq 0 12) /\
     fy grid111 a' = fy grid111 (seq 0 12)).
Proof.
  apply (setters_write_their_view nat grid111 (seq 0 12) sevens).
  unfold fits. cbn. lia.
Defined.

(** What [fy = sevens] leaves in the field of the witness. *)
Example set_fy_runs :
  set_fy grid111 (seq 0 12) sevens
    = inr [0; 1; 2; 3; 7; 7; 7; 7; 8; 9; 10; 11].
Proof. reflexivity. Qed.

End FieldViewsFacts.

(* ====================================================================== *)
(** * solver.py: runs of [solver] with multigrid as the solver *)
(* ====================================================================== *)

Module SolverRuns.
Import Solver SolverFacts.
Local Open Scope string_scope.
Local Open Scope list_scope.
Local Open Scope nat_scope.





End SolverRuns.

(* ====================================================================== *)
(** * Properties of the volume averaging *)
(* ====================================================================== *)

Module VolumeAverageFacts.
Import ArrayFacts VolumeAverage.
Local Open Scope list_scope.
Local Open Scope Q_scope.

Definition qsum (l : list Q) : Q := fold_right Qplus 0 l.

(** ** [np.unique] *)

(** [x] is among the values of [l]. *)
Definition has (x : Q) (l : list Q) : Prop := exists y, In y l /\ y == x.

Lemma has_cons (x y : Q) (l : list Q) :
  has x (y :: l) <-> y == x \/ has x l.
Proof.
  unfold has. split.
  - intros (z & [-> | Hin] & E); [now left | right; now exists z].
  - intros [E | (z & Hin & E)]; [exists y | exists z]; split; auto;
      now (left + right).
Qed.

Lemma has_insert (x y : Q) (l : list Q) :
  has x (insert y l) <-> y == x \/ has x l.
Proof.
  induction l as [| z t IH]; cbn [insert].
  - rewrite has_cons. tauto.
  - destruct (Qle_bool y z).
    + rewrite has_cons. tauto.
    + rewrite !has_cons, IH. tauto.
Qed.

Lemma has_sort (x : Q) (l : list Q) : has x (np_sort l) <-> has x l.
Proof.
  induction l as [| y t IH]; cbn [np_sort fold_right]; [tauto |].
  fold (np_sort t). rewrite has_insert, has_cons, IH. tauto.
Qed.

Lemma has_dedup (x : Q) (l : list Q) : has x (dedup l) <-> has x l.
Proof.
  induction l as [| y t IH]; [tauto |].
  destruct t as [| z t']; [tauto |].
  change (dedup (y :: z :: t'))
    with (if Qeq_bool y z then dedup (z :: t') else y :: dedup (z :: t')).
  destruct (Qeq_bool y z) eqn:E.
  - apply Qeq_bool_iff in E. rewrite IH. rewrite (has_cons x y).
    rewrite (has_cons x z). split; [tauto |].
    intros [H | H]; [left; now rewrite <- E | exact H].
  - rewrite has_cons, IH, (has_cons x y). tauto.
Qed.

Lemma has_unique (x : Q) (l : list Q) : has x (np_unique l) <-> has x l.
Proof. unfold np_unique. now rewrite has_dedup, has_sort. Qed.

(** Sorted lists: each value is below the next ([le]) or strictly below
    it ([lt]). *)
Fixpoint chain (R : Q -> Q -> Prop) (l : list Q) : Prop :=
  match l with
  | x :: ((y :: _) as t) => R x y /\ chain R t
  | _ => True
  end.

Lemma chain_insert (x : Q) (l : list Q) :
  chain Qle l -> chain Qle (insert x l).
Proof.
  induction l as [| y t IH]; intros H; cbn [insert]; [exact I |].
  destruct (Qle_bool x y) eqn:E.
  - apply Qle_bool_iff in E. split; [exact E | exact H].
  - assert (Hyx : y <= x).
    { apply Qlt_le_weak, Qnot_le_lt. intros C.
      apply Qle_bool_iff in C. congruence. }
    destruct t as [| z t'].
    + cbn. split; [exact Hyx | exact I].
    + destruct H as (Hyz & Ht). specialize (IH Ht).
      cbn [insert] in *. destruct (Qle_bool x z); split; assumption.
Qed.

Lemma chain_sort (l : list Q) : chain Qle (np_sort l).
Proof.
  induction l as [| x t IH]; [exact I |]. now apply chain_insert.
Qed.

Lemma dedup_cons (y : Q) (t : list Q) :
  exists h t', dedup (y :: t) = h :: t' /\ h == y.
Proof.
  revert y. induction t as [| z t IH]; intros y.
  - exists y, []. split; reflexivity.
  - change (dedup (y :: z :: t))
      with (if Qeq_bool y z then dedup (z :: t) else y :: dedup (z :: t)).
    destruct (Qeq_bool y z) eqn:E.
    + apply Qeq_bool_iff in E. destruct (IH z) as (h & t' & Eh & Hh).
      exists h, t'. split; [exact Eh | now rewrite Hh, E].
    + exists y, (dedup (z :: t)). split; reflexivity.
Qed.

Lemma chain_dedup (l : list Q) : chain Qle l -> chain Qlt (dedup l).
Proof.
  induction l as [| x t IH]; [trivial |].
  destruct t as [| y t']; [trivial |].
  intros (Hxy & Ht). specialize (IH Ht).
  change (dedup (x :: y :: t'))
    with (if Qeq_bool x y then dedup (y :: t') else x :: dedup (y :: t')).
  destruct (Qeq_bool x y) eqn:E; [exact IH |].
  destruct (dedup_cons y t') as (h & t'' & Eh & Hh).
  rewrite Eh in *. split; [| exact IH].
  rewrite Hh. apply Qle_lt_or_eq in Hxy. destruct Hxy as [L | Q0]; [exact L |].
  apply Qeq_bool_iff in Q0. congruence.
Qed.

Lemma chain_unique (l : list Q) : chain Qlt (np_unique l).
Proof. apply chain_dedup, chain_sort. Qed.

Lemma chain_lt_has (v z : Q) (t : list Q) :
  chain Qlt (v :: t) -> has z t -> v < z.
Proof.
  revert v. induction t as [| w t IH]; intros v H Hz.
  - destruct Hz as (y & [] & _).
  - destruct H as (Hvw & Ht). apply has_cons in Hz.
    destruct Hz as [E | Hz].
    + now rewrite <- E.
    + apply Qlt_trans with w; [exact Hvw | now apply IH].
Qed.

(** ** The weights add up *)

(** The lengths of the pieces of [xs] whose centre lies within [a, b]. *)
Fixpoint seg_sum (a b : Q) (xs : list Q) : Q :=
  match xs with
  | u :: ((v :: _) as t) =>
      if Qle_bool a ((1 # 2) * (u + v)) && Qle_bool ((1 # 2) * (u + v)) b
      then (v - u) + seg_sum a b t
      else seg_sum a b t
  | _ => 0
  end.

Lemma weights_loop_hs (x1 x2 xs : list Q) (i1 i2 : Z) :
  qsum (map (fun e => fst (fst e)) (weights_loop x1 x2 xs i1 i2))
    = seg_sum (hd 0 x2) (last x2 0) xs.
Proof.
  revert i1 i2. induction xs as [| u t IH]; intros i1 i2; [reflexivity |].
  destruct t as [| v t']; [reflexivity |].
  cbn [weights_loop seg_sum]. cbv zeta.
  destruct (_ && _).
  - cbn [map qsum fold_right fst]. fold qsum. f_equal. apply IH.
  - apply IH.
Qed.

Lemma centre_between (u v : Q) :
  u < v -> u < (1 # 2) * (u + v) /\ (1 # 2) * (u + v) < v.
Proof. intros H. split; lra. Qed.

Lemma Qle_bool_gt (x y : Q) : y < x -> Qle_bool x y = false.
Proof.
  intros H. destruct (Qle_bool x y) eqn:E; [| reflexivity].
  apply Qle_bool_iff in E. lra.
Qed.

Lemma Qle_bool_le (x y : Q) : x <= y -> Qle_bool x y = true.
Proof. intros H. now apply Qle_bool_iff. Qed.

Lemma seg_sum_above (a b u : Q) (t : list Q) :
  chain Qlt (u :: t) -> b <= u -> seg_sum a b (u :: t) == 0.
Proof.
  revert u. induction t as [| v t IH]; intros u H Hb; [reflexivity |].
  destruct H as (Huv & Ht). destruct (centre_between u v Huv) as (C1 & C2).
  cbn [seg_sum]. rewrite (Qle_bool_gt _ b) by lra.
  rewrite andb_false_r. apply IH; [exact Ht | lra].
Qed.

Lemma seg_sum_from (a b v : Q) (t : list Q) :
  chain Qlt (v :: t) -> a <= v -> has b (v :: t) ->
  seg_sum a b (v :: t) == b - v.
Proof.
  revert v. induction t as [| w t IH]; intros v H Ha Hb.
  - apply has_cons in Hb. destruct Hb as [E | (y & [] & _)].
    cbn. rewrite <- E. ring.
  - pose proof H as (Hvw & Ht).
    destruct (centre_between v w Hvw) as (C1 & C2).
    apply has_cons in Hb. destruct Hb as [E | Hb].
    + rewrite (seg_sum_above a b v (w :: t) H) by (rewrite E; lra).
      rewrite <- E. ring.
    + assert (Hwb : w <= b).
      { apply has_cons in Hb. destruct Hb as [E | Hb].
        - rewrite E. lra.
        - apply Qlt_le_weak. now apply (chain_lt_has w b t). }
      cbn [seg_sum].
      rewrite (Qle_bool_le a) by lra. rewrite (Qle_bool_le _ b) by lra.
      cbn [andb]. rewrite (IH w Ht) by (try lra; assumption). ring.
Qed.

Lemma seg_sum_tiles (a b : Q) (xs : list Q) :
  chain Qlt xs -> a <= b -> has a xs -> has b xs ->
  seg_sum a b xs == b - a.
Proof.
  induction xs as [| u t IH]; intros H Hab Ha Hb.
  - destruct Ha as (y & [] & _).
  - apply has_cons in Ha. destruct Ha as [E | Ha].
    + rewrite (seg_sum_from a b u t H) by (try assumption; rewrite E; lra).
      rewrite E. ring.
    + destruct t as [| v t']; [destruct Ha as (y & [] & _) |].
      pose proof H as (Huv & Ht).
      destruct (centre_between u v Huv) as (C1 & C2).
      assert (Hva : v <= a).
      { apply has_cons in Ha. destruct Ha as [E | Ha].
        - rewrite E. lra.
        - apply Qlt_le_weak. now apply (chain_lt_has v a t'). }
      assert (Hb' : has b (v :: t')).
      { apply has_cons in Hb. destruct Hb as [E | Hb]; [| exact Hb].
        exfalso. lra. }
      cbn [seg_sum]. rewrite (Qle_bool_gt a) by lra. cbn [andb].
      apply IH; assumption.
Qed.

Lemma has_hd (l : list Q) : l <> [] -> has (hd 0 l) l.
Proof.
  destruct l as [| x t]; [congruence |]. intros _.
  exists x. split; [now left | reflexivity].
Qed.

Lemma has_last (l : list Q) : l <> [] -> has (last l 0) l.
Proof.
  intros H. destruct (exists_last H) as (l' & x & ->).
  rewrite last_last. exists x. split; [| reflexivity].
  apply in_or_app. right. now left.
Qed.

Lemma has_app_r (x : Q) (l1 l2 : list Q) : has x l2 -> has x (l1 ++ l2).
Proof.
  intros (y & Hin & E). exists y. split; [| exact E].
  apply in_or_app. now right.
Qed.

(** X20.  The weights add up to the length of the new grid: for a new grid [x2]
    with at least one edge and a last edge that is not below the first,
    [_volume_average_weights] returns weights whose sum is
    [x2[-1] - x2[0]], whatever the old grid [x1]. *)
Theorem weights_add_up (x1 x2 : list Q) :
  x2 <> [] -> hd 0 x2 <= last x2 0 ->
  exists hs ix1 ix2,
    _volume_average_weights x1 x2 = inr (hs, ix1, ix2) /\
    qsum hs == last x2 0 - hd 0 x2 /\
    length ix1 = length hs /\ length ix2 = length hs.
Proof.
  intros Hne Hle. unfold _volume_average_weights. cbv zeta.
  pose proof (chain_unique (x1 ++ x2)) as Hc.
  assert (Ha : has (hd 0 x2) (np_unique (x1 ++ x2)))
    by (apply has_unique, has_app_r, has_hd, Hne).
  assert (Hb : has (last x2 0) (np_unique (x1 ++ x2)))
    by (apply has_unique, has_app_r, has_last, Hne).
  pose proof (seg_sum_tiles _ _ _ Hc Hle Ha Hb) as T.
  destruct (np_unique (x1 ++ x2)) as [| u [| v t]].
  - destruct Ha as (y & [] & _).
  - exists [], [], []. split; [reflexivity |]. cbn [seg_sum] in T.
    split; [exact T | split; reflexivity].
  - destruct x2 as [| z x2']; [congruence |].
    do 3 eexists. split; [reflexivity |].
    rewrite !length_map. split; [| split; reflexivity].
    rewrite weights_loop_hs. exact T.
Qed.

Lemma weights_add_up_witness :
  exists hs ix1 ix2,
    _volume_average_weights [0; 2; 5; 9] [1; 4; 7] = inr (hs, ix1, ix2) /\
    qsum hs == last [1; 4; 7] 0 - hd 0 [1; 4; 7] /\
    length ix1 = length hs /\ length ix2 = length hs.
Proof.
  apply (weights_add_up [0; 2; 5; 9] [1; 4; 7]).
  - discriminate.
  - vm_compute. discriminate.
Defined.

(** What the function returns on the grids of the witness: the pieces
    [1, 2], [2, 4], [4, 5] and [5, 7] of the new grid with the cells they
    lie in. *)
Example weights_run :
  _volume_average_weights [0; 2; 5; 9] [1; 4; 7]
    = inr ([2 - 1; 4 - 2; 5 - 4; 7 - 5], [0; 1; 1; 2]%Z, [0; 0; 1; 1]%Z).
Proof. reflexivity. Qed.

Lemma weights_loop_indices (x1 x2 xs : list Q) (i1 i2 : Z) :
  Forall (fun e =>
            (x1 <> [] ->
             (0 <= snd (fst e) < Z.of_nat (length x1))%Z) /\
            (x2 <> [] ->
             (0 <= snd e < Z.of_nat (length x2))%Z))
    (weights_loop x1 x2 xs i1 i2).
Proof.
  revert i1 i2. induction xs as [| u t IH]; intros i1 i2; [constructor |].
  destruct t as [| v t']; [constructor |].
  cbn [weights_loop]. cbv zeta. destruct (_ && _); [| apply IH].
  constructor; [| apply IH]. cbn [fst snd].
  split; intros H;
    match goal with
    | H : ?l <> [] |- _ =>
        assert (0 < length l)%nat by (destruct l; [congruence | simpl; lia])
    end; lia.
Qed.

(** X21.  The indices stay within the grids: every entry of [ix1] is an index
    into [x1] and every entry of [ix2] an index into [x2], for grids with
    at least one edge. *)
Theorem weight_indices_in_range (x1 x2 : list Q) (hs : list Q)
    (ix1 ix2 : list Z) :
  x1 <> [] -> x2 <> [] ->
  _volume_average_weights x1 x2 = inr (hs, ix1, ix2) ->
  Forall (fun i => (0 <= i < Z.of_nat (length x1))%Z) ix1 /\
  Forall (fun i => (0 <= i < Z.of_nat (length x2))%Z) ix2.
Proof.
  intros H1 H2. unfold _volume_average_weights. cbv zeta.
  destruct (np_unique (x1 ++ x2)) as [| u [| v t]]; [discriminate | |].
  - intros E. inversion E. split; constructor.
  - destruct x2 as [| z x2']; [congruence |].
    intros E. inversion E; subst; clear E.
    pose proof (weights_loop_indices x1 (z :: x2') (u :: v :: t) 0 0) as F.
    rewrite Forall_forall in F.
    split; apply Forall_forall; intros i Hi; apply in_map_iff in Hi;
      destruct Hi as (e & <- & He); destruct (F e He) as (F1 & F2);
      [now apply F1 | now apply F2].
Qed.

Lemma weight_indices_in_range_witness :
  Forall (fun i => (0 <= i < Z.of_nat (length [0; 2; 5; 9]))%Z)
    [0; 1; 1; 2]%Z /\
  Forall (fun i => (0 <= i < Z.of_nat (length [1; 4; 7]))%Z)
    [0; 0; 1; 1]%Z.
Proof.
  apply (weight_indices_in_range [0; 2; 5; 9] [1; 4; 7]
           [2 - 1; 4 - 2; 5 - 4; 7 - 5]).
  - discriminate.
  - discriminate.
  - reflexivity.
Defined.

(** ** Each piece lands in the cells it lies in *)

(** All of [x] before index [i] is at or below [c]. *)
Definition below (x : list Q) (i : Z) (c : Q) : Prop :=
  forall j, (j < Z.to_nat i)%nat -> nth j x 0 <= c.

(** The [while] loop ends within its steps, at the first index from [i] on
    that is the last one or holds a value above [center]. *)
Lemma advance_spec (steps : nat) (x : list Q) (c : Q) (i : Z) :
  (0 <= i)%Z -> (Z.of_nat (length x) - 1 - i <= Z.of_nat steps)%Z ->
  below x i c ->
  let r := advance steps x c i in
  (i <= r)%Z /\ (r <= Z.max i (Z.of_nat (length x) - 1))%Z /\ below x r c /\
  ((r < Z.of_nat (length x) - 1)%Z -> c < nth (Z.to_nat r) x 0).
Proof.
  revert i. induction steps as [| n IH]; intros i Hi Hf Hb; cbv zeta.
  - cbn [advance].
    split; [lia | split; [lia | split; [exact Hb | intros H; lia]]].
  - cbn [advance].
    destruct (i <? Z.of_nat (length x) - 1)%Z eqn:E1; cbn [andb].
    + apply Z.ltb_lt in E1.
      destruct (Qle_bool (nth (Z.to_nat i) x 0) c) eqn:E2.
      * apply Qle_bool_iff in E2.
        destruct (IH (i + 1)%Z ltac:(lia) ltac:(lia)) as (R1 & R2 & R3 & R4).
        { intros j Hj. destruct (Nat.eq_dec j (Z.to_nat i)) as [-> | Hne].
          - exact E2.
          - apply Hb. lia. }
        split; [lia | split; [lia | split; [exact R3 | exact R4]]].
      * split; [lia | split; [lia | split; [exact Hb |]]]. intros _.
        apply Qnot_le_lt. intros C. apply Qle_bool_iff in C. congruence.
    + apply Z.ltb_ge in E1.
      split; [lia | split; [lia | split; [exact Hb | intros H; lia]]].
Qed.

Lemma chain_tail (R : Q -> Q -> Prop) (x : Q) (t : list Q) :
  chain R (x :: t) -> chain R t.
Proof. destruct t as [| y t']; [trivial | intros (_ & H); exact H]. Qed.

Lemma has_nth (x : list Q) (j : nat) :
  (j < length x)%nat -> has (nth j x 0) x.
Proof.
  intros H. exists (nth j x 0). split; [now apply nth_In | reflexivity].
Qed.

Lemma chain_nth_lt (x : list Q) (j k : nat) :
  chain Qlt x -> (j < k)%nat -> (k < length x)%nat ->
  nth j x 0 < nth k x 0.
Proof.
  revert j k. induction x as [| a t IH]; intros j k H Hjk Hk;
    [simpl in Hk; lia |].
  destruct k as [| k]; [lia |]. cbn [nth]. simpl in Hk.
  destruct j as [| j].
  - apply (chain_lt_has a _ t H). apply has_nth. lia.
  - cbn [nth]. apply IH; [exact (chain_tail _ _ _ H) | lia | lia].
Qed.

Lemma hd_nth (x : list Q) : hd 0 x = nth 0 x 0.
Proof. now destruct x. Qed.

Lemma last_nth (x : list Q) : last x 0 = nth (length x - 1) x 0.
Proof.
  induction x as [| a t IH]; [reflexivity |].
  destruct t as [| b t']; [reflexivity |].
  change (last (a :: b :: t') 0) with (last (b :: t') 0). rewrite IH.
  cbn [length]. cbn [Nat.sub]. rewrite Nat.sub_0_r. reflexivity.
Qed.

(** The pieces of [xs] whose centre lies within [a, b]. *)
Fixpoint pieces (a b : Q) (xs : list Q) : list (Q * Q) :=
  match xs with
  | u :: ((v :: _) as t) =>
      if Qle_bool a ((1 # 2) * (u + v)) && Qle_bool ((1 # 2) * (u + v)) b
      then (u, v) :: pieces a b t
      else pieces a b t
  | _ => []
  end.

(** The piece [[u, v]] lies in cell [i] of the grid [x]. *)
Definition cell (x : list Q) (i : Z) (u v : Q) : Prop :=
  (0 <= i)%Z /\ (i + 1 < Z.of_nat (length x))%Z /\
  nth (Z.to_nat i) x 0 <= u /\ v <= nth (Z.to_nat (i + 1)) x 0.

(** What an entry [(h, i1, i2)] says of the piece [[u, v]] it belongs to:
    [h] is its length; it lies in cell [i2] of the new grid; it lies in
    cell [i1] of the old grid when its centre is within the old grid, and
    [i1] is the first or the last cell of the old grid when the centre is
    before or behind it. *)
Definition placed (x1 x2 : list Q) (p : Q * Q) (e : Q * Z * Z) : Prop :=
  let c := (1 # 2) * (fst p + snd p) in
  fst (fst e) = snd p - fst p /\
  cell x2 (snd e) (fst p) (snd p) /\
  (hd 0 x1 <= c /\ c <= last x1 0 -> cell x1 (snd (fst e)) (fst p) (snd p)) /\
  (c < hd 0 x1 -> snd (fst e) = 0%Z) /\
  (last x1 0 < c -> snd (fst e) = (Z.of_nat (length x1) - 2)%Z).

(** The index of a grid stands before the values still to come. *)
Definition stands (x : list Q) (i : Z) (t : list Q) : Prop :=
  (0 <= i <= Z.of_nat (length x) - 1)%Z /\
  match t with
  | h :: _ => forall j, (j < Z.to_nat i)%nat -> nth j x 0 < h
  | [] => True
  end.

(** Every edge is behind the values still to come or among them. *)
Definition ahead (edges t : list Q) : Prop :=
  match t with
  | h :: _ => forall z, has z edges -> z < h \/ has z t
  | [] => True
  end.

(** Between two neighbours of the chain there is no edge. *)
Lemma no_edge_between (edges : list Q) (u v : Q) (t : list Q) (z : Q) :
  chain Qlt (u :: v :: t) -> ahead edges (u :: v :: t) -> has z edges ->
  z <= u \/ v <= z.
Proof.
  intros H A Hz. destruct (A z Hz) as [L | Hh]; [left; lra |].
  apply has_cons in Hh. destruct Hh as [E | Hh]; [left; lra |].
  right. apply has_cons in Hh. destruct Hh as [E | Hh]; [lra |].
  apply Qlt_le_weak. apply (chain_lt_has v z t); [| exact Hh].
  exact (chain_tail _ _ _ H).
Qed.

Lemma ahead_tail (edges : list Q) (u v : Q) (t : list Q) :
  chain Qlt (u :: v :: t) -> ahead edges (u :: v :: t) ->
  ahead edges (v :: t).
Proof.
  intros (Huv & _) A z Hz. destruct (A z Hz) as [L | Hh]; [left; lra |].
  apply has_cons in Hh. destruct Hh as [E | Hh]; [left; lra |].
  now right.
Qed.

(** One grid at one piece: where the [while] loop stops. *)
Lemma advance_piece (edges x : list Q) (i : Z) (u v : Q) (t : list Q) :
  chain Qlt x -> (2 <= length x)%nat ->
  (forall z, has z x -> has z edges) ->
  chain Qlt (u :: v :: t) -> ahead edges (u :: v :: t) ->
  stands x i (u :: v :: t) ->
  let c := (1 # 2) * (u + v) in
  let r := advance (length x) x c i in
  let ix := Z.min (Z.max (r - 1) 0) (Z.of_nat (length x) - 1) in
  stands x r (v :: t) /\
  (hd 0 x <= c /\ c <= last x 0 -> cell x ix u v) /\
  (c < hd 0 x -> ix = 0%Z) /\
  (last x 0 < c -> ix = (Z.of_nat (length x) - 2)%Z).
Proof.
  intros Hx Hn Hsub Hc A ((I1 & I2) & I3). cbv zeta.
  pose proof Hc as (Huv & _).
  destruct (centre_between u v Huv) as (C1 & C2).
  set (c := (1 # 2) * (u + v)) in *.
  assert (Hb : below x i c).
  { intros j Hj. specialize (I3 j Hj). lra. }
  destruct (advance_spec (length x) x c i I1 ltac:(lia) Hb)
    as (R1 & R2 & R3 & R4).
  set (r := advance (length x) x c i) in *.
  assert (Rn : (r <= Z.of_nat (length x) - 1)%Z) by lia.
  assert (Hin : forall j, (j < length x)%nat ->
                  nth j x 0 <= u \/ v <= nth j x 0).
  { intros j Hj. apply (no_edge_between edges u v t _ Hc A).
    apply Hsub. now apply has_nth. }
  split; [| split; [| split]].
  - split; [lia |]. intros j Hj. specialize (R3 j Hj). lra.
  - intros (L1 & L2). rewrite hd_nth in L1. rewrite last_nth in L2.
    assert (Hr : (1 <= r)%Z).
    { destruct (Z_lt_le_dec r 1) as [Hr0 | Hr1]; [| exact Hr1].
      assert (r = 0%Z) by lia.
      specialize (R4 ltac:(lia)). replace (Z.to_nat r) with 0%nat in R4 by lia.
      lra. }
    rewrite Z.max_l by lia. rewrite Z.min_l by lia.
    unfold cell. split; [lia | split; [lia |]].
    replace (r - 1 + 1)%Z with r by lia.
    split.
    + specialize (R3 (Z.to_nat (r - 1)) ltac:(lia)).
      destruct (Hin (Z.to_nat (r - 1)) ltac:(lia)) as [G | G];
        [exact G | lra].
    + destruct (Hin (Z.to_nat r) ltac:(lia)) as [G | G]; [| exact G].
      destruct (Z_lt_le_dec r (Z.of_nat (length x) - 1)) as [Hl | Hl].
      * specialize (R4 Hl). lra.
      * replace (Z.to_nat r) with (length x - 1)%nat in G by lia. lra.
  - intros L. rewrite hd_nth in L.
    assert (r = 0%Z); [| lia].
    destruct (Z_lt_le_dec r 1) as [Hr0 | Hr1]; [lia |].
    specialize (R3 0%nat ltac:(lia)). lra.
  - intros L. rewrite last_nth in L.
    assert (r = (Z.of_nat (length x) - 1)%Z); [| lia].
    destruct (Z_lt_le_dec r (Z.of_nat (length x) - 1)) as [Hl | Hl]; [| lia].
    specialize (R4 Hl).
    pose proof (chain_nth_lt x (Z.to_nat r) (length x - 1) Hx ltac:(lia)
                  ltac:(lia)).
    lra.
Qed.

Lemma stands_tail (x : list Q) (i : Z) (u v : Q) (t : list Q) :
  u < v -> stands x i (u :: v :: t) -> stands x i (v :: t).
Proof.
  intros Huv (I1 & I2). split; [exact I1 |].
  intros j Hj. specialize (I2 j Hj). lra.
Qed.

Lemma has_app_l (x : Q) (l1 l2 : list Q) : has x l1 -> has x (l1 ++ l2).
Proof.
  intros (y & Hin & E). exists y. split; [| exact E].
  apply in_or_app. now left.
Qed.

Lemma weights_loop_placed (x1 x2 t : list Q) :
  chain Qlt x1 -> chain Qlt x2 ->
  (2 <= length x1)%nat -> (2 <= length x2)%nat ->
  forall i1 i2,
    chain Qlt t -> ahead (x1 ++ x2) t -> stands x1 i1 t -> stands x2 i2 t ->
    Forall2 (placed x1 x2) (pieces (hd 0 x2) (last x2 0) t)
      (weights_loop x1 x2 t i1 i2).
Proof.
  intros H1 H2 N1 N2.
  induction t as [| u t IH]; intros i1 i2 Hc A S1 S2; [constructor |].
  destruct t as [| v t']; [constructor |].
  pose proof Hc as (Huv & Hc').
  pose proof (ahead_tail _ _ _ _ Hc A) as A'.
  destruct (advance_piece (x1 ++ x2) x1 i1 u v t' H1 N1
              (fun z => has_app_l z x1 x2) Hc A S1) as (P1 & P2 & P3 & P4).
  destruct (advance_piece (x1 ++ x2) x2 i2 u v t' H2 N2
              (fun z => has_app_r z x1 x2) Hc A S2) as (Q1 & Q2 & _ & _).
  cbn [pieces weights_loop]. cbv zeta.
  destruct (Qle_bool (hd 0 x2) ((1 # 2) * (u + v))) eqn:E1; cbn [andb];
    [destruct (Qle_bool ((1 # 2) * (u + v)) (last x2 0)) eqn:E2 |].
  - apply Qle_bool_iff in E1, E2.
    constructor; [| now apply IH].
    unfold placed. cbn [fst snd].
    split; [reflexivity |]. split; [now apply Q2 |].
    split; [exact P2 | split; [exact P3 | exact P4]].
  - apply IH; try assumption; now apply (stands_tail _ _ u).
  - apply IH; try assumption; now apply (stands_tail _ _ u).
Qed.

Lemma combine_maps {A B D : Type} (w : list (A * B * D)) :
  combine (combine (map (fun e => fst (fst e)) w)
                   (map (fun e => snd (fst e)) w))
          (map (fun e => snd e) w) = w.
Proof.
  induction w as [| [[a b] d] w IH]; [reflexivity |].
  cbn [map combine fst snd]. now rewrite IH.
Qed.

Lemma weights_unfold (x1 x2 : list Q) (u v : Q) (t : list Q) :
  x2 <> [] -> np_unique (x1 ++ x2) = u :: v :: t ->
  _volume_average_weights x1 x2 =
    inr (map (fun e => fst (fst e)) (weights_loop x1 x2 (u :: v :: t) 0 0),
         map (fun e => snd (fst e)) (weights_loop x1 x2 (u :: v :: t) 0 0),
         map (fun e => snd e) (weights_loop x1 x2 (u :: v :: t) 0 0)).
Proof.
  intros Hne E. unfold _volume_average_weights. rewrite E.
  destruct x2; [congruence | reflexivity].
Qed.

Lemma weights_placed (x1 x2 hs : list Q) (ix1 ix2 : list Z) :
  chain Qlt x1 -> chain Qlt x2 ->
  (2 <= length x1)%nat -> (2 <= length x2)%nat ->
  _volume_average_weights x1 x2 = inr (hs, ix1, ix2) ->
  Forall2 (placed x1 x2)
    (pieces (hd 0 x2) (last x2 0) (np_unique (x1 ++ x2)))
    (combine (combine hs ix1) ix2).
Proof.
  intros H1 H2 N1 N2.
  pose proof (chain_unique (x1 ++ x2)) as Hc.
  assert (A : ahead (x1 ++ x2) (np_unique (x1 ++ x2))).
  { unfold ahead. destruct (np_unique (x1 ++ x2)) eqn:E; [exact I |].
    intros z Hz. right. rewrite <- E. now apply has_unique. }
  destruct (np_unique (x1 ++ x2)) as [| u [| v t]] eqn:E.
  - unfold _volume_average_weights. rewrite E. discriminate.
  - unfold _volume_average_weights. rewrite E.
    intros F. injection F as <- <- <-. constructor.
  - assert (Hne : x2 <> []) by (destruct x2; [simpl in N2; lia | discriminate]).
    rewrite (weights_unfold x1 x2 u v t Hne E).
    set (w := weights_loop x1 x2 (u :: v :: t) 0 0).
    intros F. injection F as <- <- <-. rewrite combine_maps. subst w.
    apply weights_loop_placed; try assumption.
    + split; [lia | intros j Hj; simpl in Hj; lia].
    + split; [lia | intros j Hj; simpl in Hj; lia].
Qed.

(** X22.  The pieces go where they lie: for strictly increasing grids with at
    least one cell each, the entries of [hs], [ix1] and [ix2] belong, in
    this order, to the pieces between neighbouring edges of the two grids
    whose centre is within the new grid; each weight is the length of its
    piece, [ix2] is the cell of the new grid the piece lies in, and [ix1]
    the cell of the old grid it lies in, or the first or last cell of the
    old grid for a piece before or behind the old grid. *)
Theorem weights_in_cells (x1 x2 hs : list Q) (ix1 ix2 : list Z) :
  chain Qlt x1 -> chain Qlt x2 ->
  (2 <= length x1)%nat -> (2 <= length x2)%nat ->
  _volume_average_weights x1 x2 = inr (hs, ix1, ix2) ->
  Forall2 (placed x1 x2)
    (pieces (hd 0 x2) (last x2 0) (np_unique (x1 ++ x2)))
    (combine (combine hs ix1) ix2).
Proof. apply weights_placed. Qed.

Lemma weights_in_cells_witness :
  Forall2 (placed [0; 2; 5; 9] [1; 4; 7])
    (pieces (hd 0 [1; 4; 7]) (last [1; 4; 7] 0)
       (np_unique ([0; 2; 5; 9] ++ [1; 4; 7])))
    (combine (combine [2 - 1; 4 - 2; 5 - 4; 7 - 5] [0; 1; 1; 2]%Z)
             [0; 0; 1; 1]%Z).
Proof.
  apply (weights_in_cells [0; 2; 5; 9] [1; 4; 7]).
  - cbn. repeat split; reflexivity.
  - cbn. repeat split; reflexivity.
  - simpl. lia.
  - simpl. lia.
  - reflexivity.
Defined.

(** ** The weights of one new cell *)

(** The centre of a piece lies within [a', b']. *)
Definition centred (a' b' : Q) (p : Q * Q) : bool :=
  Qle_bool a' ((1 # 2) * (fst p + snd p)) &&
  Qle_bool ((1 # 2) * (fst p + snd p)) b'.

Lemma pieces_cons (a b u v : Q) (t : list Q) :
  pieces a b (u :: v :: t) =
    if Qle_bool a ((1 # 2) * (u + v)) && Qle_bool ((1 # 2) * (u + v)) b
    then (u, v) :: pieces a b (v :: t) else pieces a b (v :: t).
Proof. reflexivity. Qed.

Lemma seg_sum_cons (a b u v : Q) (t : list Q) :
  seg_sum a b (u :: v :: t) =
    if Qle_bool a ((1 # 2) * (u + v)) && Qle_bool ((1 # 2) * (u + v)) b
    then (v - u) + seg_sum a b (v :: t) else seg_sum a b (v :: t).
Proof. reflexivity. Qed.

Lemma pieces_within (a b a' b' : Q) (xs : list Q) :
  a <= a' -> b' <= b ->
  qsum (map (fun p => snd p - fst p) (filter (centred a' b') (pieces a b xs)))
    == seg_sum a' b' xs.
Proof.
  intros Ha Hb. induction xs as [| u t IH]; [reflexivity |].
  destruct t as [| v t']; [reflexivity |].
  rewrite pieces_cons, seg_sum_cons.
  destruct (Qle_bool a' ((1 # 2) * (u + v)) &&
            Qle_bool ((1 # 2) * (u + v)) b') eqn:E'.
  - assert (E : Qle_bool a ((1 # 2) * (u + v)) &&
                Qle_bool ((1 # 2) * (u + v)) b = true).
    { apply andb_true_iff in E'. destruct E' as (E1 & E2).
      apply Qle_bool_iff in E1, E2.
      apply andb_true_iff. split; apply Qle_bool_iff; lra. }
    rewrite E. cbn [filter]. unfold centred at 1. cbn [fst snd].
    rewrite E'. cbn [map qsum fold_right]. fold qsum. now rewrite IH.
  - destruct (Qle_bool a ((1 # 2) * (u + v)) &&
              Qle_bool ((1 # 2) * (u + v)) b); [| exact IH].
    cbn [filter]. unfold centred at 1. cbn [fst snd]. rewrite E'. exact IH.
Qed.

Lemma filtered_sums {A B : Type} (P : A -> B -> Prop)
    (ta : A -> bool) (tb : B -> bool) (fa : A -> Q) (fb : B -> Q)
    (la : list A) (lb : list B) :
  Forall2 P la lb ->
  (forall a b, In a la -> P a b -> ta a = tb b /\ fa a = fb b) ->
  qsum (map fb (filter tb lb)) = qsum (map fa (filter ta la)).
Proof.
  intros F. induction F as [| a b la lb Hab _ IH]; intros H; [reflexivity |].
  destruct (H a b (or_introl eq_refl) Hab) as (Ht & Hf).
  specialize (IH (fun a' b' Hin => H a' b' (or_intror Hin))).
  cbn [filter]. rewrite Ht.
  destruct (tb b); [| exact IH].
  unfold qsum in *. cbn [map fold_right]. now rewrite IH, Hf.
Qed.

Lemma pieces_lt (a b : Q) (xs : list Q) (p : Q * Q) :
  chain Qlt xs -> In p (pieces a b xs) -> fst p < snd p.
Proof.
  induction xs as [| u t IH]; [intros _ []|].
  destruct t as [| v t']; [intros _ [] |].
  intros (Huv & Ht). rewrite pieces_cons.
  destruct (_ && _); [intros [<- | Hin]; [exact Huv | now apply IH] |].
  now apply IH.
Qed.

Lemma weights_fill (x1 x2 hs : list Q) (ix1 ix2 : list Z)
    (o : nat) :
  chain Qlt x1 -> chain Qlt x2 ->
  (2 <= length x1)%nat -> (o + 1 < length x2)%nat ->
  _volume_average_weights x1 x2 = inr (hs, ix1, ix2) ->
  qsum (map (fun e => fst (fst e))
          (filter (fun e => (snd e =? Z.of_nat o)%Z)
             (combine (combine hs ix1) ix2)))
    == nth (o + 1) x2 0 - nth o x2 0.
Proof.
  intros H1 H2 N1 No Hw.
  pose proof (weights_placed x1 x2 hs ix1 ix2 H1 H2 N1 ltac:(lia) Hw) as F.
  set (a' := nth o x2 0). set (b' := nth (o + 1) x2 0).
  assert (Hab : a' < b') by (apply chain_nth_lt; [exact H2 | lia | lia]).
  assert (Ha : hd 0 x2 <= a').
  { rewrite hd_nth. destruct o as [| o']; [subst a'; lra |].
    apply Qlt_le_weak. apply chain_nth_lt; [exact H2 | lia | lia]. }
  assert (Hb : b' <= last x2 0).
  { rewrite last_nth.
    destruct (Nat.eq_dec (o + 1) (length x2 - 1)) as [E | E].
    - subst b'. rewrite E. lra.
    - apply Qlt_le_weak. apply chain_nth_lt; [exact H2 | lia | lia]. }
  rewrite (filtered_sums (placed x1 x2) (centred a' b')
             (fun e => (snd e =? Z.of_nat o)%Z)
             (fun p => snd p - fst p) (fun e => fst (fst e)) _ _ F).
  - rewrite (pieces_within _ _ a' b' _ Ha Hb).
    assert (X : forall z, has z x2 -> has z (np_unique (x1 ++ x2)))
      by (intros z Hz; now apply has_unique, has_app_r).
    rewrite (seg_sum_tiles a' b' _ (chain_unique _) ltac:(lra)).
    + reflexivity.
    + apply X, has_nth. lia.
    + apply X, has_nth. lia.
  - intros [u v] [[h i1] i2] Hin (Ph & (C0 & C1 & C2 & C3) & _).
    pose proof (pieces_lt _ _ _ _ (chain_unique _) Hin) as Huv.
    cbn [fst snd] in *. split; [| now rewrite Ph].
    unfold centred. cbn [fst snd].
    destruct (centre_between u v Huv) as (D1 & D2).
    destruct (Z.eqb_spec i2 (Z.of_nat o)) as [-> | Hne].
    + rewrite Nat2Z.id in C2.
      replace (Z.to_nat (Z.of_nat o + 1)) with (o + 1)%nat in C3 by lia.
      fold a' in C2. fold b' in C3.
      apply andb_true_iff. split; apply Qle_bool_iff; lra.
    + apply andb_false_iff.
      destruct (Z_lt_le_dec i2 (Z.of_nat o)) as [L | L].
      * left. apply Qle_bool_gt.
        assert (nth (Z.to_nat (i2 + 1)) x2 0 <= a').
        { destruct (Nat.eq_dec (Z.to_nat (i2 + 1)) o) as [E | E].
          - subst a'. rewrite E. lra.
          - apply Qlt_le_weak. apply chain_nth_lt; [exact H2 | lia | lia]. }
        lra.
      * right. apply Qle_bool_gt.
        assert (b' <= nth (Z.to_nat i2) x2 0).
        { destruct (Nat.eq_dec (o + 1) (Z.to_nat i2)) as [E | E].
          - subst b'. rewrite E. lra.
          - apply Qlt_le_weak. apply chain_nth_lt; [exact H2 | lia | lia]. }
        lra.
Qed.

(** X23.  The weights of the pieces that go into one cell of the new grid add
    up to the width of that cell: for strictly increasing grids with at
    least one cell each and every cell [o] of the new grid, the entries of
    [hs] whose index in [ix2] is [o] sum to [x2[o+1] - x2[o]]. *)
Theorem weights_fill_new_cell (x1 x2 hs : list Q) (ix1 ix2 : list Z)
    (o : nat) :
  chain Qlt x1 -> chain Qlt x2 ->
  (2 <= length x1)%nat -> (o + 1 < length x2)%nat ->
  _volume_average_weights x1 x2 = inr (hs, ix1, ix2) ->
  qsum (map (fun e => fst (fst e))
          (filter (fun e => (snd e =? Z.of_nat o)%Z)
             (combine (combine hs ix1) ix2)))
    == nth (o + 1) x2 0 - nth o x2 0.
Proof. apply weights_fill. Qed.

Lemma weights_fill_new_cell_witness :
  qsum (map (fun e => fst (fst e))
          (filter (fun e => (snd e =? Z.of_nat 1)%Z)
             (combine (combine [2 - 1; 4 - 2; 5 - 4; 7 - 5] [0; 1; 1; 2]%Z)
                      [0; 0; 1; 1]%Z)))
    == nth (1 + 1) [1; 4; 7] 0 - nth 1 [1; 4; 7] 0.
Proof.
  apply (weights_fill_new_cell [0; 2; 5; 9] [1; 4; 7]).
  - cbn. repeat split; reflexivity.
  - cbn. repeat split; reflexivity.
  - simpl. lia.
  - simpl. lia.
  - reflexivity.
Defined.

(** ** Volume averaging in three dimensions *)

(** The array [a] has the shape [sh] and as many entries, and holds
    [f i j k] at [i, j, k]. *)
Definition agrees (a : ndarray) (sh : nat * nat * nat)
    (f : nat -> nat -> nat -> Q) : Prop :=
  let '(nx, ny, nz) := sh in
  FieldViews.shape a = sh /\
  length (FieldViews.ravel_F a) = (nx * ny * nz)%nat /\
  forall i j k, (i < nx)%nat -> (j < ny)%nat -> (k < nz)%nat ->
    exists q, getitem a (Z.of_nat i) (Z.of_nat j) (Z.of_nat k) = inr q /\
              q == f i j k.

Lemma axis_index_in (n i : nat) :
  (i < n)%nat -> axis_index n (Z.of_nat i) = Some i.
Proof.
  intros H. unfold axis_index.
  replace (0 <=? Z.of_nat i)%Z with true by (symmetry; apply Z.leb_le; lia).
  replace (Z.of_nat i <? Z.of_nat n)%Z with true
    by (symmetry; apply Z.ltb_lt; lia).
  cbn [andb]. now rewrite Nat2Z.id.
Qed.

Lemma position_in (a : ndarray) (nx ny nz i j k : nat) :
  FieldViews.shape a = (nx, ny, nz) ->
  (i < nx)%nat -> (j < ny)%nat -> (k < nz)%nat ->
  position a (Z.of_nat i) (Z.of_nat j) (Z.of_nat k)
    = inr (i + nx * (j + ny * k))%nat.
Proof.
  intros Hs Hi Hj Hk. unfold position. rewrite Hs.
  now rewrite !axis_index_in by assumption.
Qed.

(** [agrees], entry by entry of the flat array. *)
Lemma agrees_nth (a : ndarray) (nx ny nz : nat)
    (f : nat -> nat -> nat -> Q) :
  agrees a (nx, ny, nz) f <->
  FieldViews.shape a = (nx, ny, nz) /\
  length (FieldViews.ravel_F a) = (nx * ny * nz)%nat /\
  forall i j k, (i < nx)%nat -> (j < ny)%nat -> (k < nz)%nat ->
    nth (i + nx * (j + ny * k)) (FieldViews.ravel_F a) 0 == f i j k.
Proof.
  unfold agrees. split; intros (Hs & Hl & H); (split; [exact Hs |]);
    (split; [exact Hl |]); intros i j k Hi Hj Hk.
  - destruct (H i j k Hi Hj Hk) as (q & G & E). unfold getitem in G.
    rewrite (position_in a nx ny nz) in G by assumption.
    injection G as <-. exact E.
  - eexists. split; [| exact (H i j k Hi Hj Hk)].
    unfold getitem. now rewrite (position_in a nx ny nz) by assumption.
Qed.

Lemma agrees_ext (a : ndarray) (nx ny nz : nat)
    (f g : nat -> nat -> nat -> Q) :
  agrees a (nx, ny, nz) f ->
  (forall i j k, (i < nx)%nat -> (j < ny)%nat -> (k < nz)%nat ->
     f i j k == g i j k) ->
  agrees a (nx, ny, nz) g.
Proof.
  intros (Hs & Hl & H) E. split; [exact Hs |]. split; [exact Hl |].
  intros i j k Hi Hj Hk. destruct (H i j k Hi Hj Hk) as (q & G & Eq).
  exists q. split; [exact G |]. now rewrite Eq, E.
Qed.

Lemma length_update (l : list Q) (p : nat) (x : Q) :
  length (update l p x) = length l.
Proof.
  revert p. induction l as [| y t IH]; intros p; [reflexivity |].
  destruct p; cbn [update length]; [reflexivity | now rewrite IH].
Qed.

Lemma nth_update_same (l : list Q) (p : nat) (x : Q) :
  (p < length l)%nat -> nth p (update l p x) 0 = x.
Proof.
  revert p. induction l as [| y t IH]; intros p H; [simpl in H; lia |].
  destruct p; cbn [update nth]; [reflexivity |]. apply IH. simpl in H. lia.
Qed.

Lemma nth_update_other (l : list Q) (p p' : nat) (x : Q) :
  p <> p' -> nth p' (update l p x) 0 = nth p' l 0.
Proof.
  revert p p'. induction l as [| y t IH]; intros p p' H; [reflexivity |].
  destruct p, p'; cbn [update nth]; try reflexivity; [congruence |].
  apply IH. congruence.
Qed.

Lemma index_inj (nx ny i j k i' j' k' : nat) :
  (i < nx)%nat -> (j < ny)%nat -> (i' < nx)%nat -> (j' < ny)%nat ->
  (i + nx * (j + ny * k) = i' + nx * (j' + ny * k'))%nat ->
  i = i' /\ j = j' /\ k = k'.
Proof.
  intros Hi Hj Hi' Hj' E.
  pose proof (decode_i nx ny i j k Hi) as A.
  pose proof (decode_jk nx ny i j k Hi) as B.
  rewrite E in A, B.
  rewrite (decode_i nx ny i' j' k' Hi') in A.
  rewrite (decode_jk nx ny i' j' k' Hi') in B.
  pose proof (decode_j ny j k Hj) as D.
  rewrite <- B in D. rewrite (decode_j ny j' k' Hj') in D.
  subst. split; [reflexivity |]. split; [reflexivity |].
  assert (0 < ny)%nat by lia. nia.
Qed.

(** [+=] adds to one entry and leaves the others. *)
Lemma iadd_agrees (a : ndarray) (nx ny nz i j k : nat) (q : Q)
    (f : nat -> nat -> nat -> Q) :
  agrees a (nx, ny, nz) f ->
  (i < nx)%nat -> (j < ny)%nat -> (k < nz)%nat ->
  exists a',
    iadd a (Z.of_nat i) (Z.of_nat j) (Z.of_nat k) q = inr a' /\
    agrees a' (nx, ny, nz)
      (fun i' j' k' =>
         f i' j' k' +
         (if (i' =? i)%nat && (j' =? j)%nat && (k' =? k)%nat
          then q else 0)).
Proof.
  intros Ha Hi Hj Hk. apply agrees_nth in Ha. destruct Ha as (Hs & Hl & H).
  unfold iadd. rewrite (position_in a nx ny nz) by assumption.
  eexists. split; [reflexivity |]. apply agrees_nth. cbn [FieldViews.shape
    FieldViews.ravel_F]. split; [exact Hs |]. rewrite length_update.
  split; [exact Hl |]. intros i' j' k' Hi' Hj' Hk'.
  pose proof (index_bound nx ny nz i j k Hi Hj Hk) as Hb.
  destruct (Nat.eq_dec (i + nx * (j + ny * k)) (i' + nx * (j' + ny * k')))
    as [E | E].
  - destruct (index_inj nx ny i j k i' j' k' Hi Hj Hi' Hj' E) as (-> & -> & ->).
    rewrite nth_update_same by lia. rewrite !Nat.eqb_refl. cbn [andb].
    now rewrite (H i' j' k') by assumption.
  - rewrite nth_update_other by exact E.
    assert (X : (i' =? i)%nat && (j' =? j)%nat && (k' =? k)%nat = false).
    { destruct (Nat.eqb_spec i' i) as [-> |]; [| reflexivity].
      destruct (Nat.eqb_spec j' j) as [-> |]; [| reflexivity].
      destruct (Nat.eqb_spec k' k) as [-> |]; [| reflexivity].
      congruence. }
    rewrite X. rewrite (H i' j' k') by assumption. ring.
Qed.

(** The weights that go to the cell [o] of the new grid. *)
Definition tot (L : list (Q * Z * Z)) (o : nat) : Q :=
  qsum (map (fun e => fst (fst e))
          (filter (fun e => (snd e =? Z.of_nat o)%Z) L)).

Lemma tot_cons (w : Q) (a b : Z) (L : list (Q * Z * Z)) (o : nat) :
  tot ((w, a, b) :: L) o
    = if (b =? Z.of_nat o)%Z then w + tot L o else tot L o.
Proof.
  unfold tot. cbn [filter snd]. now destruct (b =? Z.of_nat o)%Z.
Qed.

(** The indices of an entry are cells of the old and of the new grid. *)
Definition within (n1 n2 : nat) (e : Q * Z * Z) : Prop :=
  (0 <= snd (fst e) < Z.of_nat n1)%Z /\ (0 <= snd e < Z.of_nat n2)%Z.

Lemma loop_x_agrees (values : ndarray) (c : Q)
    (n1x n1y n1z n2x n2y n2z : nat) (w_zy : Q) (iyi izi iyo izo : nat)
    (L : list (Q * Z * Z)) :
  agrees values (n1x, n1y, n1z) (fun _ _ _ => c) ->
  (iyi < n1y)%nat -> (izi < n1z)%nat -> (iyo < n2y)%nat -> (izo < n2z)%nat ->
  Forall (within n1x n2x) L ->
  forall nv f, agrees nv (n2x, n2y, n2z) f ->
  exists nv',
    loop_x values L w_zy (Z.of_nat iyi) (Z.of_nat izi) (Z.of_nat iyo)
      (Z.of_nat izo) nv = inr nv' /\
    agrees nv' (n2x, n2y, n2z)
      (fun i j k =>
         f i j k +
         (if (j =? iyo)%nat && (k =? izo)%nat
          then w_zy * tot L i * c else 0)).
Proof.
  intros Hv Hyi Hzi Hyo Hzo HL.
  induction HL as [| [[w_x ixi] ixo] L ((I1 & I2) & (O1 & O2)) _ IH];
    intros nv f Hn.
  - exists nv. split; [reflexivity |].
    apply (agrees_ext _ _ _ _ f); [exact Hn |].
    intros i j k _ _ _. unfold tot. cbn. destruct (_ && _); ring.
  - cbn [fst snd] in *. cbn [loop_x].
    destruct Hv as (Hvs & Hvl & Hvg).
    destruct (Hvg (Z.to_nat ixi) iyi izi ltac:(lia) Hyi Hzi) as (v & G & Ev).
    rewrite Z2Nat.id in G by lia. rewrite G.
    destruct (iadd_agrees nv n2x n2y n2z (Z.to_nat ixo) iyo izo
                (w_zy * w_x * v) f Hn ltac:(lia) Hyo Hzo) as (nv1 & A & Hn1).
    rewrite Z2Nat.id in A by lia. rewrite A.
    destruct (IH nv1 _ Hn1) as (nv' & R & Hn').
    exists nv'. split; [exact R |].
    apply (agrees_ext _ _ _ _ _ _ Hn').
    intros i j k _ _ _. cbv beta. rewrite tot_cons.
    destruct (Nat.eqb_spec i (Z.to_nat ixo)) as [Ei | Ei];
      destruct (Z.eqb_spec ixo (Z.of_nat i)) as [Ez | Ez]; try lia;
      cbn [andb]; destruct ((j =? iyo)%nat && (k =? izo)%nat);
      rewrite ?Ev; ring.
Qed.

Lemma loop_y_agrees (values : ndarray) (c : Q)
    (n1x n1y n1z n2x n2y n2z : nat) (w_z : Q) (izi izo : nat)
    (Lx Ly : list (Q * Z * Z)) :
  agrees values (n1x, n1y, n1z) (fun _ _ _ => c) ->
  (izi < n1z)%nat -> (izo < n2z)%nat ->
  Forall (within n1x n2x) Lx -> Forall (within n1y n2y) Ly ->
  forall nv f, agrees nv (n2x, n2y, n2z) f ->
  exists nv',
    loop_y values Ly Lx w_z (Z.of_nat izi) (Z.of_nat izo) nv = inr nv' /\
    agrees nv' (n2x, n2y, n2z)
      (fun i j k =>
         f i j k +
         (if (k =? izo)%nat then w_z * tot Ly j * tot Lx i * c else 0)).
Proof.
  intros Hv Hzi Hzo Hx Hy.
  induction Hy as [| [[w_y iyi] iyo] Ly ((I1 & I2) & (O1 & O2)) _ IH];
    intros nv f Hn.
  - exists nv. split; [reflexivity |].
    apply (agrees_ext _ _ _ _ f); [exact Hn |].
    intros i j k _ _ _. unfold tot at 1. cbn. destruct (_ =? _)%nat; ring.
  - cbn [fst snd] in *. cbn [loop_y].
    destruct (loop_x_agrees values c n1x n1y n1z n2x n2y n2z (w_z * w_y)
                (Z.to_nat iyi) izi (Z.to_nat iyo) izo Lx Hv
                ltac:(lia) Hzi ltac:(lia) Hzo Hx nv f Hn) as (nv1 & A & Hn1).
    rewrite !Z2Nat.id in A by lia. rewrite A.
    destruct (IH nv1 _ Hn1) as (nv' & R & Hn').
    exists nv'. split; [exact R |].
    apply (agrees_ext _ _ _ _ _ _ Hn').
    intros i j k _ _ _. cbv beta. rewrite (tot_cons w_y).
    destruct (Nat.eqb_spec j (Z.to_nat iyo)) as [Ej | Ej];
      destruct (Z.eqb_spec iyo (Z.of_nat j)) as [Ez | Ez]; try lia;
      cbn [andb]; destruct (k =? izo)%nat; ring.
Qed.

Lemma loop_z_agrees (values : ndarray) (c : Q)
    (n1x n1y n1z n2x n2y n2z : nat) (Lx Ly Lz : list (Q * Z * Z)) :
  agrees values (n1x, n1y, n1z) (fun _ _ _ => c) ->
  Forall (within n1x n2x) Lx -> Forall (within n1y n2y) Ly ->
  Forall (within n1z n2z) Lz ->
  forall nv f, agrees nv (n2x, n2y, n2z) f ->
  exists nv',
    loop_z values Lz Ly Lx nv = inr nv' /\
    agrees nv' (n2x, n2y, n2z)
      (fun i j k => f i j k + tot Lz k * tot Ly j * tot Lx i * c).
Proof.
  intros Hv Hx Hy Hz.
  induction Hz as [| [[w_z izi] izo] Lz ((I1 & I2) & (O1 & O2)) _ IH];
    intros nv f Hn.
  - exists nv. split; [reflexivity |].
    apply (agrees_ext _ _ _ _ f); [exact Hn |].
    intros i j k _ _ _. unfold tot at 1. cbn. ring.
  - cbn [fst snd] in *. cbn [loop_z].
    destruct (loop_y_agrees values c n1x n1y n1z n2x n2y n2z w_z
                (Z.to_nat izi) (Z.to_nat izo) Lx Ly Hv
                ltac:(lia) ltac:(lia) Hx Hy nv f Hn) as (nv1 & A & Hn1).
    rewrite !Z2Nat.id in A by lia. rewrite A.
    destruct (IH nv1 _ Hn1) as (nv' & R & Hn').
    exists nv'. split; [exact R |].
    apply (agrees_ext _ _ _ _ _ _ Hn').
    intros i j k _ _ _. cbv beta. rewrite (tot_cons w_z).
    destruct (Nat.eqb_spec k (Z.to_nat izo)) as [Ek | Ek];
      destruct (Z.eqb_spec izo (Z.of_nat k)) as [Ez | Ez]; try lia; ring.
Qed.

(** [/=] of two arrays of one shape divides entry by entry. *)
Lemma idiv_agrees (a b : ndarray) (nx ny nz : nat)
    (f g : nat -> nat -> nat -> Q) :
  agrees a (nx, ny, nz) f -> agrees b (nx, ny, nz) g ->
  exists r, idiv a b = inr r /\
            agrees r (nx, ny, nz) (fun i j k => f i j k / g i j k).
Proof.
  intros Ha Hb. apply agrees_nth in Ha, Hb.
  destruct Ha as (Hsa & Hla & Ha). destruct Hb as (Hsb & Hlb & Hb).
  unfold idiv. rewrite Hsa, Hsb. unfold broadcast. rewrite !Nat.eqb_refl.
  eexists. split; [reflexivity |]. apply agrees_nth.
  cbn [FieldViews.shape FieldViews.ravel_F].
  split; [reflexivity |]. rewrite length_map, length_seq.
  split; [exact Hla |]. intros i j k Hi Hj Hk.
  pose proof (index_bound nx ny nz i j k Hi Hj Hk) as Hp.
  set (p := (i + nx * (j + ny * k))%nat) in *.
  set (F := fun p0 : nat => _).
  rewrite (nth_indep _ 0 (F 0%nat)) by (rewrite length_map, length_seq; lia).
  rewrite map_nth. rewrite seq_nth by lia. cbn [Nat.add]. subst F. cbv beta zeta.
  subst p. rewrite decode_i, decode_jk, decode_j, decode_k by assumption.
  now rewrite Ha, Hb by assumption.
Qed.

Lemma weights_returns (x1 x2 : list Q) :
  x2 <> [] -> exists w, _volume_average_weights x1 x2 = inr w.
Proof.
  intros Hne. unfold _volume_average_weights. cbv zeta.
  assert (Ha : has (hd 0 x2) (np_unique (x1 ++ x2)))
    by (apply has_unique, has_app_r, has_hd, Hne).
  destruct (np_unique (x1 ++ x2)) as [| u [| v t]].
  - destruct Ha as (y & [] & _).
  - eexists. reflexivity.
  - destruct x2; [congruence | eexists; reflexivity].
Qed.

Lemma placed_within (x1 x2 : list Q) (p : Q * Q) (e : Q * Z * Z) :
  (2 <= length x1)%nat -> placed x1 x2 p e ->
  within (length x1 - 1) (length x2 - 1) e.
Proof.
  intros N1 (_ & (C0 & C1 & _) & P1 & P2 & P3). cbv zeta in *.
  split; [| lia].
  set (c := (1 # 2) * (fst p + snd p)) in *.
  destruct (Qlt_le_dec c (hd 0 x1)) as [L | L]; [rewrite (P2 L); lia |].
  destruct (Qlt_le_dec (last x1 0) c) as [L' | L']; [rewrite (P3 L'); lia |].
  destruct (P1 (conj L L')) as (D0 & D1 & _). lia.
Qed.

Lemma Forall2_Forall_r {A B : Type} (P : A -> B -> Prop) (Q0 : B -> Prop)
    (la : list A) (lb : list B) :
  Forall2 P la lb -> (forall a b, P a b -> Q0 b) -> Forall Q0 lb.
Proof.
  intros F H. induction F as [| a b la lb Hab _ IH]; constructor;
    [exact (H a b Hab) | exact IH].
Qed.

(** A grid: strictly increasing edges around at least one cell. *)
Definition increasing (x : list Q) : Prop :=
  chain Qlt x /\ (2 <= length x)%nat.

(** The width of cell [i]. *)
Definition width (x : list Q) (i : nat) : Q := nth (i + 1) x 0 - nth i x 0.

Lemma width_pos (x : list Q) (i : nat) :
  increasing x -> (i < length x - 1)%nat -> 0 < width x i.
Proof.
  intros (H & _) Hi. unfold width.
  pose proof (chain_nth_lt x i (i + 1) H ltac:(lia) ltac:(lia)). lra.
Qed.

(** What [_volume_average_weights] hands to the loops. *)
Lemma weights_entries (x1 x2 : list Q) :
  increasing x1 -> increasing x2 ->
  exists w,
    _volume_average_weights x1 x2 = inr w /\
    Forall (within (length x1 - 1) (length x2 - 1)) (entries w) /\
    forall o, (o < length x2 - 1)%nat -> tot (entries w) o == width x2 o.
Proof.
  intros (H1 & N1) (H2 & N2).
  destruct (weights_returns x1 x2) as ([[hs ix1] ix2] & E).
  { destruct x2; [simpl in N2; lia | discriminate]. }
  exists (hs, ix1, ix2). split; [exact E |]. unfold entries. cbn [fst snd].
  split.
  - apply (Forall2_Forall_r _ _ _ _ (weights_placed x1 x2 hs ix1 ix2 H1 H2 N1
                                       N2 E)).
    intros p e. now apply placed_within.
  - intros o Ho. unfold tot, width.
    apply (weights_fill x1 x2 hs ix1 ix2 o H1 H2 N1 ltac:(lia) E).
Qed.

(** The shape of the cells of a grid. *)
Definition cells (ex ey ez : list Q) : nat * nat * nat :=
  ((length ex - 1)%nat, (length ey - 1)%nat, (length ez - 1)%nat).

(** X24.  Volume averaging keeps a constant: when the old and the new grid have
    strictly increasing edges, [values] holds the same number [c] in every
    cell of the old grid, [new_values] comes with zeros and [new_vol]
    holds the volumes of the cells of the new grid, then
    [interp_volume_average] raises nothing and leaves [c] in every cell of
    the new grid, wherever the new grid lies. *)
Theorem volume_average_of_constant (ex ey ez nex ney nez : list Q)
    (values new_values new_vol : ndarray) (c : Q) :
  increasing ex -> increasing ey -> increasing ez ->
  increasing nex -> increasing ney -> increasing nez ->
  agrees values (cells ex ey ez) (fun _ _ _ => c) ->
  agrees new_values (cells nex ney nez) (fun _ _ _ => 0) ->
  agrees new_vol (cells nex ney nez)
    (fun i j k => width nex i * width ney j * width nez k) ->
  exists r,
    interp_volume_average ex ey ez values nex ney nez new_values new_vol
      = inr r /\
    agrees r (cells nex ney nez) (fun _ _ _ => c).
Proof.
  intros Hx Hy Hz Hnx Hny Hnz Hv Hn Hvol.
  destruct (weights_entries ex nex Hx Hnx) as (wx & Ex & Wx & Tx).
  destruct (weights_entries ey ney Hy Hny) as (wy & Ey & Wy & Ty).
  destruct (weights_entries ez nez Hz Hnz) as (wz & Ez & Wz & Tz).
  unfold interp_volume_average. rewrite Ex, Ey, Ez. unfold cells in *.
  destruct (loop_z_agrees values c _ _ _ _ _ _ _ _ _ Hv Wx Wy Wz
              new_values _ Hn) as (nv & L & Hnv).
  rewrite L.
  destruct (idiv_agrees nv new_vol _ _ _ _ _ Hnv Hvol) as (r & D & Hr).
  exists r. split; [exact D |].
  apply (agrees_ext _ _ _ _ _ _ Hr).
  intros i j k Hi Hj Hk. cbv beta.
  rewrite (Tx i Hi), (Ty j Hj), (Tz k Hk).
  pose proof (width_pos nex i Hnx Hi). pose proof (width_pos ney j Hny Hj).
  pose proof (width_pos nez k Hnz Hk).
  field. repeat split; lra.
Qed.

(** An old grid of two cells holding 3, a new grid of two cells that ends
    behind the old one. *)
Definition threes : ndarray :=
  {| FieldViews.shape := (2, 1, 1)%nat; FieldViews.ravel_F := [3; 3] |}.

Definition zeros211 : ndarray :=
  {| FieldViews.shape := (2, 1, 1)%nat; FieldViews.ravel_F := [0; 0] |}.

Definition vol211 : ndarray :=
  {| FieldViews.shape := (2, 1, 1)%nat;
     FieldViews.ravel_F := [(4 - 1) * (1 - 0) * (1 - 0);
                            (7 - 4) * (1 - 0) * (1 - 0)] |}.

Lemma volume_average_of_constant_witness :
  exists r,
    interp_volume_average [0; 2; 5] [0; 1] [0; 1] threes
      [1; 4; 7] [0; 1] [0; 1] zeros211 vol211 = inr r /\
    agrees r (cells [1; 4; 7] [0; 1] [0; 1]) (fun _ _ _ => 3).
Proof.
  apply (volume_average_of_constant [0; 2; 5] [0; 1] [0; 1]
           [1; 4; 7] [0; 1] [0; 1] threes zeros211 vol211 3).
  - split; [cbn; repeat split; reflexivity | simpl; lia].
  - split; [cbn; repeat split; reflexivity | simpl; lia].
  - split; [cbn; repeat split; reflexivity | simpl; lia].
  - split; [cbn; repeat split; reflexivity | simpl; lia].
  - split; [cbn; repeat split; reflexivity | simpl; lia].
  - split; [cbn; repeat split; reflexivity | simpl; lia].
  - split; [reflexivity | split; [reflexivity |]].
    intros [| [| i]] [| j] [| k] Hi Hj Hk; simpl in Hi, Hj, Hk; try lia;
      eexists; split; reflexivity.
  - split; [reflexivity | split; [reflexivity |]].
    intros [| [| i]] [| j] [| k] Hi Hj Hk; simpl in Hi, Hj, Hk; try lia;
      eexists; split; reflexivity.
  - split; [reflexivity | split; [reflexivity |]].
    intros [| [| i]] [| j] [| k] Hi Hj Hk; simpl in Hi, Hj, Hk; try lia;
      eexists; split; reflexivity.
Defined.

(** Values that differ: the old cells [0, 2] and [2, 5] hold 3 and 6.  The
    new cell [1, 4] gets (1 * 3 + 2 * 6) / 3 = 5, and the new cell
    [4, 7], a third of which lies in the old grid, gets 6. *)
Example volume_average_run :
  match interp_volume_average [0; 2; 5] [0; 1] [0; 1]
          {| FieldViews.shape := (2, 1, 1)%nat;
             FieldViews.ravel_F := [3; 6] |}
          [1; 4; 7] [0; 1] [0; 1] zeros211 vol211 with
  | inr r =>
      FieldViews.shape r = (2, 1, 1)%nat /\
      Forall2 Qeq (FieldViews.ravel_F r) [5; 6]
  | inl _ => False
  end.
Proof. vm_compute. split; [reflexivity |]. repeat constructor. Qed.

End VolumeAverageFacts.
